(** * Jittor Python front end ([python/jittor/__init__.py])

    A shallow embedding of the scripting layer of Jittor: the tensor-shape
    helper [flatten], the scoped flag / log-capture contexts, the process
    exit hook, and the [Module] tree with its traversal, its parameter
    bookkeeping and its checkpoint save / load.

    Python exceptions are values of [exn]; a call that may raise returns an
    [outcome].  Mutable objects owned by the native core (the [flags]
    object, [Var] handles, the logger) live in explicit stores that every
    operation threads through. *)

From Stdlib Require Import ZArith String Ascii List Bool Lia.
From stdpp Require Import gmap strings list pretty.
Import ListNotations.

Local Open Scope string_scope.
Local Open Scope list_scope.
Local Open Scope Z_scope.

(** ** Exceptions and outcomes *)

Inductive exn : Type :=
| AssertionError (msg : string)
| AttributeError
| IndexError
| ValueError
| TypeError
| RuntimeError (msg : string)
| OSError
| ImportError
| UserError (code : nat).

Inductive outcome (A : Type) : Type :=
| Return (a : A)
| Raise (e : exn).
Arguments Return {A} a.
Arguments Raise {A} e.

Definition bind {A B} (m : outcome A) (f : A -> outcome B) : outcome B :=
  match m with
  | Return a => f a
  | Raise e => Raise e
  end.

Notation "'let*' x ':=' m 'in' k" := (bind m (fun x => k))
  (at level 10, x name, m at level 100, k at level 200).

(** [for x in xs: acc = body(acc, x)], stopping at the first exception. *)
Fixpoint for_each {A S} (body : S -> A -> outcome S) (xs : list A) (s : S)
  : outcome S :=
  match xs with
  | [] => Return s
  | x :: xs' => let* s' := body s x in for_each body xs' s'
  end.

(** [d[k]] and [d[k] = v] on a dictionary in insertion order. *)
Fixpoint dict_get {A} (d : list (string * A)) (k : string) : option A :=
  match d with
  | [] => None
  | (k', v) :: rest => if String.eqb k' k then Some v else dict_get rest k
  end.

Fixpoint dict_set {A} (d : list (string * A)) (k : string) (v : A)
  : list (string * A) :=
  match d with
  | [] => [(k, v)]
  | (k', v') :: rest =>
    if String.eqb k' k then (k', v) :: rest else (k', v') :: dict_set rest k v
  end.

(** ** [flatten] *)

Module Flatten.

(** [range(a, b, 1)] *)
Definition range (a b : Z) : list Z :=
  map (fun i => a + Z.of_nat i) (seq 0 (Z.to_nat (b - a))).

(** [shape[i]] with Python's sequence indexing: a negative index counts
    from the end, anything outside [-len, len) raises [IndexError]. *)
Definition getitem (shape : list Z) (i : Z) : outcome Z :=
  let n := Z.of_nat (length shape) in
  let j := if i <? 0 then i + n else i in
  if (0 <=? j) && (j <? n)
  then match nth_error shape (Z.to_nat j) with
       | Some d => Return d
       | None => Raise IndexError
       end
  else Raise IndexError.

Definition numel (shape : list Z) : Z := fold_right Z.mul 1 shape.

(** [x.reshape(shape)] of the native core, on the shape of [x]: the
    result has the requested shape, which must hold as many elements. *)
Definition reshape (in_shape out_shape : list Z) : outcome (list Z) :=
  if numel in_shape =? numel out_shape then Return out_shape
  else Raise (RuntimeError "reshape size mismatch").

Definition normalize (ndim dim : Z) : Z :=
  if dim <? 0 then ndim + dim else dim.

Definition assert_msg : string :=
  "end_dim should be larger than start_dim for flatten function".

(** [flatten(input, start_dim=0, end_dim=-1)], on the shape of [input];
    the value is the shape of the returned tensor. *)
Definition flatten (in_shape : list Z) (start_dim end_dim : Z)
  : outcome (list Z) :=
  let ndim := Z.of_nat (length in_shape) in
  let start_dim := normalize ndim start_dim in
  let end_dim := normalize ndim end_dim in
  if negb (end_dim >? start_dim) then Raise (AssertionError assert_msg)
  else
    let* out_shape :=
      for_each (fun out i => let* d := getitem in_shape i in Return (out ++ [d]))
               (range 0 start_dim) [] in
    let* dims :=
      for_each (fun dims i => let* d := getitem in_shape i in Return (dims * d))
               (range start_dim (end_dim + 1)) 1 in
    let out_shape := out_shape ++ [dims] in
    let* out_shape :=
      for_each (fun out i => let* d := getitem in_shape i in Return (out ++ [d]))
               (range (end_dim + 1) ndim) out_shape in
    reshape in_shape out_shape.

(** [shape[a:b]] for [0 <= a <= b <= len(shape)]. *)
Definition slice (a b : Z) (shape : list Z) : list Z :=
  firstn (Z.to_nat (b - a)) (skipn (Z.to_nat a) shape).

(** The default call [flatten(input)]. *)
Definition flatten_default (in_shape : list Z) : outcome (list Z) :=
  flatten in_shape 0 (-1).

End Flatten.


(** ** Native [Var] handles

    A [Var] is an opaque handle owned by the native core.  The Python layer
    identifies it by [id(p)] and reads or writes its name tag, its
    gradient flag and its array data. *)

Module Vars.

(** [id(p)] *)
Abbreviation var_id := nat (only parsing).

(** Raw array data as [p.data] returns it. *)
Inductive ndarray : Type :=
| NdArray (dtype : string) (shape : list Z) (values : list Z).

Record var_state : Type := mkVar {
  var_name : string;
  var_stop_grad : bool;
  var_data : ndarray
}.

(** The heap of [Var] objects, indexed by [id(p)]. *)
Definition store := var_id -> var_state.

Definition update (sigma : store) (p : var_id) (st : var_state) : store :=
  fun q => if Nat.eqb q p then st else sigma q.

(** [p.name(s)] *)
Definition set_name (sigma : store) (p : var_id) (s : string) : store :=
  update sigma p (mkVar s (var_stop_grad (sigma p)) (var_data (sigma p))).

(** [p.is_stop_grad()] *)
Definition is_stop_grad (sigma : store) (p : var_id) : bool :=
  var_stop_grad (sigma p).

(** Modelled from the spec: [p.stop_grad()] of the native core, which is
    not part of this file; it disables gradient tracking on [p] in place
    and returns [p]. *)
Definition stop_grad (sigma : store) (p : var_id) : store :=
  update sigma p (mkVar (var_name (sigma p)) true (var_data (sigma p))).

(** Modelled from the spec: [x.clone()] of the native core; the result is
    a new [Var] with the data of [x], unnamed, on which gradient tracking
    is enabled. *)
Definition clone (st : var_state) : var_state :=
  mkVar "" false (var_data st).

(** Modelled from the spec: [x.swap(y)] of the native core with [y] a
    temporary; the handle [x] takes over the contents of [y] (and the
    temporary, which takes those of [x], is dropped). *)
Definition swap_with_temp (sigma : store) (x : var_id) (y : var_state) : store :=
  update sigma x y.

(** [detach_inplace(x)], bound as [Var.start_grad]:
    [x.swap(x.stop_grad().clone())]. *)
Definition detach_inplace (sigma : store) (x : var_id) : store :=
  let sigma1 := stop_grad sigma x in
  swap_with_temp sigma1 x (clone (sigma1 x)).

Definition start_grad := detach_inplace.

End Vars.

(** ** The [Module] tree *)

Module Tree.
Import Vars.

Record pyclass : Type := mkClass {
  cls_name : string;
  (** [isinstance(v, nn.Sequential)] *)
  is_sequential : bool
}.

(** Python values found in the attributes of a [Module].  The [__dict__]
    of a module is an association list in insertion order.  The parent /
    child relation is a tree, and every node is traversed by [Module.dfs]
    as this file defines it. *)
#[warnings="-register-all"]
Inductive value : Type :=
| VModule (m : Module)
| VVar (p : var_id)
| VBool (b : bool)
| VBackup (bk : gmap nat bool)
| VTuple (items : list value)
| VOther
with Module : Type :=
| Mod (cls : pyclass) (dict : list (string * value)).

Definition class_of (m : Module) : pyclass :=
  match m with Mod cls _ => cls end.

Definition dict_of (m : Module) : list (string * value) :=
  match m with Mod _ dict => dict end.

(** [isinstance(v, Module)] *)
Definition is_module (v : value) : bool :=
  match v with VModule _ => true | _ => false end.

(** The count [n_children] that [dfs] makes over [self.__dict__.values()]. *)
Fixpoint count_modules (items : list (string * value)) : nat :=
  match items with
  | [] => 0%nat
  | (_, v) :: rest =>
    if is_module v then S (count_modules rest) else count_modules rest
  end.

(** What a callback returns. *)
Inductive ret : Type :=
| RetNone
| RetBool (b : bool)
| RetInt (z : Z).

(** [ret == False] *)
Definition eq_False (r : ret) : bool :=
  match r with
  | RetBool false => true
  | RetInt 0 => true
  | _ => false
  end.

(** The callbacks are closures over mutable lists; [S] is the state of
    what they close over, and a callback is a transformer of that state. *)
Section Dfs.
Context {S : Type}.
Variable callback : list Module -> option string -> Module -> nat -> S -> S * ret.
Variable callback_leave :
  option (list Module -> option string -> Module -> nat -> S -> S).

Section Items.
Variable dfs_rec : Module -> list Module -> option string -> S -> S.
Variable self : Module.

(** The loop [for k,v in self.__dict__.items()]; it rebinds [k], so the
    value of [k] after the loop is returned with the state. *)
Fixpoint dfs_items (parents : list Module) (items : list (string * value))
  (k : option string) (s : S) : S * option string :=
  match items with
  | [] => (s, k)
  | (k', v) :: rest =>
    match v with
    | VModule c =>
      (* parents.append(self); v.dfs(...); parents.pop() *)
      let s' := dfs_rec c (parents ++ [self]) (Some k') s in
      dfs_items parents rest (Some k') s'
    | _ => dfs_items parents rest (Some k') s
    end
  end.
End Items.

(** [Module.dfs(self, parents, k, callback, callback_leave)] *)
Fixpoint dfs (self : Module) (parents : list Module) (k : option string)
  (s : S) {struct self} : S :=
  match self with
  | Mod _ dict =>
    let n_children := count_modules dict in
    let '(s1, r) := callback parents k self n_children s in
    if eq_False r then s1
    else
      let '(s2, k2) := dfs_items dfs self parents dict k s1 in
      match callback_leave with
      | Some leave => leave parents k2 self n_children s2
      | None => s2
      end
  end.
End Dfs.

(** *** Recording the calls made by a traversal *)

Inductive event : Type :=
| Enter (parents : list Module) (k : option string) (v : Module) (n : nat)
| Leave (parents : list Module) (k : option string) (v : Module) (n : nat).

Definition visit := list Module -> option string -> Module -> nat -> ret.

(** A [callback] that records its arguments and answers with [decide], and
    a [callback_leave] that records its arguments. *)
Definition record_enter (decide : visit)
  : list Module -> option string -> Module -> nat -> list event -> list event * ret :=
  fun parents k v n log => (log ++ [Enter parents k v n], decide parents k v n).

Definition record_leave
  : list Module -> option string -> Module -> nat -> list event -> list event :=
  fun parents k v n log => log ++ [Leave parents k v n].

Definition dfs_trace (decide : visit) (self : Module) (parents : list Module)
  (k : option string) : list event :=
  dfs (record_enter decide) (Some record_leave) self parents k [].

(** The calls recorded while the loop of [dfs] runs over [items]: the
    traversals of the [Module]-valued attributes, in order, each with
    [self] pushed on [parents] and the attribute name as key. *)
Fixpoint children_trace (decide : visit) (self : Module) (parents : list Module)
  (items : list (string * value)) : list event :=
  match items with
  | [] => []
  | (k', VModule c) :: rest =>
    dfs_trace decide c (parents ++ [self]) (Some k')
    ++ children_trace decide self parents rest
  | _ :: rest => children_trace decide self parents rest
  end.

(** The value of [k] once the loop over [items] has run. *)
Fixpoint key_after_loop (items : list (string * value)) (k : option string)
  : option string :=
  match items with
  | [] => k
  | (k', _) :: rest => key_after_loop rest (Some k')
  end.

Definition is_leave (e : event) : bool :=
  match e with Leave _ _ _ _ => true | Enter _ _ _ _ => false end.

Definition not_leave (e : event) : bool := negb (is_leave e).

(** *** [modules], [children], [parameters] *)

(** The callback of [modules]; [isinstance(v, Module)] holds of every
    node that [dfs] visits. *)
Definition modules_callback
  (parents : list Module) (k : option string) (v : Module) (n : nat)
  (ms : list Module) : list Module * ret :=
  (ms ++ [v], RetNone).

(** [Module.modules(self)] *)
Definition modules (self : Module) : list Module :=
  dfs modules_callback None self [] None [].

(** The callback of [children]. *)
Definition children_callback
  (parents : list Module) (k : option string) (v : Module) (n : nat)
  (cd : list Module) : list Module * ret :=
  if Nat.eqb (length parents) 1
  then (cd ++ [v], RetBool false)
  else (cd, RetNone).

(** [Module.children(self)] *)
Definition children (self : Module) : list Module :=
  dfs children_callback None self [] None [].

(** [str(k)] for a key that is [None] or a string. *)
Definition str_key (k : option string) : string :=
  match k with
  | None => "None"
  | Some s => s
  end.

(** State of the closures of [parameters]: [ps], [stack] and the heap. *)
Definition params_state : Type := list var_id * list string * store.

(** The loop [for k2, p in v.__dict__.items()] of the callback. *)
Fixpoint collect_vars (stack : list string) (items : list (string * value))
  (ps : list var_id) (sigma : store) : list var_id * store :=
  match items with
  | [] => (ps, sigma)
  | (k2, VVar p) :: rest =>
    collect_vars stack rest (ps ++ [p])
      (set_name sigma p (String.concat "." (tl stack ++ [k2])))
  | _ :: rest => collect_vars stack rest ps sigma
  end.

Definition parameters_callback
  : list Module -> option string -> Module -> nat -> params_state -> params_state * ret :=
  fun parents k v n '(ps, stack, sigma) =>
    let stack := stack ++ [str_key k] in
    let '(ps, sigma) := collect_vars stack (dict_of v) ps sigma in
    ((ps, stack, sigma), RetNone).

Definition parameters_leave
  : list Module -> option string -> Module -> nat -> params_state -> params_state :=
  fun parents k v n '(ps, stack, sigma) => (ps, removelast stack, sigma).

(** [Module.parameters(self)]: the list [ps] and the heap, in which the
    parameters have been named. *)
Definition parameters (self : Module) (sigma : store) : list var_id * store :=
  let '(ps, _, sigma') :=
    dfs parameters_callback (Some parameters_leave) self [] None ([], [], sigma) in
  (ps, sigma').

(** *** A manual recursive walk

    [def walk(m): return 1 + sum(walk(v) for v in m.__dict__.values()
    if isinstance(v, Module))], and the nodes it visits, in order. *)

Fixpoint count_nodes (m : Module) : nat :=
  match m with
  | Mod _ dict =>
    S ((fix over (items : list (string * value)) : nat :=
          match items with
          | [] => 0%nat
          | (_, VModule c) :: rest => (count_nodes c + over rest)%nat
          | _ :: rest => over rest
          end) dict)
  end.

Fixpoint count_nodes_items (items : list (string * value)) : nat :=
  match items with
  | [] => 0%nat
  | (_, VModule c) :: rest => (count_nodes c + count_nodes_items rest)%nat
  | _ :: rest => count_nodes_items rest
  end.

Fixpoint walk (m : Module) : list Module :=
  match m with
  | Mod _ dict =>
    m :: (fix over (items : list (string * value)) : list Module :=
            match items with
            | [] => []
            | (_, VModule c) :: rest => walk c ++ over rest
            | _ :: rest => over rest
            end) dict
  end.

Fixpoint walk_items (items : list (string * value)) : list Module :=
  match items with
  | [] => []
  | (_, VModule c) :: rest => walk c ++ walk_items rest
  | _ :: rest => walk_items rest
  end.

(** The parameters that a manual pre-order walk meets, each with the path
    of attribute names that leads to it from the root: first the
    [Var]-valued attributes of a node, then those of its [Module]-valued
    attributes, in [__dict__] order. *)
Fixpoint own_vars (prefix : list string) (items : list (string * value))
  : list (list string * var_id) :=
  match items with
  | [] => []
  | (k2, VVar p) :: rest => (prefix ++ [k2], p) :: own_vars prefix rest
  | _ :: rest => own_vars prefix rest
  end.

Fixpoint named_params (prefix : list string) (m : Module)
  : list (list string * var_id) :=
  match m with
  | Mod _ dict =>
    own_vars prefix dict
    ++ (fix over (items : list (string * value)) : list (list string * var_id) :=
          match items with
          | [] => []
          | (k', VModule c) :: rest => named_params (prefix ++ [k']) c ++ over rest
          | _ :: rest => over rest
          end) dict
  end.

Fixpoint named_params_items (prefix : list string) (items : list (string * value))
  : list (list string * var_id) :=
  match items with
  | [] => []
  | (k', VModule c) :: rest =>
    named_params (prefix ++ [k']) c ++ named_params_items prefix rest
  | _ :: rest => named_params_items prefix rest
  end.

(** Naming the parameters of such a list, in order. *)
Definition name_all (l : list (list string * var_id)) (sigma : store) : store :=
  fold_left (fun sg '(path, p) => set_name sg p (String.concat "." path)) l sigma.

(** [node x m]: [x] is [m] or a node below it in the tree. *)
Inductive node (x : Module) : Module -> Prop :=
| node_root : node x x
| node_below cls dict k c :
    In (k, VModule c) dict -> node x c -> node x (Mod cls dict).

End Tree.

(** ** [eval] and [train] *)

Module Training.
Import Vars Tree.

(** [self.dfs([], None, callback, None)] with the callback of [eval]
    ([b = false]) and of [train] ([b = true]): every visited node that has
    an attribute [is_train] gets [v.is_train = b].  The callback never
    stops the traversal; writing the attribute in place is rendered by
    rebuilding the node.  [hasattr] is read on the instance [__dict__]. *)
Fixpoint set_is_train (b : bool) (m : Module) : Module :=
  match m with
  | Mod cls dict =>
    Mod cls
      ((fix over (items : list (string * value)) : list (string * value) :=
          match items with
          | [] => []
          | (k, v) :: rest =>
            (if String.eqb k "is_train" then (k, VBool b)
             else match v with
                  | VModule c => (k, VModule (set_is_train b c))
                  | _ => (k, v)
                  end) :: over rest
          end) dict)
  end.

Fixpoint set_is_train_items (b : bool) (items : list (string * value))
  : list (string * value) :=
  match items with
  | [] => []
  | (k, v) :: rest =>
    (if String.eqb k "is_train" then (k, VBool b)
     else match v with
          | VModule c => (k, VModule (set_is_train b c))
          | _ => (k, v)
          end) :: set_is_train_items b rest
  end.

(** What the traversal of [eval] / [train] makes of an attribute value. *)
Definition retrain (b : bool) (v : value) : value :=
  match v with
  | VModule c => VModule (set_is_train b c)
  | _ => v
  end.

(** Values that are neither a [Module] nor a [Var]. *)
Definition plain (v : value) : bool :=
  match v with
  | VModule _ | VVar _ => false
  | _ => true
  end.

(** [self.k = v] on a module. *)
Definition setattr (m : Module) (k : string) (v : value) : Module :=
  match m with Mod cls dict => Mod cls (dict_set dict k v) end.

(** [self.backup_grad_state], which must be a dictionary for the membership
    test and the item assignment to work. *)
Definition backup_grad_state (m : Module) : outcome (gmap nat bool) :=
  match dict_get (dict_of m) "backup_grad_state" with
  | Some (VBackup bk) => Return bk
  | Some _ => Raise TypeError
  | None => Raise AttributeError
  end.

(** One round of the loop of [eval]. *)
Definition eval_step (st : gmap nat bool * store) (p : var_id)
  : gmap nat bool * store :=
  let '(bk, sigma) := st in
  let bk' := match bk !! p with
             | None => <[p := negb (is_stop_grad sigma p)]> bk
             | Some _ => bk
             end in
  (bk', stop_grad sigma p).

(** [Module.eval(self)] *)
Definition eval (self : Module) (sigma : store) : outcome (Module * store) :=
  let self := set_is_train false self in
  let self := match dict_get (dict_of self) "backup_grad_state" with
              | None => setattr self "backup_grad_state" (VBackup ∅)
              | Some _ => self
              end in
  let '(ps, sigma) := parameters self sigma in
  match ps with
  | [] => Return (self, sigma)
  | _ :: _ =>
    let* bk := backup_grad_state self in
    let '(bk, sigma) := fold_left eval_step ps (bk, sigma) in
    Return (setattr self "backup_grad_state" (VBackup bk), sigma)
  end.

(** One round of the loop of [train]. *)
Definition train_step (bk : gmap nat bool) (sigma : store) (p : var_id) : store :=
  match bk !! p with
  | Some true => start_grad sigma p
  | _ => sigma
  end.

(** [Module.train(self)] *)
Definition train (self : Module) (sigma : store) : outcome (Module * store) :=
  let self := set_is_train true self in
  match dict_get (dict_of self) "backup_grad_state" with
  | None => Return (self, sigma)
  | Some _ =>
    let '(ps, sigma) := parameters self sigma in
    match ps with
    | [] => Return (self, sigma)
    | _ :: _ =>
      let* bk := backup_grad_state self in
      Return (self, fold_left (train_step bk) ps sigma)
    end
  end.

(** The backup map that [eval] starts from: the one held by the root, or
    the empty one that [eval] creates when the root has none. *)
Definition recorded_backup (m : Module) : option (gmap nat bool) :=
  match dict_get (dict_of m) "backup_grad_state" with
  | None => Some ∅
  | Some (VBackup bk) => Some bk
  | Some _ => None
  end.

(** [self.eval(); self.train()] *)
Definition eval_then_train (self : Module) (sigma : store)
  : outcome (Module * store) :=
  let* r := eval self sigma in
  train (fst r) (snd r).

End Training.

(** ** Checkpoints: [load_parameters], [save], [load] *)

Module Checkpoint.
Import Vars Tree Training.

(** The values that a checkpoint mapping may hold under a key. *)
Inductive pvalue : Type :=
| PArray (a : ndarray)     (* np.ndarray *)
| PList (a : ndarray)      (* a list, [a] being what np.array makes of it *)
| PVar (q : var_id)        (* a Var *)
| PTensor (a : ndarray)    (* a pytorch tensor, [a] being .cpu().detach().numpy() *)
| POther.                  (* anything else *)

Inductive log_entry : Type :=
| LogW (msg : string)
| LogV (msg : string).

Definition is_warning (e : log_entry) : bool :=
  match e with LogW _ => true | LogV _ => false end.

(** [key.split('.')] *)
Fixpoint split_dot (s : string) : list string :=
  match s with
  | EmptyString => [""]
  | String c rest =>
    if Ascii.eqb c "." then "" :: split_dot rest
    else match split_dot rest with
         | [] => [String c ""]
         | seg :: segs => String c seg :: segs
         end
  end.

(** [s.endswith(suffix)] *)
Definition ends_with (s suffix : string) : bool :=
  let n := String.length s in
  let m := String.length suffix in
  andb (Nat.leb m n) (String.eqb (String.substring (n - m) m s) suffix).

(** A loop whose body works on a state that is kept when it raises. *)
Fixpoint for_each_st {A S} (body : S -> A -> outcome unit * S) (xs : list A) (s : S)
  : outcome unit * S :=
  match xs with
  | [] => (Return tt, s)
  | x :: xs' =>
    match body s x with
    | (Return _, s') => for_each_st body xs' s'
    | (Raise e, s') => (Raise e, s')
    end
  end.

Section Load.

(** The attributes that [hasattr] / [getattr] find outside the instance
    [__dict__] of a module (methods and class attributes), and those of the
    values that are not modules: given by the class definitions, the Python
    runtime and the native core. *)
Variable extra_attr : value -> string -> option value.

(** [np.int(k)], the builtin [int] of the Python runtime applied to a key
    segment: the integer that the text denotes, or the error that it
    raises.  It is not part of this file. *)
Variable np_int : string -> outcome Z.

(** [v.assign(value)] of the native core, on the [Var] [v]; the value is
    given by its array data.  It is not part of this file. *)
Variable assign : store -> var_id -> ndarray -> store.

(** [hasattr(v, k)] and [getattr(v, k)] *)
Definition py_getattr (v : value) (k : string) : option value :=
  match v with
  | VModule (Mod _ dict) =>
    match dict_get dict k with
    | Some x => Some x
    | None => extra_attr v k
    end
  | _ => extra_attr v k
  end.

(** [isinstance(v, nn.Sequential)] *)
Definition isinstance_Sequential (v : value) : bool :=
  match v with
  | VModule (Mod cls _) => is_sequential cls
  | _ => false
  end.

(** [v.layers], of which [len] is taken. *)
Definition layers (v : value) : outcome (list value) :=
  match py_getattr v "layers" with
  | None => Raise AttributeError
  | Some (VTuple items) => Return items
  | Some _ => Raise TypeError
  end.

(** Modelled from the spec: [nn.Sequential.__getitem__], which is not part
    of this file; "sequence-typed containers are indexed numerically":
    [v[i]] is [v.layers[i]] with Python's sequence indexing. *)
Definition seq_getitem (v : value) (i : Z) : outcome value :=
  let* items := layers v in
  let n := Z.of_nat (length items) in
  let j := if i <? 0 then i + n else i in
  if (0 <=? j) && (j <? n)
  then match nth_error items (Z.to_nat j) with
       | Some x => Return x
       | None => Raise IndexError
       end
  else Raise IndexError.

(** The loop [for k in key_] of [load_parameters]: [Return None] when it
    leaves with [end = 1], [Return (Some v)] when it runs to its end. *)
Fixpoint resolve (v : value) (key_ : list string) : outcome (option value) :=
  match key_ with
  | [] => Return (Some v)
  | k :: rest =>
    if isinstance_Sequential v then
      let* i := np_int k in
      let* items := layers v in
      if i >=? Z.of_nat (length items) then Return None
      else
        let* i := np_int k in
        let* v' := seq_getitem v i in
        resolve v' rest
    else
      match py_getattr v k with
      | Some v' => resolve v' rest
      | None => Return None
      end
  end.

(** The three branches on [params[key]], each ending in [v.assign(...)];
    a value that is not a [Var] has no [assign]. *)
Definition assign_value (sigma : store) (v : value) (x : pvalue) : outcome store :=
  match v with
  | VVar p =>
    match x with
    | PArray a | PList a => Return (assign sigma p a)
    | PVar q => Return (assign sigma p (var_data (sigma q)))
    | PTensor a => Return (assign sigma p a)
    | POther => Raise AttributeError
    end
  | _ => Raise AttributeError
  end.

Definition load_state : Type := nat * list log_entry * store.

Definition msg_failed (key : string) : string :=
  "load parameter " ++ key ++ " failed ...".

Definition msg_success (key : string) : string :=
  "load parameter " ++ key ++ " success ...".

Definition msg_total (total n_failed : nat) : string :=
  "load total " ++ pretty total ++ " params, " ++ pretty n_failed ++ " failed".

(** One round of the loop [for key in params.keys()]. *)
Definition load_one (self : Module) (st : load_state) (entry : string * pvalue)
  : outcome unit * load_state :=
  let '(n_failed, log, sigma) := st in
  let '(key, x) := entry in
  match resolve (VModule self) (split_dot key) with
  | Raise e => (Raise e, st)
  | Return None =>
    (Return tt, (S n_failed, log ++ [LogW (msg_failed key)], sigma))
  | Return (Some v) =>
    let log := log ++ [LogV (msg_success key)] in
    match assign_value sigma v x with
    | Raise e => (Raise e, (n_failed, log, sigma))
    | Return sigma' => (Return tt, (n_failed, log, sigma'))
    end
  end.

(** [Module.load_parameters(self, params)]; the mapping is the list of its
    items, in order. *)
Definition load_parameters (self : Module) (params : list (string * pvalue))
  (st : list log_entry * store) : outcome unit * (list log_entry * store) :=
  let '(log, sigma) := st in
  match for_each_st (load_one self) params (0%nat, log, sigma) with
  | (Raise e, (_, log, sigma)) => (Raise e, (log, sigma))
  | (Return _, (n_failed, log, sigma)) =>
    match n_failed with
    | O => (Return tt, (log, sigma))
    | S _ =>
      (Return tt, (log ++ [LogW (msg_total (length params) n_failed)], sigma))
    end
  end.

(** *** What a call of [load_parameters] does, entry by entry *)

(** The parameter that the key of an entry resolves to. *)
Definition target_var (self : Module) (entry : string * pvalue) : option var_id :=
  match resolve (VModule self) (split_dot (fst entry)) with
  | Return (Some (VVar p)) => Some p
  | _ => None
  end.

(** The key of the entry fails to resolve ([end = 1]). *)
Definition fails (self : Module) (entry : string * pvalue) : bool :=
  match resolve (VModule self) (split_dot (fst entry)) with
  | Return None => true
  | _ => false
  end.

(** Entries that [load_parameters] handles without raising: the key fails
    to resolve, or it resolves to a [Var] and the value is an array, a
    list, a [Var] or a tensor. *)
Definition loadable (self : Module) (entry : string * pvalue) : bool :=
  match resolve (VModule self) (split_dot (fst entry)) with
  | Return None => true
  | Return (Some (VVar _)) =>
    match snd entry with POther => false | _ => true end
  | _ => false
  end.

(** The array that an entry holds; that of a [Var] is read when the entry
    is assigned. *)
Definition payload (sigma : store) (x : pvalue) : option ndarray :=
  match x with
  | PArray a | PList a | PTensor a => Some a
  | PVar q => Some (var_data (sigma q))
  | POther => None
  end.

Definition entry_msg (self : Module) (entry : string * pvalue) : log_entry :=
  if fails self entry then LogW (msg_failed (fst entry))
  else LogV (msg_success (fst entry)).

Definition count_failed (self : Module) (params : list (string * pvalue)) : nat :=
  length (List.filter (fails self) params).

Definition summary (self : Module) (params : list (string * pvalue))
  : list log_entry :=
  match count_failed self params with
  | O => []
  | S _ as n => [LogW (msg_total (length params) n)]
  end.

Definition apply_entry (self : Module) (sigma : store) (entry : string * pvalue)
  : store :=
  match target_var self entry, payload sigma (snd entry) with
  | Some p, Some a => assign sigma p a
  | _, _ => sigma
  end.

Definition apply_all (self : Module) (params : list (string * pvalue))
  (sigma : store) : store :=
  fold_left (apply_entry self) params sigma.

(** *** Files *)

Inductive file : Type :=
| PickleFile (d : list (string * pvalue))
| OtherFile (content : string).

(** [open(path, 'wb')] succeeds. *)
Variable writable : string -> bool.

(** The loop [for p in params: params_dict[p.name()] = p.data]. *)
Definition build_params_dict (sigma : store) (params : list var_id)
  (params_dict : list (string * pvalue)) : list (string * pvalue) :=
  fold_left (fun d p => dict_set d (var_name (sigma p)) (PArray (var_data (sigma p))))
            params params_dict.

(** [Module.save(self, path)]; [pickle.dump] writes the mapping, and
    [pickle.load] reads back what was written. *)
Definition save (self : Module) (path : string) (st : gmap string file * store)
  : outcome unit * (gmap string file * store) :=
  let '(fs, sigma) := st in
  let '(params, sigma) := parameters self sigma in
  let params_dict := build_params_dict sigma params [] in
  if writable path
  then (Return tt, (<[path := PickleFile params_dict]> fs, sigma))
  else (Raise OSError, (fs, sigma)).

(** What the process can import. *)
Record environment : Type := mkEnv {
  (** [os.RTLD_GLOBAL | os.RTLD_DEEPBIND] evaluates *)
  has_RTLD_DEEPBIND : bool;
  (** [import torch] succeeds *)
  torch_installed : bool
}.

(** [torch.load(path, map_location=torch.device('cpu'))] *)
Variable torch_load : gmap string file -> string -> outcome (list (string * pvalue)).

Definition pth_error : string :=
  "pytorch need to be installed when load pth format.".

(** [dirty_fix_pytorch_runtime_error(); import torch] *)
Definition import_torch (env : environment) : outcome unit :=
  if has_RTLD_DEEPBIND env
  then if torch_installed env then Return tt else Raise ImportError
  else Raise AttributeError.

(** [pickle.load(open(path, 'rb'))] *)
Definition pickle_load (fs : gmap string file) (path : string)
  : outcome (list (string * pvalue)) :=
  match fs !! path with
  | None => Raise OSError
  | Some (PickleFile d) => Return d
  | Some (OtherFile _) => Raise ValueError
  end.

(** [Module.load(self, path)] *)
Definition load (env : environment) (fs : gmap string file) (self : Module)
  (path : string) (st : list log_entry * store)
  : outcome unit * (list log_entry * store) :=
  if ends_with path ".pth" then
    match import_torch env with
    | Raise _ => (Raise (RuntimeError pth_error), st)
    | Return _ =>
      match torch_load fs path with
      | Raise e => (Raise e, st)
      | Return d => load_parameters self d st
      end
    end
  else
    match pickle_load fs path with
    | Raise e => (Raise e, st)
    | Return d => load_parameters self d st
    end.

End Load.

(** *** A structurally identical fresh tree

    The same tree with other [Var] objects in place of the parameters. *)
Fixpoint rename_vars (f : var_id -> var_id) (m : Module) : Module :=
  match m with
  | Mod cls dict =>
    Mod cls
      ((fix over (items : list (string * value)) : list (string * value) :=
          match items with
          | [] => []
          | (k, VModule c) :: rest => (k, VModule (rename_vars f c)) :: over rest
          | (k, VVar p) :: rest => (k, VVar (f p)) :: over rest
          | kv :: rest => kv :: over rest
          end) dict)
  end.

Definition rename_value (f : var_id -> var_id) (v : value) : value :=
  match v with
  | VModule c => VModule (rename_vars f c)
  | VVar p => VVar (f p)
  | _ => v
  end.

Fixpoint rename_vars_items (f : var_id -> var_id) (items : list (string * value))
  : list (string * value) :=
  match items with
  | [] => []
  | (k, VModule c) :: rest => (k, VModule (rename_vars f c)) :: rename_vars_items f rest
  | (k, VVar p) :: rest => (k, VVar (f p)) :: rename_vars_items f rest
  | kv :: rest => kv :: rename_vars_items f rest
  end.

(** Attribute names as Python identifiers give them: no dot in a name, and
    no name twice in a [__dict__]; no node is a [Sequential]. *)
Fixpoint dot_free (s : string) : bool :=
  match s with
  | EmptyString => true
  | String c rest => negb (Ascii.eqb c ".") && dot_free rest
  end.

Fixpoint keys_ok (items : list (string * value)) : bool :=
  match items with
  | [] => true
  | (k, _) :: rest =>
    dot_free k && negb (existsb (fun kv => String.eqb (fst kv) k) rest) && keys_ok rest
  end.

Fixpoint plain_tree (m : Module) : bool :=
  match m with
  | Mod cls dict =>
    negb (is_sequential cls) && keys_ok dict
    && (fix over (items : list (string * value)) : bool :=
          match items with
          | [] => true
          | (_, VModule c) :: rest => plain_tree c && over rest
          | _ :: rest => over rest
          end) dict
  end.

Fixpoint plain_tree_items (items : list (string * value)) : bool :=
  match items with
  | [] => true
  | (_, VModule c) :: rest => plain_tree c && plain_tree_items rest
  | _ :: rest => plain_tree_items rest
  end.

End Checkpoint.

(** ** Scoped flags: [flag_scope] *)

Module FlagScope.

Section Native.
Context {V : Type}.

(** The native [flags] object: [is_flag k] tells whether it has an
    attribute [k], [accepts k v] whether the setter of [k] takes [v]. *)
Variable is_flag : string -> bool.
Variable accepts : string -> V -> bool.

Definition flags : Type := string -> V.

Definition update (fl : flags) (k : string) (v : V) : flags :=
  fun k' => if String.eqb k' k then v else fl k'.

(** [getattr(flags, k)] *)
Definition getattr (fl : flags) (k : string) : outcome V :=
  if is_flag k then Return (fl k) else Raise AttributeError.

(** [setattr(flags, k, v)] *)
Definition setattr (fl : flags) (k : string) (v : V) : outcome flags :=
  if is_flag k
  then if accepts k v then Return (update fl k v) else Raise TypeError
  else Raise AttributeError.

Record flag_scope : Type := mk_flag_scope {
  jt_flags : list (string * V);
  flags_bk : option (list (string * V))
}.

(** [flag_scope(jt_flags)] *)
Definition init (jt_flags : list (string * V)) : flag_scope :=
  mk_flag_scope jt_flags None.

(** The loop of [__exit__]. *)
Fixpoint restore (bk : list (string * V)) (fl : flags) : outcome unit * flags :=
  match bk with
  | [] => (Return tt, fl)
  | (k, v) :: rest =>
    match setattr fl k v with
    | Return fl' => restore rest fl'
    | Raise e => (Raise e, fl)
    end
  end.

(** [flag_scope.__exit__(self, *exc)] *)
Definition exit (self : flag_scope) (fl : flags) : outcome unit * flags :=
  match flags_bk self with
  | None => (Raise AttributeError, fl)
  | Some bk => restore bk fl
  end.

(** The loop inside the [try] of [__enter__]; [flags_bk] and the flags are
    returned as the loop leaves them, also when it raises. *)
Fixpoint apply_flags (items : list (string * V)) (bk : list (string * V))
  (fl : flags) : outcome unit * (list (string * V) * flags) :=
  match items with
  | [] => (Return tt, (bk, fl))
  | (k, v) :: rest =>
    match getattr fl k with
    | Raise e => (Raise e, (bk, fl))
    | Return old =>
      let bk := dict_set bk k old in
      match setattr fl k v with
      | Raise e => (Raise e, (bk, fl))
      | Return fl' => apply_flags rest bk fl'
      end
    end
  end.

(** [flag_scope.__enter__(self)] *)
Definition enter (self : flag_scope) (fl : flags)
  : outcome unit * (flag_scope * flags) :=
  let '(r, (bk, fl')) := apply_flags (jt_flags self) [] fl in
  let self' := mk_flag_scope (jt_flags self) (Some bk) in
  match r with
  | Return _ => (Return tt, (self', fl'))
  | Raise e =>
    (* except: self.__exit__(); raise *)
    match exit self' fl' with
    | (Return _, fl'') => (Raise e, (self', fl''))
    | (Raise e', fl'') => (Raise e', (self', fl''))
    end
  end.

(** [with flag_scope(jt_flags): body] *)
Definition with_flag_scope {A} (jt_flags : list (string * V))
  (body : flags -> outcome A * flags) (fl : flags) : outcome A * flags :=
  match enter (init jt_flags) fl with
  | (Raise e, (_, fl1)) => (Raise e, fl1)
  | (Return _, (self, fl1)) =>
    let '(r, fl2) := body fl1 in
    match exit self fl2 with
    | (Return _, fl3) => (r, fl3)
    | (Raise e, fl3) => (Raise e, fl3)
    end
  end.

(** The flags with every override applied. *)
Definition overridden (jt_flags : list (string * V)) (fl : flags) : flags :=
  fold_left (fun fl kv => update fl (fst kv) (snd kv)) jt_flags fl.

(** The error of the first override that cannot be applied. *)
Fixpoint first_failure (jt_flags : list (string * V)) : option exn :=
  match jt_flags with
  | [] => None
  | (k, v) :: rest =>
    if negb (is_flag k) then Some AttributeError
    else if negb (accepts k v) then Some TypeError
    else first_failure rest
  end.

(** Every flag holds a value that its setter takes. *)
Definition valid (fl : flags) : Prop :=
  forall k, is_flag k = true -> accepts k (fl k) = true.

(** A backup of values of [fl0]: each entry belongs to a flag and holds the
    value that the flag has in [fl0], which its setter takes. *)
Definition backup_of (fl0 : flags) (bk : list (string * V)) : Prop :=
  forall k v, In (k, v) bk ->
    is_flag k = true /\ accepts k v = true /\ v = fl0 k.

End Native.
End FlagScope.

(** ** [log_capture_scope] *)

Module LogCapture.
Import FlagScope.

(** Calls to the native logger. *)
Inductive log_call : Type :=
| LogCaptureStart
| LogCaptureStop
| LogCaptureRead.

Section Native.
Context {V : Type}.
Variable is_flag : string -> bool.
Variable accepts : string -> V -> bool.

(** The globals that the scope works on: the native flags, the module
    global [single_log_capture] ([None] is [false]), and the native
    logger, as the calls made to it and the lines it has buffered. *)
Record world : Type := mk_world {
  w_flags : @flags V;
  single_log_capture : bool;
  log_calls : list log_call;
  log_buffer : list string
}.

Record log_capture_scope : Type := mk_log_capture_scope {
  fs : @flag_scope V;
  logs : option (list string)
}.

(** [log_capture_scope(jt_flags)] *)
Definition init (jt_flags : list (string * V)) : log_capture_scope :=
  mk_log_capture_scope (FlagScope.init jt_flags) None.

(** [log_capture_scope.__enter__(self)]; the value is [self.logs]. *)
Definition enter (self : log_capture_scope) (w : world)
  : outcome (list string) * (log_capture_scope * world) :=
  if single_log_capture w then (Raise (AssertionError ""), (self, w))
  else
    let calls := log_calls w ++ [LogCaptureStart] in
    match FlagScope.enter is_flag accepts (fs self) (w_flags w) with
    | (Return _, (fs', fl')) =>
      (Return [],
       (mk_log_capture_scope fs' (Some []),
        mk_world fl' true calls (log_buffer w)))
    | (Raise e, (fs', fl')) =>
      (Raise e,
       (mk_log_capture_scope fs' (Some []),
        mk_world fl' false (calls ++ [LogCaptureStop]) (log_buffer w)))
    end.

(** [log_capture_scope.__exit__(self, *exc)] *)
Definition exit (self : log_capture_scope) (w : world)
  : outcome unit * (log_capture_scope * world) :=
  match FlagScope.exit is_flag accepts (fs self) (w_flags w) with
  | (Raise e, fl') =>
    (Raise e,
     (self, mk_world fl' (single_log_capture w) (log_calls w) (log_buffer w)))
  | (Return _, fl') =>
    let calls := log_calls w ++ [LogCaptureStop; LogCaptureRead] in
    match logs self with
    | None => (Raise AttributeError,
               (self, mk_world fl' (single_log_capture w)
                               (log_calls w ++ [LogCaptureStop]) (log_buffer w)))
    | Some l =>
      (Return tt,
       (mk_log_capture_scope (fs self) (Some (l ++ log_buffer w)),
        mk_world fl' false calls (log_buffer w)))
    end
  end.

(** How many captures have been started and not stopped. *)
Fixpoint open_captures (calls : list log_call) : Z :=
  match calls with
  | [] => 0
  | LogCaptureStart :: rest => open_captures rest + 1
  | LogCaptureStop :: rest => open_captures rest - 1
  | LogCaptureRead :: rest => open_captures rest
  end.

End Native.
End LogCapture.

(** ** The exit hook *)

Module ExitHook.

(** What [sys.exit] is given, other than [None]. *)
Inductive exit_arg : Type :=
| ExitInt (code : Z)
| ExitObject (repr : string).

Record ExitHooks : Type := mk_hooks {
  exit_code : option exit_arg;
  exception : option exn
}.

(** [ExitHooks()] *)
Definition new_hooks : ExitHooks := mk_hooks None None.

(** [ExitHooks.exit(self, code=0)], installed as [sys.exit]: records the
    code; the original [sys.exit] then raises [SystemExit]. *)
Definition exit (self : ExitHooks) (code : option exit_arg) : ExitHooks :=
  mk_hooks code (exception self).

Definition exit_default (self : ExitHooks) : ExitHooks :=
  exit self (Some (ExitInt 0)).

(** [ExitHooks.exc_handler(self, exc_type, exc, *args)], installed as
    [sys.excepthook]. *)
Definition exc_handler (self : ExitHooks) (exc : option exn) : ExitHooks :=
  mk_hooks (exit_code self) exc.

(** Calls to the native core. *)
Inductive core_call : Type :=
| SyncAll (device_sync : bool).

(** [jittor_exit()], registered with [atexit]; the calls it makes to the
    core are appended to those made so far. *)
Definition jittor_exit (hooks : ExitHooks) (calls : list core_call)
  : list core_call :=
  match exit_code hooks with
  | Some _ => calls
  | None =>
    match exception hooks with
    | Some _ => calls
    | None => calls ++ [SyncAll true]
    end
  end.

End ExitHook.

(** ** [reshape], [unsqueeze], [squeeze] *)

Module Shapes.
Import Flatten.

(** A positional argument of [reshape] / [transpose]: an integer or a
    sequence. *)
#[warnings="-register-all"]
Inductive arg : Type :=
| AInt (z : Z)
| ASeq (items : list arg).

(** [if len(shape) == 1 and isinstance(shape[0], Sequence): shape = shape[0]] *)
Definition unpack (shape : list arg) : list arg :=
  match shape with
  | [ASeq items] => items
  | _ => shape
  end.

(** The native functions take a vector of integers. *)
Fixpoint as_ints (shape : list arg) : outcome (list Z) :=
  match shape with
  | [] => Return []
  | AInt z :: rest => let* zs := as_ints rest in Return (z :: zs)
  | ASeq _ :: _ => Raise TypeError
  end.

(** [reshape(x, *shape)], bound as [Var.reshape], on the shape of [x]. *)
Definition reshape_args (in_shape : list Z) (shape : list arg) : outcome (list Z) :=
  let* dims := as_ints (unpack shape) in
  reshape in_shape dims.

(** Python's slices [l[:i]] and [l[i:]]: a negative bound counts from the
    end, and bounds are clipped to the list. *)
Definition clip (n i : Z) : nat :=
  Z.to_nat (if i <? 0 then Z.max (n + i) 0 else Z.min i n).

Definition slice_to {A} (l : list A) (i : Z) : list A :=
  firstn (clip (Z.of_nat (length l)) i) l.

Definition slice_from {A} (l : list A) (i : Z) : list A :=
  skipn (clip (Z.of_nat (length l)) i) l.

(** [unsqueeze(x, dim)] *)
Definition unsqueeze (in_shape : list Z) (dim : Z) : outcome (list Z) :=
  let shape := in_shape in
  if negb (dim <=? Z.of_nat (length shape)) then Raise (AssertionError "")
  else
    reshape_args in_shape
      [ASeq (map AInt (slice_to shape dim ++ [1] ++ slice_from shape dim))].

(** [squeeze(x, dim)] *)
Definition squeeze (in_shape : list Z) (dim : Z) : outcome (list Z) :=
  let shape := in_shape in
  let dim := if dim <? 0 then dim + Z.of_nat (length shape) else dim in
  if negb ((dim <? Z.of_nat (length shape)) && (dim >=? 0))
  then Raise (AssertionError "")
  else
    let* d := getitem shape dim in
    if negb (d =? 1) then Raise (AssertionError "")
    else
      reshape_args in_shape
        [ASeq (map AInt (slice_to shape dim ++ slice_from shape (dim + 1)))].

End Shapes.

(** ** Traversals, continued: [__str__] *)

Module Traversal.
Import Vars Tree.

(** The [Module]-valued attributes of a [__dict__], in order. *)
Fixpoint child_modules (items : list (string * value)) : list Module :=
  match items with
  | [] => []
  | (_, VModule c) :: rest => c :: child_modules rest
  | _ :: rest => child_modules rest
  end.

(** Running a pair of callbacks over recorded calls. *)
Definition replay {S : Type}
  (enter leave : list Module -> option string -> Module -> nat -> S -> S)
  (s : S) (e : event) : S :=
  match e with
  | Enter parents k v n => enter parents k v n s
  | Leave parents k v n => leave parents k v n s
  end.

Definition never_stop : visit := fun _ _ _ _ => RetNone.

Definition is_enter (e : event) : bool :=
  match e with Enter _ _ _ _ => true | Leave _ _ _ _ => false end.

(** An enter call on which [decide] does not stop the traversal. *)
Definition is_open (decide : visit) (e : event) : bool :=
  match e with
  | Enter parents k v n => negb (eq_False (decide parents k v n))
  | Leave _ _ _ _ => false
  end.

(** The [Var]-valued attributes of a [__dict__], in order. *)
Fixpoint own_var_ids (items : list (string * value)) : list var_id :=
  match items with
  | [] => []
  | (_, VVar p) :: rest => p :: own_var_ids rest
  | _ :: rest => own_var_ids rest
  end.

(** The name that naming the list [l] in order leaves on [p], if any. *)
Fixpoint last_name (l : list (list string * var_id)) (p : var_id) : option string :=
  match l with
  | [] => None
  | (path, q) :: rest =>
    match last_name rest p with
    | Some name => Some name
    | None => if Nat.eqb p q then Some (String.concat "." path) else None
    end
  end.

(** How many of the recorded calls satisfy [f]. *)
Definition count_events (f : event -> bool) (l : list event) : nat :=
  length (List.filter f l).

(** [' ' * n] *)
Fixpoint spaces (n : nat) : string :=
  match n with
  | O => EmptyString
  | S n' => String " " (spaces n')
  end.

Section Str.

(** [v.extra_repr()], which reflects on the constructor of the class. *)
Variable extra_repr : Module -> string.

(** The callbacks of [__str__]; the state is the list [ss]. *)
Definition str_enter (parents : list Module) (k : option string) (v : Module)
  (n : nat) (ss : list string) : list string :=
  let k := match k with
           | Some key => String.append key ": "
           | None => EmptyString
           end in
  let s := String.append (spaces (length parents * 4))
             (String.append k (cls_name (class_of v))) in
  let s := match n with
           | O => String.append s (String.append "(" (String.append (extra_repr v) ")"))
           | S _ => String.append s "("
           end in
  ss ++ [s].

Definition str_callback (parents : list Module) (k : option string) (v : Module)
  (n : nat) (ss : list string) : list string * ret :=
  (str_enter parents k v n ss, RetNone).

Definition str_leave (parents : list Module) (k : option string) (v : Module)
  (n : nat) (ss : list string) : list string :=
  match n with
  | O => ss
  | S _ => ss ++ [String.append (spaces (length parents * 4)) ")"]
  end.

(** The list [ss] when the traversal of [__str__] is over. *)
Definition str_lines (self : Module) : list string :=
  dfs str_callback (Some str_leave) self [] None [].

Definition newline : string := String (ascii_of_nat 10) EmptyString.

(** [Module.__str__(self)] *)
Definition str (self : Module) : string :=
  String.concat newline (str_lines self).

(** The lines of a node at a depth, under a key, by recursion on the tree:
    the head line, the lines of the [Module]-valued attributes one level
    deeper, and a closing line when there is such an attribute. *)
Fixpoint render (depth : nat) (k : option string) (m : Module) : list string :=
  match m with
  | Mod cls dict =>
    let key := match k with
               | Some key => String.append key ": "
               | None => EmptyString
               end in
    let head := String.append (spaces (depth * 4)) (String.append key (cls_name cls)) in
    match count_modules dict with
    | O => [String.append head (String.append "(" (String.append (extra_repr m) ")"))]
    | S _ =>
      String.append head "("
      :: (fix over (items : list (string * value)) : list string :=
            match items with
            | [] => []
            | (k', VModule c) :: rest => render (S depth) (Some k') c ++ over rest
            | _ :: rest => over rest
            end) dict
      ++ [String.append (spaces (depth * 4)) ")"]
    end
  end.

Fixpoint render_items (depth : nat) (items : list (string * value)) : list string :=
  match items with
  | [] => []
  | (k', VModule c) :: rest => render (S depth) (Some k') c ++ render_items depth rest
  | _ :: rest => render_items depth rest
  end.

End Str.
End Traversal.

(** ** A scope object that is used again: [_call_no_record_scope.__call__] *)

Module ScopeObject.
Import FlagScope.

Section Native.
Context {V : Type}.
Variable is_flag : string -> bool.
Variable accepts : string -> V -> bool.

(** [with self: ret = body], on a scope object that exists already, as in
    [inner] of [_call_no_record_scope.__call__] (there for [body] the call
    of [func]); the body is handed the object, which it may enter again. *)
Definition with_object {A} (self : @flag_scope V)
  (body : @flag_scope V -> @flags V -> outcome A * (@flag_scope V * @flags V))
  (fl : @flags V) : outcome A * (@flag_scope V * @flags V) :=
  match enter is_flag accepts self fl with
  | (Raise e, (self1, fl1)) => (Raise e, (self1, fl1))
  | (Return _, (self1, fl1)) =>
    let '(r, (self2, fl2)) := body self1 fl1 in
    match exit is_flag accepts self2 fl2 with
    | (Return _, fl3) => (r, (self2, fl3))
    | (Raise e, fl3) => (Raise e, (self2, fl3))
    end
  end.

(** A body that does not use the scope object. *)
Definition plain_body {A} (body : @flags V -> outcome A * @flags V)
  : @flag_scope V -> @flags V -> outcome A * (@flag_scope V * @flags V) :=
  fun self fl => let '(r, fl') := body fl in (r, (self, fl')).

(** [with self: with self: body] *)
Definition reentered {A} (self : @flag_scope V)
  (body : @flags V -> outcome A * @flags V) (fl : @flags V)
  : outcome A * (@flag_scope V * @flags V) :=
  with_object self (fun s => with_object s (plain_body body)) fl.

End Native.
End ScopeObject.

(** ** A small network for the examples *)

Module Examples.
Import Vars Tree.

(** No attribute besides those of the instance [__dict__]. *)
Definition no_extra : value -> string -> option value := fun _ _ => None.

(** [fc] is a layer with two parameters. *)
Definition linear : Module :=
  Mod (mkClass "Linear" false) [("weight", VVar 0%nat); ("bias", VVar 1%nat)].

Definition net : Module := Mod (mkClass "Net" false) [("fc", VModule linear)].

Definition zeros : store := fun _ => mkVar "" false (NdArray "float32" [2] [0; 0]).

Definition ones : ndarray := NdArray "float32" [2] [1; 1].

(** For the examples, a native [assign] that stores the data and keeps the
    rest of the [Var], one of those that the assumptions on [assign] admit,
    and [np.int] on the one key segment that the examples have it read. *)
Definition assign_data_only (sigma : store) (p : var_id) (d : ndarray) : store :=
  update sigma p (mkVar (var_name (sigma p)) (var_stop_grad (sigma p)) d).

Definition int_of_segment (k : string) : outcome Z :=
  if String.eqb k "-1" then Return (-1) else Raise ValueError.

(** A heap in which [weight] tracks gradients and [bias] is frozen. *)
Definition frozen_bias : store :=
  fun p => mkVar "" (Nat.eqb p 1) (NdArray "float32" [2] [0; 0]).

End Examples.

(** * Properties *)

Lemma for_each_app {A S} (body : S -> A -> outcome S) xs ys s :
  for_each body (xs ++ ys) s = (let* s' := for_each body xs s in for_each body ys s').
Proof.
  revert s; induction xs as [|x xs IH]; intros s; simpl; [reflexivity|].
  destruct (body s x); simpl; auto.
Qed.

(** ** [flatten] *)

Section FlattenFacts.
Import Flatten.

Lemma range_nil a b : b <= a -> range a b = [].
Proof.
  intros H. unfold range. replace (Z.to_nat (b - a)) with 0%nat by lia. reflexivity.
Qed.

Lemma range_cons a b : a < b -> range a b = a :: range (a + 1) b.
Proof.
  intros H. unfold range.
  replace (Z.to_nat (b - a)) with (S (Z.to_nat (b - (a + 1)))) by lia.
  simpl. f_equal; [lia|].
  rewrite <- seq_shift, map_map. apply map_ext. intros i. lia.
Qed.

Lemma map_seq_offset {A} (f : nat -> A) p k q :
  map f (seq (p + k) q) = map (fun i => f (p + i)%nat) (seq k q).
Proof.
  revert k. induction q as [|q IH]; intros k; simpl; [reflexivity|].
  f_equal. rewrite <- IH. f_equal. f_equal. lia.
Qed.

Lemma range_split a b c : a <= b -> b <= c -> range a c = range a b ++ range b c.
Proof.
  intros Hab Hbc. unfold range.
  replace (Z.to_nat (c - a)) with (Z.to_nat (b - a) + Z.to_nat (c - b))%nat by lia.
  rewrite seq_app, map_app. f_equal. simpl.
  rewrite <- (Nat.add_0_r (Z.to_nat (b - a))), map_seq_offset.
  apply map_ext. intros i. lia.
Qed.

Lemma getitem_in_range shape i :
  0 <= i < Z.of_nat (length shape) ->
  exists d, nth_error shape (Z.to_nat i) = Some d /\ getitem shape i = Return d.
Proof.
  intros Hi. unfold getitem.
  destruct (Z.ltb_spec i 0) as [Hneg|_]; [lia|].
  destruct (Z.leb_spec 0 i) as [_|Hneg]; [|lia].
  destruct (Z.ltb_spec i (Z.of_nat (length shape))) as [_|Hbig]; [|lia]. simpl.
  destruct (nth_error shape (Z.to_nat i)) as [d|] eqn:Hd; [eauto|].
  apply nth_error_None in Hd. lia.
Qed.

Lemma getitem_at_len shape : getitem shape (Z.of_nat (length shape)) = Raise IndexError.
Proof.
  unfold getitem.
  destruct (Z.ltb_spec (Z.of_nat (length shape)) 0) as [Hneg|_]; [lia|].
  rewrite Z.ltb_irrefl, andb_false_r. reflexivity.
Qed.

Lemma slice_cons a b shape d :
  0 <= a < b -> nth_error shape (Z.to_nat a) = Some d ->
  slice a b shape = d :: slice (a + 1) b shape.
Proof.
  intros Hab Hd. unfold slice.
  replace (Z.to_nat (b - a)) with (S (Z.to_nat (b - (a + 1)))) by lia.
  replace (Z.to_nat (a + 1)) with (S (Z.to_nat a)) by lia.
  revert Hd. generalize (Z.to_nat a) as k. intros k. revert shape.
  induction k as [|k IH]; intros [|x shape] Hd; simpl in *; try discriminate.
  - injection Hd as ->. reflexivity.
  - apply IH, Hd.
Qed.

Lemma slice_empty a shape : slice a a shape = [].
Proof. unfold slice. rewrite Z.sub_diag. reflexivity. Qed.

Lemma collect_dims shape (m : nat) : forall a b acc,
  Z.to_nat (b - a) = m -> 0 <= a -> b <= Z.of_nat (length shape) ->
  for_each (fun out i => let* d := getitem shape i in Return (out ++ [d]))
           (range a b) acc
  = Return (acc ++ slice a b shape).
Proof.
  induction m as [|m IH]; intros a b acc Hm Ha Hb.
  - rewrite range_nil by lia.
    destruct (Z.eq_dec a b) as [->|Hne].
    + rewrite slice_empty, app_nil_r. reflexivity.
    + unfold slice. replace (Z.to_nat (b - a)) with 0%nat by lia.
      simpl. rewrite app_nil_r. reflexivity.
  - rewrite range_cons by lia. simpl.
    destruct (getitem_in_range shape a) as (d & Hd & ->); [lia|]. simpl.
    rewrite (IH (a + 1) b) by lia.
    rewrite (slice_cons a b shape d) by (auto; lia).
    rewrite <- app_assoc. reflexivity.
Qed.

Lemma multiply_dims shape (m : nat) : forall a b acc,
  Z.to_nat (b - a) = m -> 0 <= a -> b <= Z.of_nat (length shape) ->
  for_each (fun dims i => let* d := getitem shape i in Return (dims * d))
           (range a b) acc
  = Return (acc * numel (slice a b shape)).
Proof.
  induction m as [|m IH]; intros a b acc Hm Ha Hb.
  - rewrite range_nil by lia.
    unfold slice. replace (Z.to_nat (b - a)) with 0%nat by lia.
    simpl. f_equal. lia.
  - rewrite range_cons by lia. simpl.
    destruct (getitem_in_range shape a) as (d & Hd & ->); [lia|]. simpl.
    rewrite (IH (a + 1) b) by lia.
    rewrite (slice_cons a b shape d) by (auto; lia).
    simpl. f_equal. lia.
Qed.

Lemma numel_app xs ys : numel (xs ++ ys) = numel xs * numel ys.
Proof.
  unfold numel. induction xs as [|x xs IH]; simpl.
  - destruct (fold_right Z.mul 1 ys); reflexivity.
  - rewrite IH. lia.
Qed.

Lemma slice_whole shape a b c :
  0 <= a <= b -> b <= c ->
  slice a c shape = slice a b shape ++ slice b c shape.
Proof.
  intros Hab Hbc. unfold slice.
  replace (Z.to_nat (c - a)) with (Z.to_nat (b - a) + Z.to_nat (c - b))%nat by lia.
  replace (Z.to_nat b) with (Z.to_nat (b - a) + Z.to_nat a)%nat by lia.
  rewrite <- skipn_skipn.
  generalize (skipn (Z.to_nat a) shape) as l.
  generalize (Z.to_nat (c - b)) as q.
  induction (Z.to_nat (b - a)) as [|p IH]; intros q l; simpl; [reflexivity|].
  destruct l as [|x l]; simpl.
  - rewrite firstn_nil. reflexivity.
  - f_equal. apply IH.
Qed.

Lemma slice_all shape : slice 0 (Z.of_nat (length shape)) shape = shape.
Proof.
  unfold slice. simpl. rewrite Z.sub_0_r, Nat2Z.id. apply firstn_all.
Qed.

Lemma flatten_assert in_shape start_dim end_dim :
  let ndim := Z.of_nat (length in_shape) in
  normalize ndim end_dim <= normalize ndim start_dim ->
  flatten in_shape start_dim end_dim = Raise (AssertionError assert_msg).
Proof.
  intros ndim H. unfold flatten. fold ndim.
  destruct (Z.gtb_spec (normalize ndim end_dim) (normalize ndim start_dim)); [lia|].
  reflexivity.
Qed.

Lemma flatten_in_range in_shape start_dim end_dim :
  let ndim := Z.of_nat (length in_shape) in
  let s := normalize ndim start_dim in
  let e := normalize ndim end_dim in
  0 <= s -> s < e -> e < ndim ->
  flatten in_shape start_dim end_dim
  = Return (slice 0 s in_shape ++ [numel (slice s (e + 1) in_shape)]
            ++ slice (e + 1) ndim in_shape).
Proof.
  intros ndim s e Hs Hse He. unfold flatten. fold ndim. fold s. fold e.
  destruct (Z.gtb_spec e s); [|lia]. simpl.
  rewrite (collect_dims in_shape _ 0 s [] eq_refl) by (subst ndim; lia). cbn [bind app].
  rewrite (multiply_dims in_shape _ s (e + 1) 1 eq_refl) by (subst ndim; lia). cbn [bind app].
  rewrite (collect_dims in_shape _ (e + 1) ndim _ eq_refl) by (subst ndim; lia). cbn [bind app].
  unfold reshape.
  rewrite Z.mul_1_l.
  replace (numel in_shape =? _) with true; [rewrite <- app_assoc; reflexivity|].
  symmetry. apply Z.eqb_eq.
  rewrite <- (slice_all in_shape) at 1. fold ndim.
  rewrite (slice_whole in_shape 0 s ndim), (slice_whole in_shape s (e + 1) ndim) by lia.
  rewrite <- app_assoc, !numel_app. f_equal. f_equal.
  unfold numel at 2. cbn [fold_right]. lia.
Qed.

Lemma flatten_index_error in_shape start_dim end_dim :
  let ndim := Z.of_nat (length in_shape) in
  let s := normalize ndim start_dim in
  let e := normalize ndim end_dim in
  0 <= s -> s < e -> ndim <= e ->
  flatten in_shape start_dim end_dim = Raise IndexError.
Proof.
  intros ndim s e Hs Hse He. unfold flatten. fold ndim. fold s. fold e.
  destruct (Z.gtb_spec e s); [|lia]. simpl.
  destruct (Z_le_gt_dec s ndim) as [Hle|Hgt].
  - rewrite (collect_dims in_shape _ 0 s [] eq_refl) by (subst ndim; lia). cbn [bind app].
    rewrite (range_split s ndim (e + 1)), for_each_app by lia.
    rewrite (multiply_dims in_shape _ s ndim 1 eq_refl) by (subst ndim; lia). cbn [bind app].
    rewrite (range_cons ndim) by lia. simpl.
    unfold ndim at 1. rewrite getitem_at_len. reflexivity.
  - rewrite (range_split 0 ndim s), for_each_app by lia.
    rewrite (collect_dims in_shape _ 0 ndim [] eq_refl) by (subst ndim; lia). cbn [bind app].
    rewrite (range_cons ndim) by lia. simpl.
    unfold ndim at 1. rewrite getitem_at_len. reflexivity.
Qed.

(** C10, as stated, fails: with [in_shape = [2; 3]], [start_dim = 0] and
    [end_dim = 5] the stated precondition [end_dim > start_dim] holds after
    normalisation, yet no shape is returned: indexing [in_shape[2]] raises
    [IndexError]. *)
Lemma flatten_end_dim_out_of_range :
  normalize 2 5 > normalize 2 0 /\
  flatten [2; 3] 0 5 = Raise IndexError /\
  forall out_shape, flatten [2; 3] 0 5 <> Return out_shape.
Proof.
  split; [reflexivity|]. split; [reflexivity|].
  intros out_shape. vm_compute. discriminate.
Qed.

(** C10 (amended): [flatten(input, start_dim, end_dim)] first normalises a
    negative [start_dim] / [end_dim] by adding the number of dimensions, then
    asserts that [end_dim] is strictly greater than [start_dim]; so
    flattening a single dimension, including the default call on a 1-D
    tensor, fails with the assertion.  When moreover
    [0 <= start_dim < end_dim < ndim] after normalisation, the shape of the
    result is the dimensions before [start_dim], then the product of the
    dimensions [start_dim .. end_dim], then the dimensions after [end_dim];
    when [0 <= start_dim < end_dim] but [end_dim >= ndim], indexing the
    shape raises [IndexError]. *)
Theorem flatten_shape_spec (in_shape : list Z) (start_dim end_dim : Z) :
  let ndim := Z.of_nat (length in_shape) in
  let s := normalize ndim start_dim in
  let e := normalize ndim end_dim in
  (e <= s ->
   flatten in_shape start_dim end_dim = Raise (AssertionError assert_msg)) /\
  (ndim = 1 ->
   flatten_default in_shape = Raise (AssertionError assert_msg)) /\
  (0 <= s -> s < e -> e < ndim ->
   flatten in_shape start_dim end_dim
   = Return (firstn (Z.to_nat s) in_shape
             ++ [numel (slice s (e + 1) in_shape)]
             ++ skipn (Z.to_nat (e + 1)) in_shape)) /\
  (0 <= s -> s < e -> ndim <= e ->
   flatten in_shape start_dim end_dim = Raise IndexError).
Proof.
  intros ndim s e. repeat split.
  - apply flatten_assert.
  - intros H1. apply flatten_assert. fold ndim. rewrite H1. discriminate.
  - intros Hs Hse He.
    rewrite (flatten_in_range in_shape start_dim end_dim Hs Hse He).
    fold ndim s e. f_equal. f_equal.
    + unfold slice. rewrite Z.sub_0_r. reflexivity.
    + f_equal. unfold slice, ndim.
      apply firstn_all2. rewrite length_skipn. lia.
  - apply flatten_index_error.
Qed.

Lemma flatten_shape_spec_witness :
  flatten [4] 0 0 = Raise (AssertionError assert_msg) /\
  flatten_default [4] = Raise (AssertionError assert_msg) /\
  flatten [2; 3; 4] 1 (-1) = Return [2; 12] /\
  flatten [2; 3; 4] 0 3 = Raise IndexError.
Proof.
  split; [|split; [|split]].
  - apply (proj1 (flatten_shape_spec [4] 0 0)). unfold normalize; simpl; lia.
  - apply (proj1 (proj2 (flatten_shape_spec [4] 0 0))). reflexivity.
  - apply (proj1 (proj2 (proj2 (flatten_shape_spec [2; 3; 4] 1 (-1)))));
      unfold normalize; simpl; lia.
  - apply (proj2 (proj2 (proj2 (flatten_shape_spec [2; 3; 4] 0 3))));
      unfold normalize; simpl; lia.
Defined.

End FlattenFacts.

(** ** The [Module] tree: traversal *)

Section TreeFacts.
Import Vars Tree.

Lemma count_nodes_eq cls dict :
  count_nodes (Mod cls dict) = S (count_nodes_items dict).
Proof. reflexivity. Qed.

Lemma walk_eq cls dict : walk (Mod cls dict) = Mod cls dict :: walk_items dict.
Proof. reflexivity. Qed.

Lemma count_nodes_child k c dict :
  In (k, VModule c) dict -> (count_nodes c <= count_nodes_items dict)%nat.
Proof.
  induction dict as [|[k' v] rest IH]; intros Hin; [destruct Hin|].
  destruct Hin as [Heq|Hin].
  - injection Heq as -> ->. simpl. lia.
  - specialize (IH Hin). simpl. destruct v; lia.
Qed.

(** Induction on the tree: a property holds of a node when it holds of its
    [Module]-valued attributes. *)
Lemma Module_tree_ind (P : Module -> Prop) :
  (forall cls dict, (forall k c, In (k, VModule c) dict -> P c) -> P (Mod cls dict)) ->
  forall m, P m.
Proof.
  intros Hstep m.
  remember (count_nodes m) as n eqn:Hn.
  revert m Hn. induction n as [n IH] using lt_wf_ind. intros [cls dict] Hn.
  apply Hstep. intros k c Hin.
  apply (IH (count_nodes c)); [|reflexivity].
  rewrite Hn, count_nodes_eq. pose proof (count_nodes_child k c dict Hin). lia.
Qed.

Lemma modules_dfs_items self items :
  (forall k c, In (k, VModule c) items ->
     forall parents k' ms,
       dfs modules_callback None c parents k' ms = ms ++ walk c) ->
  forall parents k ms,
    fst (dfs_items (dfs modules_callback None) self parents items k ms)
    = ms ++ walk_items items.
Proof.
  induction items as [|[k' v] rest IH]; intros Hch parents k ms; simpl.
  - rewrite app_nil_r. reflexivity.
  - assert (Hrest : forall k c, In (k, VModule c) rest ->
               forall parents k' ms,
                 dfs modules_callback None c parents k' ms = ms ++ walk c)
      by (intros; apply (Hch k0); right; assumption).
    destruct v; try (apply IH; assumption).
    rewrite IH by assumption.
    rewrite (Hch k' m) by (left; reflexivity).
    rewrite app_assoc. reflexivity.
Qed.

Lemma modules_dfs m : forall parents k ms,
  dfs modules_callback None m parents k ms = ms ++ walk m.
Proof.
  induction m as [cls dict IH] using Module_tree_ind. intros parents k ms.
  rewrite walk_eq. simpl.
  pose proof (modules_dfs_items (Mod cls dict) dict IH parents k (ms ++ [Mod cls dict])) as H.
  destruct (dfs_items _ _ _ _ _ _) as [s2 k2]. simpl in H. rewrite H.
  rewrite <- app_assoc. reflexivity.
Qed.

Lemma modules_walk m : modules m = walk m.
Proof. apply (modules_dfs m [] None []). Qed.

Lemma length_walk m : length (walk m) = count_nodes m.
Proof.
  induction m as [cls dict IH] using Module_tree_ind.
  rewrite walk_eq, count_nodes_eq. simpl. f_equal.
  induction dict as [|[k v] rest IHd]; [reflexivity|].
  assert (Hrest : forall k c, In (k, VModule c) rest -> length (walk c) = count_nodes c)
    by (intros; apply (IH k0); right; assumption).
  destruct v; simpl; try (apply IHd; assumption).
  rewrite length_app, IHd by assumption.
  rewrite (IH k m) by (left; reflexivity). reflexivity.
Qed.

Lemma walk_items_child k c items :
  In (k, VModule c) items -> forall x, In x (walk c) -> In x (walk_items items).
Proof.
  induction items as [|[k' v] rest IH]; intros Hin x Hx; [destruct Hin|].
  destruct Hin as [Heq|Hin].
  - injection Heq as -> ->. simpl. apply in_or_app. left. assumption.
  - specialize (IH Hin x Hx). destruct v; simpl; auto.
    apply in_or_app. right. assumption.
Qed.

Lemma node_in_walk x m : node x m -> In x (walk m).
Proof.
  induction 1 as [|cls dict k c Hin Hnode IH].
  - destruct x as [cls dict]. rewrite walk_eq. left. reflexivity.
  - rewrite walk_eq. right. apply (walk_items_child k c); assumption.
Qed.

Lemma walk_items_node items x :
  In x (walk_items items) ->
  exists k c, In (k, VModule c) items /\ In x (walk c).
Proof.
  induction items as [|[k' v] rest IH]; intros Hx; [destruct Hx|].
  destruct v; simpl in Hx;
    try (destruct (IH Hx) as (k & c & Hin & Hc); exists k, c; split; [right|]; assumption).
  apply in_app_or in Hx. destruct Hx as [Hx|Hx].
  - exists k', m. split; [left; reflexivity|assumption].
  - destruct (IH Hx) as (k & c & Hin & Hc). exists k, c. split; [right|]; assumption.
Qed.

Lemma walk_in_node m : forall x, In x (walk m) -> node x m.
Proof.
  induction m as [cls dict IH] using Module_tree_ind. intros x Hx.
  rewrite walk_eq in Hx. destruct Hx as [<-|Hx]; [constructor|].
  destruct (walk_items_node dict x Hx) as (k & c & Hin & Hc).
  apply (node_below x cls dict k c Hin). apply (IH k c Hin x Hc).
Qed.

(** *** The calls made by [dfs] *)

Lemma dfs_unfold {S : Type} (callback : list Module -> option string -> Module -> nat -> S -> S * ret)
  callback_leave cls dict parents k (s : S) :
  dfs callback callback_leave (Mod cls dict) parents k s =
  let self := Mod cls dict in
  let n_children := count_modules dict in
  let '(s1, r) := callback parents k self n_children s in
  if eq_False r then s1
  else
    let '(s2, k2) := dfs_items (dfs callback callback_leave) self parents dict k s1 in
    match callback_leave with
    | Some leave => leave parents k2 self n_children s2
    | None => s2
    end.
Proof. reflexivity. Qed.

Lemma dfs_record_items decide self items :
  (forall k c, In (k, VModule c) items ->
     forall parents k' log,
       dfs (record_enter decide) (Some record_leave) c parents k' log
       = log ++ dfs_trace decide c parents k') ->
  forall parents k log,
    dfs_items (dfs (record_enter decide) (Some record_leave)) self parents items k log
    = (log ++ children_trace decide self parents items, key_after_loop items k).
Proof.
  induction items as [|[k' v] rest IH]; intros Hch parents k log; simpl.
  - rewrite app_nil_r. reflexivity.
  - assert (Hrest : forall k c, In (k, VModule c) rest ->
               forall parents k' log,
                 dfs (record_enter decide) (Some record_leave) c parents k' log
                 = log ++ dfs_trace decide c parents k')
      by (intros; apply (Hch k0); right; assumption).
    destruct v; try (apply IH; assumption).
    rewrite IH by assumption.
    rewrite (Hch k' m) by (left; reflexivity).
    rewrite app_assoc. reflexivity.
Qed.

Lemma dfs_record_append decide m : forall parents k log,
  dfs (record_enter decide) (Some record_leave) m parents k log
  = log ++ dfs_trace decide m parents k.
Proof.
  induction m as [cls dict IH] using Module_tree_ind. intros parents k log.
  unfold dfs_trace. rewrite !dfs_unfold. cbv zeta.
  unfold record_enter at 1 3. cbv beta iota.
  destruct (eq_False (decide parents k (Mod cls dict) (count_modules dict))).
  - reflexivity.
  - rewrite !(dfs_record_items decide (Mod cls dict) dict IH).
    unfold record_leave. cbv beta iota. rewrite <- !app_assoc. reflexivity.
Qed.

Lemma dfs_trace_eq decide cls dict parents k :
  let self := Mod cls dict in
  let n := count_modules dict in
  dfs_trace decide self parents k
  = Enter parents k self n ::
    (if eq_False (decide parents k self n) then []
     else children_trace decide self parents dict
          ++ [Leave parents (key_after_loop dict k) self n]).
Proof.
  intros self n. unfold dfs_trace. subst self. rewrite dfs_unfold. cbv zeta.
  unfold record_enter at 1. cbv beta iota.
  fold n. destruct (eq_False (decide parents k (Mod cls dict) n)); [reflexivity|].
  rewrite (dfs_record_items decide (Mod cls dict) dict).
  - reflexivity.
  - intros k0 c _. apply dfs_record_append.
Qed.

Lemma dfs_enter_only_items decide self items :
  (forall k c, In (k, VModule c) items ->
     forall parents k' log,
       dfs (record_enter decide) None c parents k' log
       = log ++ List.filter not_leave (dfs_trace decide c parents k')) ->
  forall parents k log,
    dfs_items (dfs (record_enter decide) None) self parents items k log
    = (log ++ List.filter not_leave (children_trace decide self parents items),
       key_after_loop items k).
Proof.
  induction items as [|[k' v] rest IH]; intros Hch parents k log; simpl.
  - rewrite app_nil_r. reflexivity.
  - assert (Hrest : forall k c, In (k, VModule c) rest ->
               forall parents k' log,
                 dfs (record_enter decide) None c parents k' log
                 = log ++ List.filter not_leave (dfs_trace decide c parents k'))
      by (intros; apply (Hch k0); right; assumption).
    destruct v; try (apply IH; assumption).
    rewrite IH by assumption.
    rewrite (Hch k' m) by (left; reflexivity).
    rewrite List.filter_app, app_assoc. reflexivity.
Qed.

Lemma dfs_enter_only decide m : forall parents k log,
  dfs (record_enter decide) None m parents k log
  = log ++ List.filter not_leave (dfs_trace decide m parents k).
Proof.
  induction m as [cls dict IH] using Module_tree_ind. intros parents k log.
  rewrite dfs_unfold, dfs_trace_eq. cbv zeta.
  unfold record_enter at 1. cbv beta iota.
  destruct (eq_False (decide parents k (Mod cls dict) (count_modules dict))).
  - reflexivity.
  - rewrite (dfs_enter_only_items decide (Mod cls dict) dict IH).
    simpl. rewrite List.filter_app. simpl.
    rewrite app_nil_r, <- app_assoc. reflexivity.
Qed.

(** The key that [callback_leave] receives is the one left in [k] by the
    loop over [__dict__], not the key of the node: here the root, whose key
    is [None], is left with the name of its last attribute. *)
Example dfs_leave_key_rebound :
  let root := Mod (mkClass "Net" false) [("w", VVar 0%nat)] in
  dfs_trace (fun _ _ _ _ => RetNone) root [] None
  = [Enter [] None root 0; Leave [] (Some "w") root 0].
Proof. reflexivity. Qed.

(** C3, as stated, fails: when the enter callback answers [False] on a
    node, [dfs] returns at once, so that the leave callback, although
    provided, is not invoked for that node: the only call recorded is the
    enter call. *)
Lemma dfs_stop_skips_leave :
  let leaf := Mod (mkClass "Leaf" false) [] in
  let decide : visit := fun _ _ _ _ => RetBool false in
  eq_False (decide [] None leaf 0%nat) = true /\
  dfs_trace decide leaf [] None = [Enter [] None leaf 0] /\
  ~ In (Leave [] None leaf 0) (dfs_trace decide leaf [] None).
Proof.
  split; [reflexivity|]. split; [reflexivity|].
  intros [H|[]]. discriminate H.
Qed.

(** C3 (amended): on every node that [dfs] visits, the enter callback is
    invoked first, with [(parents, k, node, n_children)].  When it answers
    the stop sentinel (a value equal to [False]), the descendants of the
    node are not traversed and the leave callback is not invoked for it.
    Otherwise the [Module]-valued attributes are traversed in order, each
    with the node pushed on the path, and then the leave callback, when
    provided, is invoked with the path, the node and [n_children]. *)
Theorem dfs_enter_leave_spec (decide : visit) (self : Module)
  (parents : list Module) (k : option string) :
  let n := count_modules (dict_of self) in
  (eq_False (decide parents k self n) = true ->
   dfs_trace decide self parents k = [Enter parents k self n] /\
   dfs (record_enter decide) None self parents k [] = [Enter parents k self n]) /\
  (eq_False (decide parents k self n) = false ->
   (exists k_leave,
      dfs_trace decide self parents k
      = Enter parents k self n
        :: children_trace decide self parents (dict_of self)
        ++ [Leave parents k_leave self n]) /\
   dfs (record_enter decide) None self parents k []
   = List.filter not_leave (dfs_trace decide self parents k)).
Proof.
  destruct self as [cls dict]. intros n. simpl dict_of in *.
  rewrite (dfs_enter_only decide (Mod cls dict) parents k []).
  rewrite dfs_trace_eq. cbv zeta. fold n. simpl app.
  split; intros ->.
  - split; reflexivity.
  - split; [|reflexivity].
    exists (key_after_loop dict k). reflexivity.
Qed.

Lemma dfs_enter_leave_spec_witness :
  let leaf := Mod (mkClass "Linear" false) [("weight", VVar 0%nat)] in
  let root := Mod (mkClass "Net" false) [("fc", VModule leaf)] in
  let decide : visit :=
    fun parents _ _ _ => if Nat.eqb (length parents) 1 then RetBool false else RetNone in
  dfs_trace decide leaf [root] (Some "fc") = [Enter [root] (Some "fc") leaf 0] /\
  exists k_leave,
    dfs_trace decide root [] None
    = [Enter [] None root 1; Enter [root] (Some "fc") leaf 0; Leave [] k_leave root 1].
Proof.
  intros leaf root decide. split.
  - apply (proj1 (dfs_enter_leave_spec decide leaf [root] (Some "fc"))). reflexivity.
  - destruct (proj2 (dfs_enter_leave_spec decide root [] None) eq_refl)
      as [[k_leave H] _].
    exists k_leave. rewrite H. reflexivity.
Defined.

(** C7: [modules()] returns a flat sequence that holds every node of the
    tree, the root included (first, and nothing but nodes of the tree), and
    its length is the number of nodes that the manual recursive walk over
    the [Module]-valued attributes visits. *)
Theorem modules_all_nodes (m : Module) :
  (forall x, node x m <-> In x (modules m)) /\
  hd_error (modules m) = Some m /\
  length (modules m) = count_nodes m.
Proof.
  rewrite modules_walk. split; [|split].
  - intros x. split; [apply node_in_walk|apply walk_in_node].
  - destruct m as [cls dict]. reflexivity.
  - apply length_walk.
Qed.

(** *** [parameters] is the manual pre-order walk *)

Lemma name_all_app l1 l2 sigma :
  name_all (l1 ++ l2) sigma = name_all l2 (name_all l1 sigma).
Proof. unfold name_all. apply fold_left_app. Qed.

Lemma named_params_eq prefix cls dict :
  named_params prefix (Mod cls dict)
  = own_vars prefix dict ++ named_params_items prefix dict.
Proof.
  simpl. f_equal.
  induction dict as [|[k v] rest IH]; [reflexivity|].
  destruct v; simpl; rewrite ?IH; reflexivity.
Qed.

Lemma collect_vars_spec stack items : forall ps sigma,
  collect_vars stack items ps sigma
  = (ps ++ map snd (own_vars (tl stack) items),
     name_all (own_vars (tl stack) items) sigma).
Proof.
  induction items as [|[k2 v] rest IH]; intros ps sigma; simpl.
  - rewrite app_nil_r. reflexivity.
  - destruct v; try apply IH.
    rewrite IH. simpl. rewrite <- app_assoc. reflexivity.
Qed.

Lemma parameters_dfs_items self items stack :
  stack <> [] ->
  (forall k c, In (k, VModule c) items ->
     forall parents k' ps stack sigma,
       dfs parameters_callback (Some parameters_leave) c parents k' (ps, stack, sigma)
       = (ps ++ map snd (named_params (tl (stack ++ [str_key k'])) c), stack,
          name_all (named_params (tl (stack ++ [str_key k'])) c) sigma)) ->
  forall parents k ps sigma,
    dfs_items (dfs parameters_callback (Some parameters_leave)) self parents items k
              (ps, stack, sigma)
    = ((ps ++ map snd (named_params_items (tl stack) items), stack,
        name_all (named_params_items (tl stack) items) sigma),
       key_after_loop items k).
Proof.
  intros Hstack.
  induction items as [|[k' v] rest IH]; intros Hch parents k ps sigma; simpl.
  - rewrite app_nil_r. reflexivity.
  - assert (Hrest : forall k c, In (k, VModule c) rest ->
      forall parents k' ps stack sigma,
       dfs parameters_callback (Some parameters_leave) c parents k' (ps, stack, sigma)
       = (ps ++ map snd (named_params (tl (stack ++ [str_key k'])) c), stack,
          name_all (named_params (tl (stack ++ [str_key k'])) c) sigma))
      by (intros; apply (Hch k0); right; assumption).
    destruct v; try (apply IH; assumption).
    rewrite (Hch k' m) by (left; reflexivity).
    rewrite IH by assumption. simpl.
    replace (tl (stack ++ [k'])) with (tl stack ++ [k'])
      by (destruct stack; [congruence|reflexivity]).
    rewrite map_app, name_all_app, <- app_assoc. reflexivity.
Qed.

Lemma parameters_dfs m : forall parents k ps stack sigma,
  dfs parameters_callback (Some parameters_leave) m parents k (ps, stack, sigma)
  = (ps ++ map snd (named_params (tl (stack ++ [str_key k])) m), stack,
     name_all (named_params (tl (stack ++ [str_key k])) m) sigma).
Proof.
  induction m as [cls dict IH] using Module_tree_ind.
  intros parents k ps stack sigma.
  rewrite dfs_unfold. cbv zeta. unfold parameters_callback at 1. cbv beta iota.
  rewrite collect_vars_spec. simpl dict_of. cbv beta iota. simpl eq_False. cbv iota.
  rewrite (parameters_dfs_items (Mod cls dict) dict (stack ++ [str_key k])).
  - unfold parameters_leave. cbv beta iota.
    rewrite removelast_last, named_params_eq, map_app, name_all_app, <- app_assoc.
    reflexivity.
  - destruct stack; discriminate.
  - exact IH.
Qed.

Lemma parameters_spec m sigma :
  parameters m sigma
  = (map snd (named_params [] m), name_all (named_params [] m) sigma).
Proof.
  unfold parameters. rewrite parameters_dfs. reflexivity.
Qed.

End TreeFacts.

(** ** [eval] and [train] *)

Section TrainingFacts.
Import Vars Tree Training.

Lemma is_stop_grad_set_name sigma q name p :
  is_stop_grad (set_name sigma q name) p = is_stop_grad sigma p.
Proof.
  unfold is_stop_grad, set_name, update.
  destruct (Nat.eqb_spec p q) as [->|]; reflexivity.
Qed.

Lemma is_stop_grad_name_all l : forall sigma p,
  is_stop_grad (name_all l sigma) p = is_stop_grad sigma p.
Proof.
  induction l as [|[path q] l IH]; intros sigma p; [reflexivity|].
  unfold name_all in *. simpl. rewrite IH. apply is_stop_grad_set_name.
Qed.

Lemma is_stop_grad_stop_grad sigma q p :
  is_stop_grad (stop_grad sigma q) p
  = if Nat.eqb p q then true else is_stop_grad sigma p.
Proof.
  unfold is_stop_grad, stop_grad, update.
  destruct (Nat.eqb p q); reflexivity.
Qed.

Lemma is_stop_grad_start_grad sigma q p :
  is_stop_grad (start_grad sigma q) p
  = if Nat.eqb p q then false else is_stop_grad sigma p.
Proof.
  unfold start_grad, detach_inplace, swap_with_temp, clone, is_stop_grad,
    stop_grad, update.
  destruct (Nat.eqb p q); reflexivity.
Qed.

(** The loop of [eval]: an identity already in the backup map keeps its
    entry, a parameter met for the first time gets its current state, and
    every parameter ends up with tracking disabled. *)
Lemma eval_loop_spec ps : forall bk sigma p,
  let '(bk', sigma') := fold_left eval_step ps (bk, sigma) in
  bk' !! p = match bk !! p with
             | Some b => Some b
             | None => if in_dec Nat.eq_dec p ps
                       then Some (negb (is_stop_grad sigma p)) else None
             end /\
  is_stop_grad sigma' p
  = if in_dec Nat.eq_dec p ps then true else is_stop_grad sigma p.
Proof.
  induction ps as [|q ps IH]; intros bk sigma p.
  - simpl. destruct (bk !! p); auto.
  - cbn [fold_left].
    change (eval_step (bk, sigma) q)
      with (match bk !! q with
            | None => <[q := negb (is_stop_grad sigma q)]> bk
            | Some _ => bk
            end, stop_grad sigma q).
    set (bk1 := match bk !! q with
                | None => <[q := negb (is_stop_grad sigma q)]> bk
                | Some _ => bk
                end).
    specialize (IH bk1 (stop_grad sigma q) p).
    destruct (fold_left eval_step ps (bk1, stop_grad sigma q)) as [bk' sigma'].
    destruct IH as [IHbk IHsg]. rewrite IHbk, IHsg.
    rewrite is_stop_grad_stop_grad.
    destruct (in_dec Nat.eq_dec p (q :: ps)) as [Hin|Hnin];
      destruct (in_dec Nat.eq_dec p ps) as [Hin'|Hnin'];
      destruct (Nat.eqb_spec p q) as [->|Hne]; subst bk1;
      try (exfalso; simpl in *; intuition congruence).
    + destruct (bk !! q) eqn:Hq; cbn beta iota;
        rewrite ?Hq, ?lookup_insert_eq; split; reflexivity.
    + destruct (bk !! q) eqn:Hq; cbn beta iota;
        rewrite ?lookup_insert_ne by congruence; split; reflexivity.
    + destruct (bk !! q) eqn:Hq; cbn beta iota;
        rewrite ?Hq, ?lookup_insert_eq; split; reflexivity.
    + destruct (bk !! q) eqn:Hq; cbn beta iota;
        rewrite ?lookup_insert_ne by congruence; split; reflexivity.
Qed.

(** The loop of [train]. *)
Lemma train_loop_spec bk ps : forall sigma p,
  is_stop_grad (fold_left (train_step bk) ps sigma) p
  = if in_dec Nat.eq_dec p ps
    then match bk !! p with
         | Some true => false
         | _ => is_stop_grad sigma p
         end
    else is_stop_grad sigma p.
Proof.
  induction ps as [|q ps IH]; intros sigma p; [reflexivity|].
  simpl fold_left. rewrite IH.
  assert (Hstep : is_stop_grad (train_step bk sigma q) p
                  = if Nat.eqb p q
                    then match bk !! p with
                         | Some true => false
                         | _ => is_stop_grad sigma p
                         end
                    else is_stop_grad sigma p).
  { unfold train_step. destruct (Nat.eqb_spec p q) as [->|Hne].
    - destruct (bk !! q) as [[|]|]; rewrite ?is_stop_grad_start_grad, ?Nat.eqb_refl; reflexivity.
    - destruct (bk !! q) as [[|]|]; rewrite ?is_stop_grad_start_grad; try reflexivity.
      destruct (Nat.eqb_spec p q); [contradiction|reflexivity]. }
  rewrite Hstep. clear Hstep.
  destruct (in_dec Nat.eq_dec p (q :: ps)) as [Hin|Hnin];
    destruct (in_dec Nat.eq_dec p ps) as [Hin'|Hnin'];
    destruct (Nat.eqb_spec p q) as [Heq|Hne];
    try (exfalso; simpl in *; intuition congruence); try reflexivity.
  destruct (bk !! p) as [[|]|]; reflexivity.
Qed.

(** *** Writing [is_train] and [backup_grad_state] keeps the parameters *)

Lemma set_is_train_eq b cls dict :
  set_is_train b (Mod cls dict) = Mod cls (set_is_train_items b dict).
Proof.
  simpl. f_equal.
  induction dict as [|[k v] rest IH]; [reflexivity|].
  simpl. rewrite IH. reflexivity.
Qed.

Lemma dict_get_dict_set {A} (d : list (string * A)) k v :
  dict_get (dict_set d k v) k = Some v.
Proof.
  induction d as [|[k' v'] rest IH]; simpl.
  - rewrite String.eqb_refl. reflexivity.
  - destruct (String.eqb k' k) eqn:E; simpl; rewrite E; auto.
Qed.

Lemma dict_set_dict_set {A} (d : list (string * A)) k v v' :
  dict_set (dict_set d k v) k v' = dict_set d k v'.
Proof.
  induction d as [|[k0 v0] rest IH]; simpl.
  - rewrite String.eqb_refl. reflexivity.
  - destruct (String.eqb k0 k) eqn:E; simpl; rewrite E; [reflexivity|].
    rewrite IH. reflexivity.
Qed.

Lemma dict_set_same {A} (d : list (string * A)) k v :
  dict_get d k = Some v -> dict_set d k v = d.
Proof.
  induction d as [|[k0 v0] rest IH]; simpl; [discriminate|].
  destruct (String.eqb k0 k) eqn:E.
  - intros [= ->]. reflexivity.
  - intros H. rewrite IH by assumption. reflexivity.
Qed.

Lemma dict_get_set_is_train_items b dict :
  dict_get (set_is_train_items b dict) "backup_grad_state"
  = option_map (retrain b) (dict_get dict "backup_grad_state").
Proof.
  induction dict as [|[k v] rest IH]; [reflexivity|]. simpl.
  destruct (String.eqb_spec k "is_train") as [->|Hk]; simpl.
  - exact IH.
  - destruct v; simpl; destruct (String.eqb k "backup_grad_state"); auto.
Qed.

Lemma set_is_train_items_dict_set b dict bk :
  set_is_train_items b (dict_set dict "backup_grad_state" (VBackup bk))
  = dict_set (set_is_train_items b dict) "backup_grad_state" (VBackup bk).
Proof.
  induction dict as [|[k v] rest IH]; [reflexivity|]. simpl.
  destruct (String.eqb_spec k "backup_grad_state") as [->|Hk]; simpl.
  - destruct v; reflexivity.
  - rewrite IH.
    destruct (String.eqb k "is_train"); simpl.
    + destruct (String.eqb_spec k "backup_grad_state"); [contradiction|reflexivity].
    + destruct v; simpl;
        destruct (String.eqb_spec k "backup_grad_state"); try contradiction; reflexivity.
Qed.

Lemma own_vars_set_is_train_items pre b b' items :
  own_vars pre (set_is_train_items b items)
  = own_vars pre (set_is_train_items b' items).
Proof.
  induction items as [|[k v] rest IH]; [reflexivity|]. simpl.
  destruct (String.eqb k "is_train"); [exact IH|].
  destruct v; simpl; rewrite ?IH; reflexivity.
Qed.

Lemma named_params_set_is_train b b' m : forall pre,
  named_params pre (set_is_train b m) = named_params pre (set_is_train b' m).
Proof.
  induction m as [cls dict IH] using Module_tree_ind. intros pre.
  rewrite !set_is_train_eq, !named_params_eq.
  rewrite (own_vars_set_is_train_items pre b b'). f_equal.
  induction dict as [|[k v] rest IHd]; [reflexivity|]. simpl.
  assert (Hrest : forall k c, In (k, VModule c) rest ->
            forall pre, named_params pre (set_is_train b c)
                        = named_params pre (set_is_train b' c))
    by (intros; apply (IH k0); right; assumption).
  destruct (String.eqb k "is_train"); [apply IHd; assumption|].
  destruct v; simpl; try (apply IHd; assumption).
  rewrite IHd by assumption.
  rewrite (IH k m) by (left; reflexivity). reflexivity.
Qed.

Lemma set_is_train_twice b b' m :
  set_is_train b (set_is_train b' m) = set_is_train b m.
Proof.
  induction m as [cls dict IH] using Module_tree_ind.
  rewrite !set_is_train_eq. f_equal.
  induction dict as [|[k v] rest IHd]; [reflexivity|]. simpl.
  assert (Hrest : forall k c, In (k, VModule c) rest ->
            set_is_train b (set_is_train b' c) = set_is_train b c)
    by (intros; apply (IH k0); right; assumption).
  rewrite IHd by assumption.
  destruct (String.eqb k "is_train") eqn:E; simpl; [rewrite E; reflexivity|].
  destruct v; simpl; rewrite ?E; try reflexivity.
  rewrite (IH k m) by (left; reflexivity). reflexivity.
Qed.

Lemma own_vars_dict_set pre dict k v :
  plain v = true ->
  match dict_get dict k with Some old => plain old = true | None => True end ->
  own_vars pre (dict_set dict k v) = own_vars pre dict.
Proof.
  intros Hv. induction dict as [|[k0 v0] rest IH]; simpl; intros Hold.
  - destruct v; try discriminate; reflexivity.
  - destruct (String.eqb k0 k).
    + destruct v; try discriminate; destruct v0; try discriminate; reflexivity.
    + destruct v0; simpl; rewrite IH by assumption; reflexivity.
Qed.

Lemma named_params_items_dict_set pre dict k v :
  plain v = true ->
  match dict_get dict k with Some old => plain old = true | None => True end ->
  named_params_items pre (dict_set dict k v) = named_params_items pre dict.
Proof.
  intros Hv. induction dict as [|[k0 v0] rest IH]; simpl; intros Hold.
  - destruct v; try discriminate; reflexivity.
  - destruct (String.eqb k0 k).
    + destruct v; try discriminate; destruct v0; try discriminate; reflexivity.
    + destruct v0; simpl; rewrite IH by assumption; reflexivity.
Qed.

Lemma named_params_setattr pre m k v :
  plain v = true ->
  match dict_get (dict_of m) k with Some old => plain old = true | None => True end ->
  named_params pre (setattr m k v) = named_params pre m.
Proof.
  destruct m as [cls dict]. intros Hv Hold. unfold setattr.
  rewrite !named_params_eq, own_vars_dict_set, named_params_items_dict_set
    by assumption.
  reflexivity.
Qed.

Lemma recorded_backup_cases m bk0 :
  recorded_backup m = Some bk0 ->
  (dict_get (dict_of m) "backup_grad_state" = None /\ bk0 = ∅) \/
  dict_get (dict_of m) "backup_grad_state" = Some (VBackup bk0).
Proof.
  unfold recorded_backup.
  destruct (dict_get (dict_of m) "backup_grad_state") as [v|]; [|intros [= <-]; auto].
  destruct v; try discriminate. intros [= ->]. auto.
Qed.

Lemma dict_get_set_is_train b m bk0 :
  recorded_backup m = Some bk0 ->
  (dict_get (dict_of (set_is_train b m)) "backup_grad_state" = None /\ bk0 = ∅) \/
  dict_get (dict_of (set_is_train b m)) "backup_grad_state" = Some (VBackup bk0).
Proof.
  intros H. destruct m as [cls dict]. rewrite set_is_train_eq. simpl dict_of.
  rewrite dict_get_set_is_train_items.
  destruct (recorded_backup_cases _ _ H) as [[E ->]|E];
    simpl dict_of in E; rewrite E; simpl; auto.
Qed.

Lemma named_params_with_backup b m bk0 bk pre :
  recorded_backup m = Some bk0 ->
  named_params pre (setattr (set_is_train b m) "backup_grad_state" (VBackup bk))
  = named_params pre (set_is_train false m).
Proof.
  intros H. rewrite named_params_setattr.
  - apply named_params_set_is_train.
  - reflexivity.
  - destruct (dict_get_set_is_train b m bk0 H) as [[-> _]| ->]; auto.
Qed.

Lemma eval_spec m sigma bk0 :
  recorded_backup m = Some bk0 ->
  let l := named_params [] (set_is_train false m) in
  let r := fold_left eval_step (map snd l) (bk0, name_all l sigma) in
  eval m sigma
  = Return (setattr (set_is_train false m) "backup_grad_state" (VBackup (fst r)),
            snd r).
Proof.
  intros H l r. unfold eval.
  set (m0 := set_is_train false m) in *.
  assert (Hself : match dict_get (dict_of m0) "backup_grad_state" with
                  | None => setattr m0 "backup_grad_state" (VBackup ∅)
                  | Some _ => m0
                  end = setattr m0 "backup_grad_state" (VBackup bk0)).
  { destruct (dict_get_set_is_train false m bk0 H) as [[E ->]|E];
      fold m0 in E; rewrite E; [reflexivity|].
    destruct m0 as [cls dict]. unfold setattr. simpl in E.
    rewrite dict_set_same by assumption. reflexivity. }
  rewrite Hself. rewrite parameters_spec.
  unfold m0. rewrite (named_params_with_backup false m bk0 bk0 [] H).
  fold m0 l.
  assert (Hbk : backup_grad_state (setattr m0 "backup_grad_state" (VBackup bk0))
                = Return bk0).
  { unfold backup_grad_state. destruct m0 as [cls dict]. simpl.
    rewrite dict_get_dict_set. reflexivity. }
  destruct (map snd l) as [|p ps] eqn:Hps.
  - subst r. simpl. reflexivity.
  - rewrite Hbk. cbn [bind]. fold r. destruct r as [bk' sigma'].
    destruct m0 as [cls dict]. unfold setattr. rewrite dict_set_dict_set. reflexivity.
Qed.

Lemma train_spec m sigma bk0 bk :
  recorded_backup m = Some bk0 ->
  let l := named_params [] (set_is_train false m) in
  train (setattr (set_is_train false m) "backup_grad_state" (VBackup bk)) sigma
  = Return (setattr (set_is_train true m) "backup_grad_state" (VBackup bk),
            fold_left (train_step bk) (map snd l) (name_all l sigma)).
Proof.
  intros H l. unfold train.
  assert (Hself : set_is_train true
                    (setattr (set_is_train false m) "backup_grad_state" (VBackup bk))
                  = setattr (set_is_train true m) "backup_grad_state" (VBackup bk)).
  { rewrite <- (set_is_train_twice true false m).
    destruct (set_is_train false m) as [cls dict]. unfold setattr.
    rewrite !set_is_train_eq, set_is_train_items_dict_set. reflexivity. }
  rewrite Hself.
  assert (Hget : dict_get (dict_of (setattr (set_is_train true m)
                                      "backup_grad_state" (VBackup bk)))
                          "backup_grad_state" = Some (VBackup bk)).
  { destruct (set_is_train true m) as [cls dict]. simpl. apply dict_get_dict_set. }
  rewrite Hget. rewrite parameters_spec.
  rewrite (named_params_with_backup true m bk0 bk [] H). fold l.
  unfold backup_grad_state. rewrite Hget. cbn [bind].
  destruct (map snd l) as [|p ps]; reflexivity.
Qed.

(** C1, as stated, fails.  On a tree with one parameter [w] that tracks
    gradients, run [eval(); train()] once, then freeze [w] with
    [w.stop_grad()], then run [eval(); train()] again: the second [eval]
    finds [id(w)] in the backup map and keeps the entry of the first run,
    so that the second [train] enables tracking on [w], which had it
    disabled before that [eval]. *)
Lemma eval_train_stale_backup :
  let net := Mod (mkClass "Net" false) [("w", VVar 0%nat)] in
  let sigma0 : store := fun _ => mkVar "" false (NdArray "float32" [1] [0]) in
  exists m1 sigma1 m2 sigma2,
    eval_then_train net sigma0 = Return (m1, sigma1) /\
    eval_then_train m1 (stop_grad sigma1 0%nat) = Return (m2, sigma2) /\
    In 0%nat (fst (parameters m1 (stop_grad sigma1 0%nat))) /\
    is_stop_grad (stop_grad sigma1 0%nat) 0%nat = true /\
    is_stop_grad sigma2 0%nat = false.
Proof.
  intros net sigma0. do 4 eexists.
  split; [vm_compute; reflexivity|].
  split; [vm_compute; reflexivity|].
  split; [left; reflexivity|].
  split; reflexivity.
Qed.

(** C1 (amended): [eval()] followed by [train()] returns, and leaves every
    [Var] that is not a parameter of the tree as it was; [eval] disables
    tracking on every parameter, and after [train] a parameter has the
    tracking state that the backup map of the root held for it before this
    [eval], or, when the map had no entry for it, exactly the state it had
    before [eval]: enabled when it was enabled, disabled when it was
    disabled.  In particular the flags are restored exactly on a root
    whose backup map has no entry for the parameters (no backup map yet,
    or an empty one). *)
Theorem eval_train_restores (m : Module) (sigma : store) (bk0 : gmap nat bool) :
  recorded_backup m = Some bk0 ->
  exists m1 sigma1 m2 sigma2,
    eval m sigma = Return (m1, sigma1) /\
    train m1 sigma1 = Return (m2, sigma2) /\
    (forall p, In p (fst (parameters m1 sigma1)) ->
       is_stop_grad sigma1 p = true /\
       is_stop_grad sigma2 p
       = match bk0 !! p with
         | Some b => negb b
         | None => is_stop_grad sigma p
         end) /\
    (forall p, ~ In p (fst (parameters m1 sigma1)) ->
       is_stop_grad sigma2 p = is_stop_grad sigma p) /\
    ((forall p, In p (fst (parameters m1 sigma1)) -> bk0 !! p = None) ->
     forall p, is_stop_grad sigma2 p = is_stop_grad sigma p).
Proof.
  intros H.
  pose proof (eval_spec m sigma bk0 H) as He. cbv zeta in He.
  set (l := named_params [] (set_is_train false m)) in *.
  pose proof (eval_loop_spec (map snd l) bk0 (name_all l sigma)) as Hloop.
  destruct (fold_left eval_step (map snd l) (bk0, name_all l sigma))
    as [bk sigma1] eqn:Hfold.
  simpl fst in He. simpl snd in He.
  pose proof (train_spec m sigma1 bk0 bk H) as Ht. cbv zeta in Ht. fold l in Ht.
  eexists _, _, _, _. split; [exact He|]. split; [exact Ht|].
  assert (Hps : fst (parameters (setattr (set_is_train false m) "backup_grad_state"
                                   (VBackup bk)) sigma1) = map snd l).
  { rewrite parameters_spec. simpl fst.
    rewrite (named_params_with_backup false m bk0 bk [] H). reflexivity. }
  rewrite Hps.
  assert (Hall : forall p,
            is_stop_grad sigma1 p
            = (if in_dec Nat.eq_dec p (map snd l) then true else is_stop_grad sigma p) /\
            is_stop_grad (fold_left (train_step bk) (map snd l) (name_all l sigma1)) p
            = if in_dec Nat.eq_dec p (map snd l)
              then match bk0 !! p with
                   | Some b => negb b
                   | None => is_stop_grad sigma p
                   end
              else is_stop_grad sigma p).
  { intros p. destruct (Hloop p) as [Hbk Hsg].
    rewrite is_stop_grad_name_all in Hbk, Hsg.
    split; [exact Hsg|].
    rewrite train_loop_spec, is_stop_grad_name_all, Hsg, Hbk.
    destruct (in_dec Nat.eq_dec p (map snd l)); [|reflexivity].
    destruct (bk0 !! p) as [[|]|]; try reflexivity.
    destruct (is_stop_grad sigma p); reflexivity. }
  split; [|split].
  - intros p Hin. destruct (Hall p) as [H1 H2]. rewrite H1, H2.
    destruct (in_dec Nat.eq_dec p (map snd l)); [split; reflexivity|contradiction].
  - intros p Hnin. destruct (Hall p) as [_ H2]. rewrite H2.
    destruct (in_dec Nat.eq_dec p (map snd l)); [contradiction|reflexivity].
  - intros Hfresh p. destruct (Hall p) as [_ H2]. rewrite H2.
    destruct (in_dec Nat.eq_dec p (map snd l)) as [Hin|]; [|reflexivity].
    rewrite (Hfresh p Hin). reflexivity.
Qed.

Lemma eval_train_restores_witness :
  exists m2 sigma2,
    eval_then_train Examples.net Examples.frozen_bias = Return (m2, sigma2) /\
    is_stop_grad sigma2 0%nat = false /\
    is_stop_grad sigma2 1%nat = true.
Proof.
  destruct (eval_train_restores Examples.net Examples.frozen_bias ∅ eq_refl)
    as (m1 & sigma1 & m2 & sigma2 & He & Ht & _ & _ & Hfresh).
  exists m2, sigma2. split.
  - unfold eval_then_train. rewrite He. exact Ht.
  - rewrite !Hfresh by (intros; apply lookup_empty). split; reflexivity.
Defined.

End TrainingFacts.

(** ** Checkpoints *)

Section CheckpointFacts.
Import Vars Tree Training Checkpoint.
Variable extra_attr : value -> string -> option value.
Variable np_int : string -> outcome Z.
Variable assign : store -> var_id -> ndarray -> store.

(** What the facts on the data of a [Var] assume of the native [assign]:
    afterwards the [Var] holds the assigned data, and no other [Var] has
    changed.  Nothing is assumed on what becomes of the name and of the
    gradient flag of the [Var]. *)
Hypothesis assign_data : forall sigma p a, var_data (assign sigma p a p) = a.
Hypothesis assign_other : forall sigma p a q, q <> p -> assign sigma p a q = sigma q.

Lemma load_one_loadable self n log sigma entry :
  loadable extra_attr np_int self entry = true ->
  load_one extra_attr np_int assign self (n, log, sigma) entry
  = (Return tt,
     ((if fails extra_attr np_int self entry then S n else n),
      log ++ [entry_msg extra_attr np_int self entry],
      apply_entry extra_attr np_int assign self sigma entry)).
Proof.
  destruct entry as [key x].
  unfold loadable, load_one, fails, entry_msg, apply_entry, target_var, fails.
  simpl fst. simpl snd.
  destruct (resolve extra_attr np_int (VModule self) (split_dot key)) as [[v|]|e];
    try discriminate; [|reflexivity].
  destruct v; try discriminate.
  destruct x; try discriminate; reflexivity.
Qed.

Lemma load_loop_loadable self params : forall n log sigma,
  Forall (fun e => loadable extra_attr np_int self e = true) params ->
  for_each_st (load_one extra_attr np_int assign self) params (n, log, sigma)
  = (Return tt,
     ((n + count_failed extra_attr np_int self params)%nat,
      log ++ map (entry_msg extra_attr np_int self) params,
      apply_all extra_attr np_int assign self params sigma)).
Proof.
  induction params as [|e rest IH]; intros n log sigma Hall.
  - simpl. rewrite Nat.add_0_r, app_nil_r. reflexivity.
  - inversion Hall as [|? ? He Hrest]; subst.
    cbn [for_each_st]. rewrite load_one_loadable by assumption.
    rewrite IH by assumption. unfold count_failed, apply_all. simpl.
    destruct (fails extra_attr np_int self e); simpl;
      rewrite <- app_assoc; repeat f_equal; lia.
Qed.

(** The run of [load_parameters] on a mapping of loadable entries. *)
Lemma load_parameters_run self params log sigma :
  Forall (fun e => loadable extra_attr np_int self e = true) params ->
  load_parameters extra_attr np_int assign self params (log, sigma)
  = (Return tt,
     (log ++ map (entry_msg extra_attr np_int self) params ++ summary extra_attr np_int self params,
      apply_all extra_attr np_int assign self params sigma)).
Proof.
  intros Hall. unfold load_parameters.
  rewrite load_loop_loadable by assumption. simpl Nat.add. unfold summary.
  destruct (count_failed extra_attr np_int self params).
  - rewrite app_nil_r. reflexivity.
  - rewrite app_assoc. reflexivity.
Qed.

Lemma apply_entry_other self sigma e p :
  target_var extra_attr np_int self e <> Some p ->
  apply_entry extra_attr np_int assign self sigma e p = sigma p.
Proof.
  intros H. unfold apply_entry.
  destruct (target_var extra_attr np_int self e) as [q|]; [|reflexivity].
  destruct (payload sigma (snd e)); [|reflexivity].
  apply assign_other. congruence.
Qed.

Lemma apply_entry_target self sigma e p a :
  target_var extra_attr np_int self e = Some p ->
  payload sigma (snd e) = Some a ->
  var_data (apply_entry extra_attr np_int assign self sigma e p) = a.
Proof.
  intros Ht Hp. unfold apply_entry. rewrite Ht, Hp. apply assign_data.
Qed.

Lemma apply_all_other self params : forall sigma p,
  (forall e, In e params -> target_var extra_attr np_int self e <> Some p) ->
  apply_all extra_attr np_int assign self params sigma p = sigma p.
Proof.
  induction params as [|e rest IH]; intros sigma p H; [reflexivity|].
  unfold apply_all in *. simpl. rewrite IH by (intros; apply H; right; assumption).
  apply apply_entry_other. apply H. left. reflexivity.
Qed.

Lemma apply_all_app self xs ys sigma :
  apply_all extra_attr np_int assign self (xs ++ ys) sigma
  = apply_all extra_attr np_int assign self ys (apply_all extra_attr np_int assign self xs sigma).
Proof. unfold apply_all. apply fold_left_app. Qed.

(** The last entry that targets a parameter decides its data. *)
Lemma apply_all_last self before e after sigma p :
  target_var extra_attr np_int self e = Some p ->
  (forall e', In e' after -> target_var extra_attr np_int self e' <> Some p) ->
  apply_all extra_attr np_int assign self (before ++ e :: after) sigma p
  = apply_entry extra_attr np_int assign self (apply_all extra_attr np_int assign self before sigma) e p.
Proof.
  intros Ht Hafter.
  rewrite apply_all_app.
  change (e :: after) with ([e] ++ after). rewrite apply_all_app.
  rewrite apply_all_other by assumption. reflexivity.
Qed.

(** C2 (amended): [load_parameters] completes without raising on every
    mapping in which each key either fails to resolve against the object
    graph or resolves to a parameter (a [Var]) whose stored value is an
    array, a list, a [Var] or a tensor.  In key order, every key that
    fails to resolve is skipped with a warning and every other key is
    reported as loaded; when at least one key failed, a warning with the
    number of keys and the number of failures ends the log.  Every key
    that resolves has its target assigned the stored value: given that the
    native [assign] stores the data in its [Var] and changes no other
    [Var], a [Var] that no key resolves to is untouched, and the data of
    the target of a key is the stored value (the last one, when several
    keys resolve to the same [Var]). *)
Theorem load_parameters_lenient (self : Module) (params : list (string * pvalue))
  (log : list log_entry) (sigma : store) :
  Forall (fun e => loadable extra_attr np_int self e = true) params ->
  exists sigma',
    load_parameters extra_attr np_int assign self params (log, sigma)
    = (Return tt,
       (log ++ map (entry_msg extra_attr np_int self) params
            ++ summary extra_attr np_int self params, sigma')) /\
    (forall p, (forall e, In e params -> target_var extra_attr np_int self e <> Some p) ->
               sigma' p = sigma p) /\
    (forall before key x after p,
       params = before ++ (key, x) :: after ->
       target_var extra_attr np_int self (key, x) = Some p ->
       (forall e, In e after -> target_var extra_attr np_int self e <> Some p) ->
       match x with
       | PArray a | PList a | PTensor a => var_data (sigma' p) = a
       | PVar q =>
         (forall e, In e before -> target_var extra_attr np_int self e <> Some q) ->
         var_data (sigma' p) = var_data (sigma q)
       | POther => False
       end).
Proof.
  intros Hall. exists (apply_all extra_attr np_int assign self params sigma).
  split; [apply load_parameters_run; assumption|].
  split; [intros p; apply apply_all_other|].
  intros before key x after p -> Ht Hafter.
  rewrite apply_all_last by assumption.
  assert (Hload : loadable extra_attr np_int self (key, x) = true).
  { rewrite List.Forall_forall in Hall. apply Hall, in_elt. }
  destruct x as [a|a|q|a|].
  - apply apply_entry_target; [assumption|reflexivity].
  - apply apply_entry_target; [assumption|reflexivity].
  - intros Hq. rewrite (apply_entry_target _ _ _ p _ Ht eq_refl).
    rewrite apply_all_other by assumption. reflexivity.
  - apply apply_entry_target; [assumption|reflexivity].
  - unfold loadable, target_var in *. simpl fst in *. simpl snd in *.
    destruct (resolve extra_attr np_int (VModule self) (split_dot key)) as [[v|]|];
      try discriminate.
    destruct v; discriminate.
Qed.

(** C8: for every path that ends in [".pth"], [load] raises at once the
    [RuntimeError] that asks for pytorch when [import torch] fails; no
    parameter is loaded and nothing is logged. *)
Theorem load_pth_requires_torch
  (torch_load : gmap string file -> string -> outcome (list (string * pvalue)))
  (env : environment) (fs : gmap string file) (self : Module) (path : string)
  (st : list log_entry * store) :
  ends_with path ".pth" = true ->
  torch_installed env = false ->
  load extra_attr np_int assign torch_load env fs self path st
  = (Raise (RuntimeError pth_error), st).
Proof.
  intros Hpth Htorch. unfold load, import_torch. rewrite Hpth, Htorch.
  destruct (has_RTLD_DEEPBIND env); reflexivity.
Qed.

(** *** Names: [".".join] and [split('.')] *)

Lemma split_dot_dot_free a : dot_free a = true -> split_dot a = [a].
Proof.
  induction a as [|c a IH]; [reflexivity|]. simpl.
  destruct (Ascii.eqb c "."); [discriminate|]. simpl.
  intros H. rewrite IH by assumption. reflexivity.
Qed.

Lemma split_dot_append a rest :
  dot_free a = true ->
  split_dot (String.append a (String "." rest)) = a :: split_dot rest.
Proof.
  induction a as [|c a IH]; [reflexivity|]. simpl.
  destruct (Ascii.eqb c "."); [discriminate|]. simpl.
  intros H. rewrite IH by assumption. reflexivity.
Qed.

Lemma split_dot_concat segs :
  segs <> [] -> List.Forall (fun seg => dot_free seg = true) segs ->
  split_dot (String.concat "." segs) = segs.
Proof.
  induction segs as [|a segs IH]; [congruence|]. intros _ Hall.
  inversion Hall as [|? ? Ha Hrest]; subst.
  destruct segs as [|b segs].
  - simpl. apply split_dot_dot_free. assumption.
  - change (String.concat "." (a :: b :: segs))
      with (String.append a (String "." (String.concat "." (b :: segs)))).
    rewrite split_dot_append by assumption.
    rewrite IH by (auto; discriminate). reflexivity.
Qed.

(** *** Resolving the name of a parameter in a fresh copy of the tree *)

Lemma rename_vars_eq f cls dict :
  rename_vars f (Mod cls dict) = Mod cls (rename_vars_items f dict).
Proof.
  simpl. f_equal.
  induction dict as [|[k v] rest IH]; [reflexivity|].
  destruct v; simpl; rewrite IH; reflexivity.
Qed.

Lemma rename_vars_items_cons f k v rest :
  rename_vars_items f ((k, v) :: rest)
  = (k, rename_value f v) :: rename_vars_items f rest.
Proof. destruct v; reflexivity. Qed.

Lemma plain_tree_eq cls dict :
  plain_tree (Mod cls dict)
  = negb (is_sequential cls) && keys_ok dict && plain_tree_items dict.
Proof. reflexivity. Qed.

Lemma keys_ok_dot_free dict k (v : value) :
  keys_ok dict = true -> In (k, v) dict -> dot_free k = true.
Proof.
  induction dict as [|[k0 v0] rest IH]; intros Hok Hin; [destruct Hin|].
  simpl in Hok. apply andb_true_iff in Hok. destruct Hok as [Hok Hrest].
  apply andb_true_iff in Hok. destruct Hok as [Hdot _].
  destruct Hin as [[= <- <-]|Hin]; auto.
Qed.

Lemma keys_ok_dict_get f dict k v :
  keys_ok dict = true -> In (k, v) dict ->
  dict_get (rename_vars_items f dict) k = Some (rename_value f v).
Proof.
  induction dict as [|[k0 v0] rest IH]; intros Hok Hin; [destruct Hin|].
  simpl in Hok. apply andb_true_iff in Hok. destruct Hok as [Hok Hrest].
  apply andb_true_iff in Hok. destruct Hok as [_ Hfresh].
  rewrite rename_vars_items_cons. simpl.
  destruct Hin as [[= <- <-]|Hin].
  - rewrite String.eqb_refl. reflexivity.
  - destruct (String.eqb_spec k0 k) as [->|Hne]; [|apply IH; assumption].
    exfalso. apply negb_true_iff in Hfresh.
    assert (Hex : existsb (fun kv : string * value => String.eqb (fst kv) k) rest = true).
    { apply existsb_exists. exists (k, v). split; [assumption|].
      simpl. apply String.eqb_refl. }
    congruence.
Qed.

Lemma plain_tree_items_child dict k c :
  plain_tree_items dict = true -> In (k, VModule c) dict -> plain_tree c = true.
Proof.
  induction dict as [|[k0 v0] rest IH]; intros Hok Hin; [destruct Hin|].
  destruct Hin as [[= -> ->]|Hin].
  - simpl in Hok. apply andb_true_iff in Hok. tauto.
  - apply IH; [|assumption].
    destruct v0; simpl in Hok; try assumption.
    apply andb_true_iff in Hok. tauto.
Qed.

Lemma own_vars_in pre dict path p :
  In (path, p) (own_vars pre dict) ->
  exists k2, path = pre ++ [k2] /\ In (k2, VVar p) dict.
Proof.
  induction dict as [|[k0 v0] rest IH]; intros Hin; [destruct Hin|].
  destruct v0; simpl in Hin;
    try (destruct (IH Hin) as (k2 & -> & H); exists k2; split; [reflexivity|right; assumption]).
  destruct Hin as [[= <- <-]|Hin].
  - exists k0. split; [reflexivity|left; reflexivity].
  - destruct (IH Hin) as (k2 & -> & H). exists k2. split; [reflexivity|right; assumption].
Qed.

Lemma named_params_items_in pre dict path p :
  In (path, p) (named_params_items pre dict) ->
  exists k c, In (k, VModule c) dict /\ In (path, p) (named_params (pre ++ [k]) c).
Proof.
  induction dict as [|[k0 v0] rest IH]; intros Hin; [destruct Hin|].
  destruct v0; simpl in Hin;
    try (destruct (IH Hin) as (k & c & H & Hc); exists k, c; split; [right|]; assumption).
  apply in_app_or in Hin. destruct Hin as [Hin|Hin].
  - exists k0, m. split; [left; reflexivity|assumption].
  - destruct (IH Hin) as (k & c & H & Hc). exists k, c. split; [right|]; assumption.
Qed.

Lemma resolve_named f m : forall pre path p,
  plain_tree m = true ->
  In (path, p) (named_params pre m) ->
  exists suffix,
    path = pre ++ suffix /\ suffix <> [] /\
    List.Forall (fun seg => dot_free seg = true) suffix /\
    resolve extra_attr np_int (VModule (rename_vars f m)) suffix
    = Return (Some (VVar (f p))).
Proof.
  induction m as [cls dict IH] using Module_tree_ind. intros pre path p Hplain Hin.
  rewrite plain_tree_eq in Hplain.
  apply andb_true_iff in Hplain. destruct Hplain as [Hplain Hitems].
  apply andb_true_iff in Hplain. destruct Hplain as [Hseq Hkeys].
  apply negb_true_iff in Hseq.
  rewrite named_params_eq in Hin. apply in_app_or in Hin.
  rewrite rename_vars_eq.
  destruct Hin as [Hin|Hin].
  - destruct (own_vars_in _ _ _ _ Hin) as (k2 & -> & Hk2).
    exists [k2]. split; [reflexivity|]. split; [discriminate|].
    split; [repeat constructor; apply (keys_ok_dot_free dict k2 (VVar p)); assumption|].
    simpl. rewrite Hseq.
    rewrite (keys_ok_dict_get f dict k2 (VVar p)) by assumption. reflexivity.
  - destruct (named_params_items_in _ _ _ _ Hin) as (k & c & Hk & Hc).
    destruct (IH k c Hk (pre ++ [k]) path p) as (suffix & -> & Hne & Hdf & Hres);
      [apply (plain_tree_items_child dict k c); assumption|assumption|].
    exists (k :: suffix). split; [rewrite <- app_assoc; reflexivity|].
    split; [discriminate|].
    split; [constructor; [apply (keys_ok_dot_free dict k (VModule c)); assumption|assumption]|].
    simpl. rewrite Hseq.
    rewrite (keys_ok_dict_get f dict k (VModule c)) by assumption. exact Hres.
Qed.

(** *** The names and the mapping that [save] writes *)

Lemma var_data_name_all l : forall sigma p,
  var_data (name_all l sigma p) = var_data (sigma p).
Proof.
  induction l as [|[path q] l IH]; intros sigma p; [reflexivity|].
  unfold name_all in *. simpl. rewrite IH.
  unfold set_name, Vars.update. destruct (Nat.eqb_spec p q) as [->|]; reflexivity.
Qed.

Lemma name_all_name l : forall sigma p,
  In p (map snd l) ->
  exists path, In (path, p) l /\
               var_name (name_all l sigma p) = String.concat "." path.
Proof.
  induction l as [|[path' q] l IH] using rev_ind; intros sigma p Hin; [destruct Hin|].
  rewrite name_all_app. unfold name_all at 1. simpl.
  unfold set_name, Vars.update.
  destruct (Nat.eqb_spec p q) as [->|Hne].
  - exists path'. split; [apply in_or_app; right; left; reflexivity|reflexivity].
  - rewrite map_app in Hin. apply in_app_or in Hin.
    destruct Hin as [Hin|[Hin|[]]]; [|simpl in Hin; congruence].
    destruct (IH sigma p Hin) as (path & Hp & Hname).
    exists path. split; [apply in_or_app; left; assumption|assumption].
Qed.

Lemma in_dict_set {A} (d : list (string * A)) k0 v0 k x :
  In (k, x) (dict_set d k0 v0) -> In (k, x) d \/ (k = k0 /\ x = v0).
Proof.
  induction d as [|[k1 v1] rest IH]; simpl.
  - intros [[= <- <-]|[]]. auto.
  - destruct (String.eqb_spec k1 k0) as [->|Hne]; simpl.
    + intros [[= <- <-]|H]; auto.
    + intros [H|H]; auto. destruct (IH H); auto.
Qed.

Lemma dict_set_has_key {A} (d : list (string * A)) k0 v0 :
  exists x, In (k0, x) (dict_set d k0 v0).
Proof.
  induction d as [|[k1 v1] rest IH]; simpl.
  - eexists. left. reflexivity.
  - destruct (String.eqb_spec k1 k0) as [->|Hne].
    + eexists. left. reflexivity.
    + destruct IH as [x Hx]. exists x. right. assumption.
Qed.

Lemma dict_set_keeps_key {A} (d : list (string * A)) k0 v0 k :
  (exists x, In (k, x) d) -> exists x, In (k, x) (dict_set d k0 v0).
Proof.
  induction d as [|[k1 v1] rest IH]; intros [x Hx]; [destruct Hx|]. simpl.
  destruct (String.eqb_spec k1 k0) as [->|Hne].
  - destruct Hx as [[= -> ->]|Hx].
    + eexists. left. reflexivity.
    + exists x. right. assumption.
  - destruct Hx as [[= -> ->]|Hx].
    + eexists. left. reflexivity.
    + destruct IH as [y Hy]; [eauto|]. exists y. right. assumption.
Qed.

Lemma build_params_dict_in sigma ps : forall d k x,
  In (k, x) (build_params_dict sigma ps d) ->
  In (k, x) d \/
  exists p, In p ps /\ k = var_name (sigma p) /\ x = PArray (var_data (sigma p)).
Proof.
  induction ps as [|q ps IH]; intros d k x Hin; [left; assumption|].
  unfold build_params_dict in *. simpl in Hin.
  destruct (IH _ _ _ Hin) as [H|(p & Hp & Hk & Hx)].
  - destruct (in_dict_set _ _ _ _ _ H) as [H'|[-> ->]]; [left; assumption|].
    right. exists q. split; [left; reflexivity|split; reflexivity].
  - right. exists p. split; [right; assumption|split; assumption].
Qed.

Lemma build_params_dict_keeps_key sigma ps : forall d k,
  (exists x, In (k, x) d) -> exists x, In (k, x) (build_params_dict sigma ps d).
Proof.
  induction ps as [|q ps IH]; intros d k H; [assumption|].
  unfold build_params_dict in *. simpl. apply IH. apply dict_set_keeps_key. assumption.
Qed.

Lemma build_params_dict_has_key sigma ps : forall d p,
  In p ps -> exists x, In (var_name (sigma p), x) (build_params_dict sigma ps d).
Proof.
  induction ps as [|q ps IH]; intros d p Hin; [destruct Hin|].
  destruct Hin as [->|Hin].
  - unfold build_params_dict. simpl.
    apply (build_params_dict_keeps_key sigma ps). apply dict_set_has_key.
  - unfold build_params_dict in *. simpl. apply IH. assumption.
Qed.

(** When every entry that targets a parameter holds the same array, and
    there is one, the parameter ends up with that array. *)
Lemma apply_all_uniform self params q a : forall tau,
  (forall e, In e params -> target_var extra_attr np_int self e = Some q ->
             snd e = PArray a) ->
  (exists e, In e params /\ target_var extra_attr np_int self e = Some q) ->
  var_data (apply_all extra_attr np_int assign self params tau q) = a.
Proof.
  induction params as [|e params IH] using rev_ind; intros tau Hall [e0 [Hin Ht]];
    [destruct Hin|].
  rewrite apply_all_app. unfold apply_all at 1. simpl.
  destruct (decide (target_var extra_attr np_int self e = Some q)) as [He|He].
  - apply apply_entry_target; [assumption|].
    rewrite (Hall e) by (auto using in_or_app, in_eq). reflexivity.
  - rewrite apply_entry_other by assumption.
    apply IH.
    + intros e1 H1. apply Hall. apply in_or_app. left. assumption.
    + apply in_app_or in Hin. destruct Hin as [Hin|[<-|[]]]; [eauto|contradiction].
Qed.

(** *** Saving, then loading into a fresh copy *)

Lemma target_of_saved_name f m sigma p x :
  plain_tree m = true ->
  In p (map snd (named_params [] m)) ->
  target_var extra_attr np_int (rename_vars f m)
    (var_name (name_all (named_params [] m) sigma p), x) = Some (f p).
Proof.
  intros Hplain Hin.
  destruct (name_all_name _ sigma p Hin) as (path & Hpath & Hname).
  destruct (resolve_named f m [] path p Hplain Hpath)
    as (suffix & -> & Hne & Hdf & Hres).
  unfold target_var. simpl fst. rewrite Hname. simpl app.
  rewrite split_dot_concat by assumption. rewrite Hres. reflexivity.
Qed.

Lemma saved_entry f m sigma e :
  plain_tree m = true ->
  In e (build_params_dict (name_all (named_params [] m) sigma)
          (map snd (named_params [] m)) []) ->
  exists p, In p (map snd (named_params [] m)) /\
            target_var extra_attr np_int (rename_vars f m) e = Some (f p) /\
            snd e = PArray (var_data (sigma p)).
Proof.
  intros Hplain Hin. destruct e as [k x].
  destruct (build_params_dict_in _ _ _ _ _ Hin) as [[]|(p & Hp & -> & ->)].
  exists p. split; [assumption|]. split.
  - apply target_of_saved_name; assumption.
  - simpl. rewrite var_data_name_all. reflexivity.
Qed.

Lemma target_var_not_fails self e p :
  target_var extra_attr np_int self e = Some p -> fails extra_attr np_int self e = false.
Proof.
  unfold target_var, fails.
  destruct (resolve extra_attr np_int (VModule self) (split_dot (fst e))) as [[v|]|];
    try discriminate. reflexivity.
Qed.

Lemma target_var_loadable self e p a :
  target_var extra_attr np_int self e = Some p -> snd e = PArray a ->
  loadable extra_attr np_int self e = true.
Proof.
  unfold target_var, loadable. intros Ht ->.
  destruct (resolve extra_attr np_int (VModule self) (split_dot (fst e))) as [[v|]|];
    try discriminate.
  destruct v; try discriminate. reflexivity.
Qed.

Lemma no_failure_log self params :
  (forall e, In e params -> fails extra_attr np_int self e = false) ->
  map (entry_msg extra_attr np_int self) params ++ summary extra_attr np_int self params
  = map (fun e => LogV (msg_success (fst e))) params.
Proof.
  intros H. unfold summary, count_failed.
  replace (List.filter (fails extra_attr np_int self) params) with (@nil (string * pvalue)).
  - simpl. rewrite app_nil_r. apply map_ext_in. intros e He.
    unfold entry_msg. rewrite (H e He). reflexivity.
  - symmetry. induction params as [|e rest IH]; [reflexivity|].
    simpl. rewrite (H e) by (left; reflexivity).
    apply IH. intros e' He'. apply H. right. assumption.
Qed.

(** C5 (amended): on a tree whose attribute names are Python identifiers
    (no dot in a name, no name twice in a [__dict__]) and that holds no
    [Sequential], with a path that can be written and that does not end in
    [".pth"] (the native format), [save(path)] succeeds, and [load(path)]
    into a structurally identical fresh tree (the same tree with other
    [Var] objects for the parameters, distinct ones for distinct
    parameters) succeeds, matches every saved name, and, given that the
    native [assign] stores the data in its [Var] and changes no other
    [Var], leaves in every parameter of the fresh tree exactly the array
    data that the corresponding parameter had when it was saved. *)
Theorem save_load_round_trip
  (writable : string -> bool)
  (torch_load : gmap string file -> string -> outcome (list (string * pvalue)))
  (env : environment) (m : Module) (f : nat -> nat) (path : string)
  (fs : gmap string file) (sigma tau : store) (log : list log_entry) :
  plain_tree m = true ->
  (forall p q, In p (fst (parameters m sigma)) -> In q (fst (parameters m sigma)) ->
               f p = f q -> p = q) ->
  writable path = true ->
  ends_with path ".pth" = false ->
  exists d sigma' tau',
    save writable m path (fs, sigma)
    = (Return tt, (<[path := PickleFile d]> fs, sigma')) /\
    (forall p, In p (fst (parameters m sigma)) ->
               exists x, In (var_name (sigma' p), x) d) /\
    load extra_attr np_int assign torch_load env (<[path := PickleFile d]> fs)
         (rename_vars f m) path (log, tau)
    = (Return tt, (log ++ map (fun e => LogV (msg_success (fst e))) d, tau')) /\
    (forall p, In p (fst (parameters m sigma)) ->
               var_data (tau' (f p)) = var_data (sigma p)).
Proof.
  intros Hplain Hinj Hw Hpath.
  rewrite parameters_spec in Hinj. simpl fst in Hinj.
  rewrite parameters_spec. simpl fst.
  set (l := named_params [] m) in *.
  set (sigma' := name_all l sigma).
  set (d := build_params_dict sigma' (map snd l) []).
  assert (Hentry : forall e, In e d ->
            exists p, In p (map snd l) /\
                      target_var extra_attr np_int (rename_vars f m) e = Some (f p) /\
                      snd e = PArray (var_data (sigma p))).
  { intros e He. apply saved_entry; assumption. }
  exists d, sigma', (apply_all extra_attr np_int assign (rename_vars f m) d tau).
  split; [|split; [|split]].
  - unfold save. rewrite parameters_spec. fold l sigma' d. rewrite Hw. reflexivity.
  - intros p Hp. apply build_params_dict_has_key. assumption.
  - unfold load, pickle_load. rewrite Hpath, lookup_insert_eq.
    rewrite load_parameters_run.
    + rewrite no_failure_log; [reflexivity|].
      intros e He. destruct (Hentry e He) as (p & _ & Ht & _).
      apply (target_var_not_fails _ _ _ Ht).
    + apply List.Forall_forall. intros e He.
      destruct (Hentry e He) as (p & _ & Ht & Hx).
      apply (target_var_loadable _ _ _ _ Ht Hx).
  - intros p Hp. apply apply_all_uniform.
    + intros e He Ht. destruct (Hentry e He) as (p' & Hp' & Ht' & Hx).
      rewrite Ht' in Ht. injection Ht as Hf.
      rewrite (Hinj p' p Hp' Hp Hf) in Hx. exact Hx.
    + destruct (build_params_dict_has_key sigma' (map snd l) [] p Hp) as [x Hx].
      exists (var_name (sigma' p), x). split; [exact Hx|].
      apply target_of_saved_name; assumption.
Qed.

Lemma loadable_payload self e sigma p :
  loadable extra_attr np_int self e = true ->
  target_var extra_attr np_int self e = Some p ->
  exists a, payload sigma (snd e) = Some a.
Proof.
  unfold loadable, target_var.
  destruct (resolve extra_attr np_int (VModule self) (split_dot (fst e))) as [[v|]|];
    try discriminate.
  destruct v; try discriminate.
  destruct (snd e); try discriminate; intros _ _; eexists; reflexivity.
Qed.

End CheckpointFacts.

Section CheckpointExamples.
Import Vars Tree Training Checkpoint Examples.

Lemma assign_data_only_data sigma p a :
  var_data (assign_data_only sigma p a p) = a.
Proof. unfold assign_data_only, update. rewrite Nat.eqb_refl. reflexivity. Qed.

Lemma assign_data_only_other sigma p a q :
  q <> p -> assign_data_only sigma p a q = sigma q.
Proof.
  intros H. unfold assign_data_only, update.
  destruct (Nat.eqb_spec q p); [contradiction|reflexivity].
Qed.

(** C2, as stated, fails: the key ["fc"] resolves, to the sub-module [fc],
    which has no [assign]; the call raises [AttributeError]. *)
Lemma load_parameters_module_key_raises :
  loadable no_extra int_of_segment net ("fc", PArray ones) = false /\
  fails no_extra int_of_segment net ("fc", PArray ones) = false /\
  fst (load_parameters no_extra int_of_segment assign_data_only net
         [("fc", PArray ones)] ([], zeros))
  = Raise AttributeError.
Proof. repeat split. Qed.

Lemma load_parameters_lenient_witness :
  exists sigma',
    load_parameters no_extra int_of_segment assign_data_only net
      [("fc.weight", PArray ones); ("fc.gamma", PArray ones)] ([], zeros)
    = (Return tt,
       ([LogV "load parameter fc.weight success ...";
         LogW "load parameter fc.gamma failed ...";
         LogW "load total 2 params, 1 failed"], sigma')) /\
    var_data (sigma' 0%nat) = ones /\
    sigma' 1%nat = zeros 1%nat.
Proof.
  assert (Hall : Forall (fun e => loadable no_extra int_of_segment net e = true)
                   [("fc.weight", PArray ones); ("fc.gamma", PArray ones)])
    by (repeat constructor).
  destruct (load_parameters_lenient no_extra int_of_segment assign_data_only
              assign_data_only_data assign_data_only_other net _ [] zeros Hall)
    as (sigma' & Hrun & Hother & Hlast).
  exists sigma'. split; [exact Hrun|]. split.
  - apply (Hlast [] "fc.weight" (PArray ones) [("fc.gamma", PArray ones)] 0%nat).
    + reflexivity.
    + reflexivity.
    + intros e [<-|[]]. discriminate.
  - apply Hother. intros e [<-|[<-|[]]]; discriminate.
Defined.

(** C5, as stated, fails: [save("model.pth")] writes the parameters in
    the native format, and [load("model.pth")], in a process that cannot
    import torch, takes the branch of the [".pth"] files and raises;
    nothing is loaded into the fresh tree, whose weight keeps its data and
    not the saved data. *)
Lemma save_load_pth_path_raises :
  let sigma0 : store := fun p => mkVar "" false (NdArray "float32" [1] [Z.of_nat p + 5]) in
  let fresh := rename_vars (fun p => (p + 10)%nat) net in
  exists d sigma',
    save (fun _ => true) net "model.pth" (∅, sigma0)
    = (Return tt, (<["model.pth" := PickleFile d]> ∅, sigma')) /\
    In ("fc.weight", PArray (NdArray "float32" [1] [5])) d /\
    target_var no_extra int_of_segment fresh ("fc.weight", PArray (NdArray "float32" [1] [5]))
    = Some 10%nat /\
    load no_extra int_of_segment assign_data_only (fun _ _ => Return [])
         (mkEnv true false) (<["model.pth" := PickleFile d]> ∅) fresh "model.pth"
         ([], zeros)
    = (Raise (RuntimeError pth_error), ([], zeros)) /\
    var_data (zeros 10%nat) <> NdArray "float32" [1] [5].
Proof.
  intros sigma0 fresh. eexists _, _. split; [reflexivity|].
  split; [left; reflexivity|]. split; [reflexivity|]. split; [reflexivity|].
  discriminate.
Qed.

Lemma save_load_round_trip_witness :
  exists d sigma' tau',
    save (fun _ => true) net "model.pkl"
         (∅, fun p => mkVar "" false (NdArray "float32" [1] [Z.of_nat p + 5]))
    = (Return tt, (<["model.pkl" := PickleFile d]> ∅, sigma')) /\
    fst (load no_extra int_of_segment assign_data_only (fun _ _ => Return [])
              (mkEnv false false) (<["model.pkl" := PickleFile d]> ∅)
              (rename_vars (fun p => (p + 10)%nat) net) "model.pkl" ([], zeros))
    = Return tt /\
    tau' = snd (snd (load no_extra int_of_segment assign_data_only
                          (fun _ _ => Return []) (mkEnv false false)
                          (<["model.pkl" := PickleFile d]> ∅)
                          (rename_vars (fun p => (p + 10)%nat) net) "model.pkl"
                          ([], zeros))) /\
    var_data (tau' 10%nat) = NdArray "float32" [1] [5] /\
    var_data (tau' 11%nat) = NdArray "float32" [1] [6].
Proof.
  destruct (save_load_round_trip no_extra int_of_segment assign_data_only
              assign_data_only_data assign_data_only_other
              (fun _ => true) (fun _ _ => Return [])
              (mkEnv false false) net (fun p => (p + 10)%nat) "model.pkl" ∅
              (fun p => mkVar "" false (NdArray "float32" [1] [Z.of_nat p + 5]))
              zeros [])
    as (d & sigma' & tau' & Hsave & _ & Hload & Hdata).
  - reflexivity.
  - intros p q _ _ H. lia.
  - reflexivity.
  - reflexivity.
  - exists d, sigma', tau'. split; [exact Hsave|].
    rewrite Hload. split; [reflexivity|]. split; [reflexivity|].
    split.
    + apply (Hdata 0%nat). left. reflexivity.
    + apply (Hdata 1%nat). right. left. reflexivity.
Defined.

Lemma load_pth_requires_torch_witness :
  load no_extra int_of_segment assign_data_only (fun _ _ => Return [])
       (mkEnv true false) ∅ net "model.pth" ([], zeros)
  = (Raise (RuntimeError pth_error), ([], zeros)).
Proof.
  apply load_pth_requires_torch; reflexivity.
Defined.

End CheckpointExamples.

(** ** The exit hook *)

Section ExitHookFacts.
Import ExitHook.

(** C9: at shutdown the exit hook synchronises the engine, with one
    blocking [sync_all(True)], if and only if no exit code and no uncaught
    exception have been recorded; if either has been recorded it makes no
    call to the core. *)
Theorem jittor_exit_syncs_iff_clean (hooks : ExitHooks) (calls : list core_call) :
  (jittor_exit hooks calls = calls ++ [SyncAll true]
   <-> exit_code hooks = None /\ exception hooks = None) /\
  (jittor_exit hooks calls = calls
   <-> exit_code hooks <> None \/ exception hooks <> None).
Proof.
  unfold jittor_exit.
  assert (Hne : calls ++ [SyncAll true] <> calls).
  { intros H. apply (f_equal (@length core_call)) in H.
    rewrite length_app in H. simpl in H. lia. }
  destruct (exit_code hooks) as [c|]; [|destruct (exception hooks) as [e|]].
  - split; split.
    + intros H. symmetry in H. contradiction.
    + intros [H _]. discriminate.
    + intros _. left. discriminate.
    + reflexivity.
  - split; split.
    + intros H. symmetry in H. contradiction.
    + intros [_ H]. discriminate.
    + intros _. right. discriminate.
    + reflexivity.
  - split; split.
    + intros _. split; reflexivity.
    + reflexivity.
    + intros H. contradiction.
    + intros [H|H]; congruence.
Qed.

(** What [sys.exit] and the exception hook record decides it: after
    [sys.exit(code)] with a code, or after an uncaught exception, no
    synchronisation is made. *)
Lemma jittor_exit_after_exit hooks code calls :
  jittor_exit (exit hooks (Some code)) calls = calls.
Proof. reflexivity. Qed.

Lemma jittor_exit_after_exception hooks e calls :
  jittor_exit (exc_handler hooks (Some e)) calls = calls.
Proof. unfold jittor_exit. destruct (exit_code _); reflexivity. Qed.

Lemma jittor_exit_fresh calls :
  jittor_exit new_hooks calls = calls ++ [SyncAll true].
Proof. reflexivity. Qed.

End ExitHookFacts.

(** ** [flag_scope] *)

Section FlagScopeFacts.
Import FlagScope.
Context {V : Type}.
Variable is_flag : string -> bool.
Variable accepts : string -> V -> bool.

Lemma dict_set_fresh {A} (d : list (string * A)) k v :
  ~ In k (map fst d) -> dict_set d k v = d ++ [(k, v)].
Proof.
  induction d as [|[k' v'] rest IH]; intros H; [reflexivity|]. simpl in *.
  destruct (String.eqb_spec k' k) as [->|Hne]; [tauto|].
  rewrite IH by tauto. reflexivity.
Qed.

Lemma update_eq (fl : @flags V) k v : update fl k v k = v.
Proof. unfold update. rewrite String.eqb_refl. reflexivity. Qed.

Lemma update_ne (fl : @flags V) k v k' : k' <> k -> update fl k v k' = fl k'.
Proof.
  intros H. unfold update. destruct (String.eqb_spec k' k); [contradiction|reflexivity].
Qed.

Lemma restore_spec (fl0 : @flags V) bk : forall fl : flags,
  backup_of is_flag accepts fl0 bk ->
  exists fl',
    restore is_flag accepts bk fl = (Return tt, fl') /\
    (forall k, In k (map fst bk) -> fl' k = fl0 k) /\
    (forall k, ~ In k (map fst bk) -> fl' k = fl k).
Proof.
  induction bk as [|[k0 v0] rest IH]; intros fl Hbk.
  - exists fl. repeat split; auto. intros k [].
  - destruct (Hbk k0 v0 (or_introl eq_refl)) as (Hflag & Hacc & Hv).
    destruct (IH (update fl k0 v0)) as (fl' & Hrun & Hin & Hout).
    { intros k v Hkv. apply Hbk. right. assumption. }
    exists fl'. split; [|split].
    + simpl. unfold setattr. rewrite Hflag, Hacc. exact Hrun.
    + intros k Hk.
      destruct (in_dec string_dec k (map fst rest)) as [Hr|Hr]; [auto|].
      destruct Hk as [<-|Hk]; [|contradiction].
      rewrite Hout by assumption. simpl. rewrite update_eq. assumption.
    + intros k Hk. simpl in Hk.
      rewrite Hout by tauto. apply update_ne. intros ->. tauto.
Qed.

Lemma apply_flags_spec (fl0 : @flags V) items :
  valid is_flag accepts fl0 ->
  forall bk (fl : @flags V),
    List.NoDup (map fst items) ->
    (forall k, In k (map fst items) -> ~ In k (map fst bk)) ->
    backup_of is_flag accepts fl0 bk ->
    (forall k, ~ In k (map fst bk) -> fl k = fl0 k) ->
    exists bk' fl',
      apply_flags is_flag accepts items bk fl
      = (match first_failure is_flag accepts items with
         | Some e => Raise e
         | None => Return tt
         end, (bk', fl')) /\
      backup_of is_flag accepts fl0 bk' /\
      (forall k, ~ In k (map fst bk') -> fl' k = fl0 k) /\
      (first_failure is_flag accepts items = None ->
       fl' = overridden items fl /\
       forall k, In k (map fst bk') <-> In k (map fst bk) \/ In k (map fst items)).
Proof.
  intros Hvalid.
  induction items as [|[k v] rest IH]; intros bk fl Hnd Hdisj Hbk Hfl.
  - exists bk, fl. simpl. split; [reflexivity|]. split; [assumption|].
    split; [assumption|]. intros _. split; [reflexivity|]. intros k. tauto.
  - simpl in Hnd. inversion Hnd as [|? ? Hk Hrest]; subst.
    assert (Hfresh : ~ In k (map fst bk)) by (apply Hdisj; left; reflexivity).
    simpl. unfold getattr.
    destruct (is_flag k) eqn:Hflag; simpl.
    2:{ exists bk, fl. split; [reflexivity|]. split; [assumption|].
        split; [assumption|]. discriminate. }
    rewrite dict_set_fresh by assumption.
    assert (Hbk1 : backup_of is_flag accepts fl0 (bk ++ [(k, fl k)])).
    { intros k1 v1 Hin. apply in_app_or in Hin. destruct Hin as [Hin|[[= <- <-]|[]]].
      - apply Hbk. assumption.
      - rewrite (Hfl k Hfresh). auto. }
    assert (Hkeys : forall k1, In k1 (map fst (bk ++ [(k, fl k)]))
                               <-> In k1 (map fst bk) \/ k = k1).
    { intros k1. rewrite map_app, in_app_iff. simpl. tauto. }
    unfold setattr. rewrite Hflag.
    destruct (accepts k v) eqn:Hacc; simpl.
    2:{ exists (bk ++ [(k, fl k)]), fl. split; [reflexivity|]. split; [assumption|].
        split; [|discriminate].
        intros k1 Hk1. apply Hfl. rewrite Hkeys in Hk1. tauto. }
    destruct (IH (bk ++ [(k, fl k)]) (update fl k v)) as (bk' & fl' & Hrun & Hbk' & Hfl' & Hok);
      auto.
    { intros k1 Hk1. rewrite Hkeys. intros [H|<-]; [|contradiction].
      apply (Hdisj k1); [right|]; assumption. }
    { intros k1 Hk1. rewrite Hkeys in Hk1.
      rewrite update_ne by (intros ->; tauto). apply Hfl. tauto. }
    exists bk', fl'. split; [exact Hrun|]. split; [assumption|].
    split; [assumption|]. intros Hnone. destruct (Hok Hnone) as [Hov Hdom].
    split; [exact Hov|].
    intros k1. rewrite Hdom, Hkeys. simpl. tauto.
Qed.

Lemma overridden_other items : forall (fl : @flags V) k,
  ~ In k (map fst items) -> overridden items fl k = fl k.
Proof.
  induction items as [|[k0 v0] rest IH]; intros fl k Hk; [reflexivity|].
  unfold overridden in *. simpl in *. rewrite IH by tauto.
  apply update_ne. intros ->. tauto.
Qed.

Lemma overridden_spec items : forall (fl : @flags V) k v,
  List.NoDup (map fst items) -> In (k, v) items -> overridden items fl k = v.
Proof.
  induction items as [|[k0 v0] rest IH]; intros fl k v Hnd Hin; [destruct Hin|].
  simpl in Hnd. inversion Hnd as [|? ? Hk Hrest]; subst.
  destruct Hin as [[= -> ->]|Hin].
  - change (overridden ((k, v) :: rest) fl) with (overridden rest (update fl k v)).
    rewrite overridden_other by assumption. apply update_eq.
  - change (overridden ((k0, v0) :: rest) fl) with (overridden rest (update fl k0 v0)).
    apply IH; assumption.
Qed.

(** C4: for every set of overrides (keyword arguments, hence with
    distinct names) on valid flags, [flag_scope] restores every flag that
    it changed to the value saved on entry when the scope exits, whether
    the body returns or raises (the outcome of the body is that of the
    [with] statement); the body runs with every override applied.  If
    applying the overrides fails partway (an unknown flag, a value that a
    setter refuses), [__enter__] restores the flags already applied, so
    that every flag has its prior value, and the original error propagates;
    the body does not run. *)
Theorem flag_scope_restores {A : Type} (kw : list (string * V))
  (body : @flags V -> outcome A * @flags V) (fl0 : @flags V) :
  List.NoDup (map fst kw) ->
  valid is_flag accepts fl0 ->
  match first_failure is_flag accepts kw with
  | Some e =>
    exists self' fl1,
      enter is_flag accepts (init kw) fl0 = (Raise e, (self', fl1)) /\
      with_flag_scope is_flag accepts kw body fl0 = (Raise e, fl1) /\
      forall k, fl1 k = fl0 k
  | None =>
    let inside := overridden kw fl0 in
    (forall k v, In (k, v) kw -> inside k = v) /\
    exists fl_end,
      with_flag_scope is_flag accepts kw body fl0
      = (fst (body inside), fl_end) /\
      (forall k, In k (map fst kw) -> fl_end k = fl0 k) /\
      (forall k, ~ In k (map fst kw) -> fl_end k = snd (body inside) k)
  end.
Proof.
  intros Hnd Hvalid.
  destruct (apply_flags_spec fl0 kw Hvalid [] fl0)
    as (bk & fl1 & Hrun & Hbk & Hout & Hok); auto.
  { intros k v []. }
  unfold with_flag_scope, enter. cbn [FlagScope.jt_flags init]. rewrite Hrun.
  destruct (first_failure is_flag accepts kw) as [e|].
  - unfold exit. cbn [flags_bk].
    destruct (restore_spec fl0 bk fl1 Hbk) as (fl2 & Hres & Hin & Hnin).
    rewrite Hres. exists (mk_flag_scope kw (Some bk)), fl2.
    split; [reflexivity|]. split; [reflexivity|].
    intros k. destruct (in_dec string_dec k (map fst bk)) as [Hk|Hk].
    + apply Hin. assumption.
    + rewrite Hnin by assumption. apply Hout. assumption.
  - destruct (Hok eq_refl) as [-> Hdom]. cbv zeta.
    split; [intros k v Hin; apply overridden_spec; assumption|].
    destruct (body (overridden kw fl0)) as [r fl2]. unfold exit. cbn [flags_bk].
    destruct (restore_spec fl0 bk fl2 Hbk) as (fl3 & Hres & Hin & Hnin).
    rewrite Hres. exists fl3. split; [reflexivity|]. split.
    + intros k Hk. apply Hin. apply Hdom. right. assumption.
    + intros k Hk. apply Hnin. rewrite Hdom. simpl. tauto.
Qed.

End FlagScopeFacts.

(** ** [log_capture_scope] *)

Section LogCaptureFacts.
Import FlagScope LogCapture.
Context {V : Type}.
Variable is_flag : string -> bool.
Variable accepts : string -> V -> bool.

(** C6: at most one [log_capture_scope] is active at a time.  Entering a
    scope while [single_log_capture] is set fails at once with an
    [AssertionError] and changes nothing: no capture is started, no flag is
    touched.  A scope that has been entered has set [single_log_capture]
    and started one capture, so that entering any second scope before it
    exits fails in that way. *)
Theorem log_capture_single (self : log_capture_scope) (w : world) :
  (single_log_capture w = true ->
   enter is_flag accepts self w = (Raise (AssertionError ""), (self, w))) /\
  (forall logs self' w',
     enter is_flag accepts self w = (Return logs, (self', w')) ->
     single_log_capture w = false /\
     single_log_capture w' = true /\
     log_calls w' = log_calls w ++ [LogCaptureStart] /\
     forall second : log_capture_scope,
       enter is_flag accepts second w' = (Raise (AssertionError ""), (second, w'))).
Proof.
  split.
  - intros H. unfold enter. rewrite H. reflexivity.
  - intros logs self' w'. unfold enter at 1.
    destruct (single_log_capture w) eqn:Hw; [discriminate|].
    destruct (FlagScope.enter is_flag accepts (fs self) (w_flags w))
      as [[u|e] [fs' fl']]; [|discriminate].
    intros [= <- <- <-]. simpl.
    repeat split.
Qed.

End LogCaptureFacts.

Section ScopeExamples.
Import FlagScope LogCapture.

Lemma log_capture_single_witness :
  let is_flag : string -> bool := fun _ => true in
  let accepts : string -> Z -> bool := fun _ _ => true in
  let w0 := mk_world (fun _ => 0) false [] [] in
  exists self1 w1,
    enter is_flag accepts (init [("log_v", 1)]) w0 = (Return [], (self1, w1)) /\
    open_captures (log_calls w1) = 1 /\
    enter is_flag accepts (init [("log_v", 2)]) w1
    = (Raise (AssertionError ""), (init [("log_v", 2)], w1)).
Proof.
  intros is_flag accepts w0.
  eexists _, _. split; [reflexivity|]. split; [reflexivity|].
  apply (proj2 (log_capture_single is_flag accepts (init [("log_v", 1)]) w0)
               [] _ _ eq_refl).
Defined.

(** A [with flag_scope(log_v=1)] whose body raises, on flags that read
    [0]: the error of the body propagates and [log_v] reads [0] again. *)
Lemma flag_scope_restores_witness :
  let is_flag : string -> bool := fun k => String.eqb k "log_v" in
  let accepts : string -> Z -> bool := fun _ v => 0 <=? v in
  let fl0 : string -> Z := fun _ => 0 in
  let body : (string -> Z) -> outcome unit * (string -> Z) :=
    fun fl => (Raise (UserError 1), update fl "log_v" 7) in
  (exists fl_end,
     with_flag_scope is_flag accepts [("log_v", 1)] body fl0
     = (Raise (UserError 1), fl_end) /\ fl_end "log_v" = 0) /\
  (exists fl1,
     with_flag_scope is_flag accepts [("log_v", 1); ("lazy", 1)] body fl0
     = (Raise AttributeError, fl1) /\ fl1 "log_v" = 0).
Proof.
  intros is_flag accepts fl0 body.
  assert (Hvalid : valid is_flag accepts fl0) by (intros k _; reflexivity).
  split.
  - assert (Hnd : List.NoDup (map fst [("log_v", 1)]))
      by (repeat constructor; simpl; tauto).
    destruct (flag_scope_restores is_flag accepts [("log_v", 1)] body fl0 Hnd Hvalid)
      as (_ & fl_end & Hrun & Hin & _).
    exists fl_end. split; [exact Hrun|]. apply Hin. left. reflexivity.
  - assert (Hnd : List.NoDup (map fst [("log_v", 1); ("lazy", 1)])).
    { repeat constructor; simpl; intuition discriminate. }
    destruct (flag_scope_restores is_flag accepts [("log_v", 1); ("lazy", 1)]
                body fl0 Hnd Hvalid)
      as (self' & fl1 & _ & Hrun & Hall).
    exists fl1. split; [exact Hrun|]. apply Hall.
Defined.

End ScopeExamples.

(** * Further properties *)

(** ** [reshape], [unsqueeze], [squeeze] *)

Section ShapesFacts.
Import Flatten Shapes.

Lemma as_ints_map dims : as_ints (map AInt dims) = Return dims.
Proof.
  induction dims as [|z dims IH]; [reflexivity|]. simpl. rewrite IH. reflexivity.
Qed.

Lemma unpack_ints dims : unpack (map AInt dims) = map AInt dims.
Proof. destruct dims as [|z [|z' dims]]; reflexivity. Qed.

(** [reshape(x, a, b, ...)], [reshape(x, (a, b, ...))] and
    [reshape(x, [a, b, ...])] hand the same shape to the native [reshape],
    for any number of dimensions (also none, and also a single one). *)
Theorem reshape_args_forms (in_shape dims : list Z) :
  reshape_args in_shape (map AInt dims) = reshape in_shape dims /\
  reshape_args in_shape [ASeq (map AInt dims)] = reshape in_shape dims.
Proof.
  unfold reshape_args. rewrite unpack_ints. simpl unpack.
  rewrite as_ints_map. split; reflexivity.
Qed.

Lemma numel_firstn_skipn c l x :
  numel (firstn c l ++ [x] ++ skipn c l) = x * numel l.
Proof.
  rewrite <- (firstn_skipn c l) at 3.
  rewrite !numel_app. unfold numel at 2. simpl fold_right. lia.
Qed.

Lemma reshape_seq in_shape dims :
  numel dims = numel in_shape ->
  reshape_args in_shape [ASeq (map AInt dims)] = Return dims.
Proof.
  intros H. unfold reshape_args. simpl unpack. rewrite as_ints_map. simpl.
  unfold reshape. rewrite H, Z.eqb_refl. reflexivity.
Qed.

Lemma unsqueeze_spec_aux (shape : list Z) (dim : Z) :
  let n := Z.of_nat (length shape) in
  (n < dim -> unsqueeze shape dim = Raise (AssertionError "")) /\
  (dim <= n ->
   let pos := if dim <? 0 then Z.max (n + dim) 0 else dim in
   unsqueeze shape dim
   = Return (firstn (Z.to_nat pos) shape ++ [1] ++ skipn (Z.to_nat pos) shape) /\
   forall out, unsqueeze shape dim = Return out ->
               length out = S (length shape)).
Proof.
  intros n. split.
  - intros H. unfold unsqueeze. fold n.
    destruct (Z.leb_spec dim n); [lia|]. reflexivity.
  - intros H pos. unfold unsqueeze. fold n.
    destruct (Z.leb_spec dim n); [|lia]. simpl negb. cbv iota.
    assert (Hpos : clip n dim = Z.to_nat pos).
    { unfold clip, pos. destruct (dim <? 0); [reflexivity|]. f_equal. lia. }
    unfold slice_to, slice_from. fold n. rewrite Hpos.
    rewrite reshape_seq by (rewrite numel_firstn_skipn; lia).
    split; [reflexivity|].
    intros out [= <-]. rewrite length_app. simpl. rewrite length_firstn, length_skipn.
    lia.
Qed.

(** [unsqueeze(x, dim)] fails its assertion when [dim] exceeds the rank;
    otherwise it returns the shape with a [1] inserted at the position that
    Python's slices give: at [dim] when [0 <= dim], at [rank + dim] when
    [-rank <= dim < 0] (so that [dim = -1] inserts before the last
    dimension, not after it), in front when [dim < -rank].  The rank grows
    by one. *)
Theorem unsqueeze_spec (shape : list Z) (dim : Z) :
  let n := Z.of_nat (length shape) in
  (n < dim -> unsqueeze shape dim = Raise (AssertionError "")) /\
  (dim <= n ->
   let pos := if dim <? 0 then Z.max (n + dim) 0 else dim in
   unsqueeze shape dim
   = Return (firstn (Z.to_nat pos) shape ++ [1] ++ skipn (Z.to_nat pos) shape) /\
   forall out, unsqueeze shape dim = Return out ->
               length out = S (length shape)).
Proof. exact (unsqueeze_spec_aux shape dim). Qed.

Lemma unsqueeze_spec_witness :
  unsqueeze [2; 3] 3 = Raise (AssertionError "") /\
  unsqueeze [2; 3] 2 = Return [2; 3; 1] /\
  unsqueeze [2; 3] (-1) = Return [2; 1; 3].
Proof.
  split; [|split].
  - apply (proj1 (unsqueeze_spec [2; 3] 3)). simpl. lia.
  - apply (proj1 (proj2 (unsqueeze_spec [2; 3] 2) ltac:(simpl; lia))).
  - apply (proj1 (proj2 (unsqueeze_spec [2; 3] (-1)) ltac:(simpl; lia))).
Defined.

Lemma clip_in_range n i : 0 <= i <= n -> clip n i = Z.to_nat i.
Proof.
  intros H. unfold clip. destruct (Z.ltb_spec i 0); [lia|]. f_equal. lia.
Qed.

Lemma numel_without c l :
  nth_error l c = Some 1 -> numel (firstn c l ++ skipn (S c) l) = numel l.
Proof.
  revert l. induction c as [|c IH]; intros [|x l] H; try discriminate.
  - injection H as ->.
    change (numel l = 1 * numel l). lia.
  - simpl in H. change (firstn (S c) (x :: l)) with (x :: firstn c l).
    change (skipn (S (S c)) (x :: l)) with (skipn (S c) l).
    change (numel ((x :: firstn c l) ++ skipn (S c) l))
      with (x * numel (firstn c l ++ skipn (S c) l)).
    rewrite IH by assumption. reflexivity.
Qed.

Lemma squeeze_spec_aux (shape : list Z) (dim : Z) :
  let n := Z.of_nat (length shape) in
  let d := if dim <? 0 then dim + n else dim in
  (d < 0 \/ n <= d -> squeeze shape dim = Raise (AssertionError "")) /\
  (0 <= d < n -> nth_error shape (Z.to_nat d) <> Some 1 ->
   squeeze shape dim = Raise (AssertionError "")) /\
  (0 <= d < n -> nth_error shape (Z.to_nat d) = Some 1 ->
   squeeze shape dim
   = Return (firstn (Z.to_nat d) shape ++ skipn (S (Z.to_nat d)) shape) /\
   forall out, squeeze shape dim = Return out -> S (length out) = length shape).
Proof.
  intros n d.
  assert (Hrange : 0 <= d < n ->
            squeeze shape dim
            = (let* x := getitem shape d in
               if negb (x =? 1) then Raise (AssertionError "")
               else reshape_args shape
                      [ASeq (map AInt (slice_to shape d ++ slice_from shape (d + 1)))])).
  { intros H. unfold squeeze. fold n. fold d.
    destruct (Z.ltb_spec d n); [|lia]. destruct (Z.geb_spec d 0); [|lia]. reflexivity. }
  split; [|split].
  - intros H. unfold squeeze. fold n. fold d.
    destruct (Z.ltb_spec d n); destruct (Z.geb_spec d 0); try reflexivity. lia.
  - intros H Hne. rewrite Hrange by assumption.
    destruct (getitem_in_range shape d H) as (x & Hx & ->). simpl.
    destruct (Z.eqb_spec x 1) as [->|]; [contradiction|reflexivity].
  - intros H H1. rewrite Hrange by assumption.
    destruct (getitem_in_range shape d H) as (x & Hx & ->). simpl.
    rewrite H1 in Hx. injection Hx as <-. simpl.
    unfold slice_to, slice_from. fold n.
    rewrite !clip_in_range by lia.
    replace (Z.to_nat (d + 1)) with (S (Z.to_nat d)) by lia.
    rewrite reshape_seq by (apply numel_without; assumption).
    split; [reflexivity|].
    intros out [= <-]. rewrite length_app, length_firstn, length_skipn. lia.
Qed.

(** [squeeze(x, dim)], with a negative [dim] counted from the end, fails
    its assertions when [dim] is out of range or when the dimension is not
    of size 1; otherwise it returns the shape without that dimension, and
    the rank shrinks by one. *)
Theorem squeeze_spec (shape : list Z) (dim : Z) :
  let n := Z.of_nat (length shape) in
  let d := if dim <? 0 then dim + n else dim in
  (d < 0 \/ n <= d -> squeeze shape dim = Raise (AssertionError "")) /\
  (0 <= d < n -> nth_error shape (Z.to_nat d) <> Some 1 ->
   squeeze shape dim = Raise (AssertionError "")) /\
  (0 <= d < n -> nth_error shape (Z.to_nat d) = Some 1 ->
   squeeze shape dim
   = Return (firstn (Z.to_nat d) shape ++ skipn (S (Z.to_nat d)) shape) /\
   forall out, squeeze shape dim = Return out -> S (length out) = length shape).
Proof. exact (squeeze_spec_aux shape dim). Qed.

Lemma squeeze_spec_witness :
  squeeze [2; 1; 3] 3 = Raise (AssertionError "") /\
  squeeze [2; 1; 3] 0 = Raise (AssertionError "") /\
  squeeze [2; 1; 3] (-2) = Return [2; 3].
Proof.
  split; [|split].
  - apply (proj1 (squeeze_spec [2; 1; 3] 3)). simpl. lia.
  - apply (proj1 (proj2 (squeeze_spec [2; 1; 3] 0))); [simpl; lia|discriminate].
  - apply (proj1 (proj2 (proj2 (squeeze_spec [2; 1; 3] (-2)))
                   ltac:(simpl; lia) eq_refl)).
Defined.

Lemma split_at {A} (l : list A) c x :
  nth_error l c = Some x -> firstn c l ++ x :: skipn (S c) l = l.
Proof.
  revert l. induction c as [|c IH]; intros [|y l] H; try discriminate.
  - injection H as ->. reflexivity.
  - simpl in H. simpl. f_equal. apply (IH l H).
Qed.

(** For [0 <= dim], [squeeze] undoes [unsqueeze] at the same [dim], and
    [unsqueeze] undoes a [squeeze] that succeeded. *)
Theorem squeeze_unsqueeze_inverse (shape : list Z) (dim : Z) :
  0 <= dim ->
  (dim <= Z.of_nat (length shape) ->
   exists out, unsqueeze shape dim = Return out /\ squeeze out dim = Return shape) /\
  (forall out, squeeze shape dim = Return out -> unsqueeze out dim = Return shape).
Proof.
  intros Hdim. set (n := Z.of_nat (length shape)).
  assert (Hneg : (dim <? 0) = false) by (destruct (Z.ltb_spec dim 0); [lia|reflexivity]).
  split.
  - intros Hn.
    destruct (proj2 (unsqueeze_spec_aux shape dim) Hn) as [Hun _].
    rewrite Hneg in Hun. cbv zeta in Hun.
    set (F := firstn (Z.to_nat dim) shape) in *.
    set (D := skipn (Z.to_nat dim) shape) in *.
    assert (Hfirst : length F = Z.to_nat dim)
      by (unfold F; rewrite length_firstn; lia).
    exists (F ++ [1] ++ D). split; [exact Hun|].
    assert (Hlen : length (F ++ [1] ++ D) = S (length shape)).
    { unfold F, D. rewrite length_app. simpl. rewrite length_firstn, length_skipn. lia. }
    destruct (squeeze_spec_aux (F ++ [1] ++ D) dim) as (_ & _ & Hok).
    rewrite Hneg in Hok. cbv zeta in Hok.
    destruct Hok as [Hsq _]; [lia| |].
    + rewrite nth_error_app2 by lia. rewrite Hfirst, Nat.sub_diag. reflexivity.
    + rewrite Hsq. f_equal.
      rewrite (take_app_length' F _ (Z.to_nat dim)) by (symmetry; exact Hfirst).
      rewrite (app_assoc F [1] D).
      rewrite (drop_app_length' (F ++ [1]) D) by (rewrite length_app; simpl; lia).
      apply firstn_skipn.
  - intros out Hsq.
    destruct (squeeze_spec_aux shape dim) as (Hout & Hne & Hok).
    rewrite Hneg in Hout, Hne, Hok. cbv zeta in Hout, Hne, Hok.
    fold n in Hout, Hne, Hok.
    destruct (Z_lt_ge_dec dim n) as [Hlt|Hge];
      [|rewrite Hout in Hsq by lia; discriminate].
    destruct (nth_error shape (Z.to_nat dim)) as [x|] eqn:Hx;
      [|apply nth_error_None in Hx; lia].
    destruct (Z.eq_dec x 1) as [->|Hx1];
      [|rewrite Hne in Hsq by (try lia; congruence); discriminate].
    destruct (Hok ltac:(lia) eq_refl) as [Hrun Hlen].
    rewrite Hrun in Hsq. injection Hsq as <-.
    set (F := firstn (Z.to_nat dim) shape) in *.
    set (D := skipn (S (Z.to_nat dim)) shape) in *.
    assert (Hfirst : length F = Z.to_nat dim)
      by (unfold F; rewrite length_firstn; lia).
    assert (Hlen' : S (length (F ++ D)) = length shape) by (apply Hlen; exact Hrun).
    destruct (proj2 (unsqueeze_spec_aux (F ++ D) dim) ltac:(lia)) as [Hun _].
    rewrite Hneg in Hun. cbv zeta in Hun. rewrite Hun. f_equal.
    rewrite (take_app_length' F D (Z.to_nat dim)) by (symmetry; exact Hfirst).
    rewrite (drop_app_length' F D (Z.to_nat dim)) by (symmetry; exact Hfirst).
    apply split_at. exact Hx.
Qed.

Lemma squeeze_unsqueeze_inverse_witness :
  (exists out, unsqueeze [2; 3] 1 = Return out /\ squeeze out 1 = Return [2; 3]) /\
  unsqueeze [3] 0 = Return [1; 3].
Proof.
  destruct (squeeze_unsqueeze_inverse [2; 3] 1 ltac:(lia)) as [H _].
  destruct (squeeze_unsqueeze_inverse [1; 3] 0 ltac:(lia)) as [_ H'].
  split; [apply H; simpl; lia|apply H'; reflexivity].
Defined.

(** The inverse does not extend to negative [dim]: [unsqueeze(x, -1)]
    inserts before the last dimension, where [squeeze(., -1)] does not
    look. *)
Example squeeze_unsqueeze_negative :
  unsqueeze [2; 3] (-1) = Return [2; 1; 3] /\
  squeeze [2; 1; 3] (-1) = Raise (AssertionError "").
Proof. split; reflexivity. Qed.

(** ** [flatten], continued *)

Lemma length_slice a b (shape : list Z) :
  0 <= a <= b -> b <= Z.of_nat (length shape) ->
  Z.of_nat (length (slice a b shape)) = b - a.
Proof.
  intros Hab Hb. unfold slice. rewrite length_firstn, length_skipn. lia.
Qed.

(** The default call [flatten(x)] on a tensor of rank at least 2 returns a
    tensor of rank 1 whose single dimension is the number of elements. *)
Theorem flatten_default_full (in_shape : list Z) :
  (2 <= length in_shape)%nat ->
  flatten_default in_shape = Return [numel in_shape].
Proof.
  intros Hrank. unfold flatten_default.
  pose proof (flatten_in_range in_shape 0 (-1)) as H. cbv zeta in H.
  unfold normalize in H.
  change (0 <? 0) with false in H. change (-1 <? 0) with true in H. cbv iota in H.
  rewrite H by lia.
  replace (Z.of_nat (length in_shape) + -1 + 1) with (Z.of_nat (length in_shape)) by lia.
  rewrite slice_empty, slice_all. unfold slice.
  rewrite Z.sub_diag. reflexivity.
Qed.

Lemma flatten_default_full_witness :
  flatten_default [2; 3; 4] = Return [24].
Proof. apply (flatten_default_full [2; 3; 4]). simpl. lia. Defined.

(** When [flatten] returns on dimensions [0 <= start_dim < end_dim < rank]
    (after normalisation), the result has [end_dim - start_dim] dimensions
    fewer than the input and as many elements. *)
Theorem flatten_rank_numel (in_shape : list Z) (start_dim end_dim : Z) :
  let ndim := Z.of_nat (length in_shape) in
  let s := normalize ndim start_dim in
  let e := normalize ndim end_dim in
  0 <= s -> s < e -> e < ndim ->
  exists out,
    flatten in_shape start_dim end_dim = Return out /\
    Z.of_nat (length out) = ndim - (e - s) /\
    numel out = numel in_shape.
Proof.
  intros ndim s e Hs Hse He.
  rewrite (flatten_in_range in_shape start_dim end_dim Hs Hse He). fold ndim s e.
  eexists. split; [reflexivity|]. split.
  - rewrite !length_app, !Nat2Z.inj_add. simpl length.
    rewrite !length_slice by (unfold ndim in *; lia). lia.
  - rewrite <- (slice_all in_shape) at 4. fold ndim.
    rewrite (slice_whole in_shape 0 s ndim), (slice_whole in_shape s (e + 1) ndim) by lia.
    rewrite !numel_app. f_equal. f_equal.
    unfold numel at 1. cbn [fold_right]. lia.
Qed.

Lemma flatten_rank_numel_witness :
  exists out, flatten [2; 3; 4; 5] 1 2 = Return out /\
              Z.of_nat (length out) = 3 /\ numel out = 120.
Proof.
  destruct (flatten_rank_numel [2; 3; 4; 5] 1 2) as (out & H & Hl & Hn);
    try (unfold normalize; simpl; lia).
  exists out. split; [exact H|]. split; [exact Hl|exact Hn].
Defined.

End ShapesFacts.

(** ** Traversals, continued *)

Section TraversalFacts.
Import Vars Tree Traversal.

Lemma dfs_replay_items {S : Type}
  (enter leave : list Module -> option string -> Module -> nat -> S -> S)
  (decide : visit) self items :
  (forall k c, In (k, VModule c) items ->
     forall parents k' s,
       dfs (fun p k v n s => (enter p k v n s, decide p k v n)) (Some leave)
           c parents k' s
       = fold_left (replay enter leave) (dfs_trace decide c parents k') s) ->
  forall parents k s,
    dfs_items (dfs (fun p k v n s => (enter p k v n s, decide p k v n)) (Some leave))
              self parents items k s
    = (fold_left (replay enter leave) (children_trace decide self parents items) s,
       key_after_loop items k).
Proof.
  induction items as [|[k' v] rest IH]; intros Hch parents k s; [reflexivity|].
  assert (Hrest : forall k c, In (k, VModule c) rest ->
     forall parents k' s,
       dfs (fun p k v n s => (enter p k v n s, decide p k v n)) (Some leave)
           c parents k' s
       = fold_left (replay enter leave) (dfs_trace decide c parents k') s)
    by (intros; apply (Hch k0); right; assumption).
  destruct v; simpl; try (apply IH; assumption).
  rewrite IH by assumption.
  rewrite (Hch k' m) by (left; reflexivity).
  rewrite fold_left_app. reflexivity.
Qed.

Lemma dfs_replay_aux {S : Type}
  (enter leave : list Module -> option string -> Module -> nat -> S -> S)
  (decide : visit) m : forall parents k s,
  dfs (fun p k v n s => (enter p k v n s, decide p k v n)) (Some leave) m parents k s
  = fold_left (replay enter leave) (dfs_trace decide m parents k) s.
Proof.
  induction m as [cls dict IH] using Module_tree_ind. intros parents k s.
  rewrite dfs_unfold, dfs_trace_eq. cbv zeta beta iota.
  destruct (eq_False (decide parents k (Mod cls dict) (count_modules dict))).
  - reflexivity.
  - rewrite (dfs_replay_items enter leave decide (Mod cls dict) dict IH).
    simpl fold_left. rewrite fold_left_app. reflexivity.
Qed.

(** A traversal is determined by the calls it makes: for callbacks whose
    answer depends on their arguments only, the state that [dfs] leaves is
    the one obtained by running the enter and leave callbacks over the
    recorded calls, in order. *)
Theorem dfs_replay {S : Type}
  (enter leave : list Module -> option string -> Module -> nat -> S -> S)
  (decide : visit) (m : Module) (parents : list Module) (k : option string) (s : S) :
  dfs (fun p k v n s => (enter p k v n s, decide p k v n)) (Some leave) m parents k s
  = fold_left (replay enter leave) (dfs_trace decide m parents k) s.
Proof. apply dfs_replay_aux. Qed.

(** *** [children] *)

Lemma children_dfs_items self items :
  forall parents k cd,
    length parents = 0%nat ->
    dfs_items (dfs children_callback None) self parents items k cd
    = (cd ++ child_modules items, key_after_loop items k).
Proof.
  induction items as [|[k' v] rest IH]; intros parents k cd Hlen.
  - simpl. rewrite app_nil_r. reflexivity.
  - destruct v; simpl; try (apply IH; assumption).
    rewrite IH by assumption.
    destruct m as [cls dict]. rewrite dfs_unfold. cbv zeta.
    unfold children_callback at 1. rewrite length_app, Hlen. simpl.
    rewrite <- app_assoc. reflexivity.
Qed.

Lemma in_child_modules c items :
  In c (child_modules items) <-> exists k, In (k, VModule c) items.
Proof.
  induction items as [|[k v] rest IH].
  - simpl. split; [intros []|intros [k []]].
  - split.
    + intros H.
      assert (Hcase : v = VModule c \/ In c (child_modules rest)).
      { destruct v; simpl in H; auto. destruct H as [->|H]; auto. }
      destruct Hcase as [->|H'].
      * exists k. left. reflexivity.
      * apply IH in H'. destruct H' as [k0 H']. exists k0. right. exact H'.
    + intros [k0 [H|H]].
      * injection H as _ ->. simpl. left. reflexivity.
      * assert (Hc : In c (child_modules rest)) by (apply IH; exists k0; exact H).
        destruct v; simpl; auto.
Qed.

(** [children()] returns exactly the [Module]-valued attributes of the
    node, in [__dict__] order, and none of their descendants; there are
    [n_children] of them. *)
Theorem children_direct (m : Module) :
  children m = child_modules (dict_of m) /\
  length (children m) = count_modules (dict_of m) /\
  (forall c, In c (children m) <-> exists k, In (k, VModule c) (dict_of m)).
Proof.
  destruct m as [cls dict]. simpl dict_of.
  assert (H : children (Mod cls dict) = child_modules dict).
  { unfold children. rewrite dfs_unfold. cbv zeta.
    unfold children_callback at 1. simpl length. simpl Nat.eqb. cbv iota. simpl eq_False.
    cbv iota. rewrite (children_dfs_items (Mod cls dict) dict [] None []) by reflexivity.
    reflexivity. }
  rewrite H. split; [reflexivity|]. split.
  - clear H. induction dict as [|[k v] rest IH]; [reflexivity|].
    destruct v; simpl; rewrite ?IH; reflexivity.
  - intros c. apply in_child_modules.
Qed.

(** *** [modules], in order *)

(** [modules()] lists the nodes in pre-order: the node itself, then the
    lists of its [Module]-valued attributes, in [__dict__] order. *)
Theorem modules_preorder (cls : pyclass) (dict : list (string * value)) :
  modules (Mod cls dict)
  = Mod cls dict
    :: flat_map (fun kv => match snd kv with
                           | VModule c => modules c
                           | _ => []
                           end) dict.
Proof.
  rewrite modules_walk, walk_eq. f_equal.
  induction dict as [|[k v] rest IH]; [reflexivity|].
  destruct v; simpl; rewrite ?IH; try reflexivity.
  rewrite modules_walk. reflexivity.
Qed.

(** *** Enter and leave calls are balanced *)

Lemma count_events_app f l1 l2 :
  count_events f (l1 ++ l2) = (count_events f l1 + count_events f l2)%nat.
Proof. unfold count_events. rewrite List.filter_app, length_app. reflexivity. Qed.

Lemma children_trace_balanced decide self items :
  (forall k c, In (k, VModule c) items -> forall parents k0,
     count_events is_leave (dfs_trace decide c parents k0)
     = count_events (is_open decide) (dfs_trace decide c parents k0) /\
     (count_events is_enter (dfs_trace decide c parents k0) <= count_nodes c)%nat /\
     ((forall p k v n, eq_False (decide p k v n) = false) ->
      count_events is_enter (dfs_trace decide c parents k0) = count_nodes c)) ->
  forall parents,
    count_events is_leave (children_trace decide self parents items)
    = count_events (is_open decide) (children_trace decide self parents items) /\
    (count_events is_enter (children_trace decide self parents items)
     <= count_nodes_items items)%nat /\
    ((forall p k v n, eq_False (decide p k v n) = false) ->
     count_events is_enter (children_trace decide self parents items)
     = count_nodes_items items).
Proof.
  induction items as [|[k' v] rest IHd]; intros IH parents.
  - unfold count_events. simpl.
    split; [reflexivity|split; [lia|intros _; reflexivity]].
  - assert (Hrest : forall k c, In (k, VModule c) rest -> forall parents k0,
      count_events is_leave (dfs_trace decide c parents k0)
      = count_events (is_open decide) (dfs_trace decide c parents k0) /\
      (count_events is_enter (dfs_trace decide c parents k0) <= count_nodes c)%nat /\
      ((forall p k v n, eq_False (decide p k v n) = false) ->
       count_events is_enter (dfs_trace decide c parents k0) = count_nodes c))
      by (intros; apply (IH k); right; assumption).
    destruct (IHd Hrest parents) as (Ha & Hb & Hc).
    destruct v; simpl; try (split; [exact Ha|split; [exact Hb|exact Hc]]).
    destruct (IH k' m (or_introl eq_refl) (parents ++ [self]) (Some k'))
      as (Ha' & Hb' & Hc').
    rewrite !count_events_app. split; [lia|]. split; [lia|].
    intros H. rewrite Hc, Hc' by assumption. reflexivity.
Qed.

Lemma dfs_trace_balanced_aux decide m : forall parents k,
  count_events is_leave (dfs_trace decide m parents k)
  = count_events (is_open decide) (dfs_trace decide m parents k) /\
  (count_events is_enter (dfs_trace decide m parents k) <= count_nodes m)%nat /\
  ((forall p k v n, eq_False (decide p k v n) = false) ->
   count_events is_enter (dfs_trace decide m parents k) = count_nodes m).
Proof.
  induction m as [cls dict IH] using Module_tree_ind. intros parents k.
  rewrite dfs_trace_eq, count_nodes_eq. cbv zeta.
  destruct (children_trace_balanced decide (Mod cls dict) dict IH parents)
    as (Ha & Hb & Hc).
  change (Enter parents k (Mod cls dict) (count_modules dict)
          :: (if eq_False (decide parents k (Mod cls dict) (count_modules dict))
              then []
              else children_trace decide (Mod cls dict) parents dict ++
                   [Leave parents (key_after_loop dict k) (Mod cls dict)
                      (count_modules dict)]))
    with ([Enter parents k (Mod cls dict) (count_modules dict)]
          ++ (if eq_False (decide parents k (Mod cls dict) (count_modules dict))
              then []
              else children_trace decide (Mod cls dict) parents dict ++
                   [Leave parents (key_after_loop dict k) (Mod cls dict)
                      (count_modules dict)])).
  rewrite !count_events_app.
  assert (Hopen : count_events (is_open decide)
                    [Enter parents k (Mod cls dict) (count_modules dict)]
                  = if eq_False (decide parents k (Mod cls dict) (count_modules dict))
                    then 0%nat else 1%nat).
  { unfold count_events. simpl.
    destruct (eq_False (decide parents k (Mod cls dict) (count_modules dict)));
      reflexivity. }
  rewrite Hopen.
  change (count_events is_leave [Enter parents k (Mod cls dict) (count_modules dict)])
    with 0%nat.
  change (count_events is_enter [Enter parents k (Mod cls dict) (count_modules dict)])
    with 1%nat.
  destruct (eq_False (decide parents k (Mod cls dict) (count_modules dict))) eqn:Hstop.
  - change (count_events is_leave []) with 0%nat.
    change (count_events (is_open decide) []) with 0%nat.
    change (count_events is_enter []) with 0%nat.
    split; [reflexivity|]. split; [lia|]. intros H. rewrite H in Hstop. discriminate.
  - rewrite !count_events_app.
    change (count_events is_leave
              [Leave parents (key_after_loop dict k) (Mod cls dict) (count_modules dict)])
      with 1%nat.
    change (count_events (is_open decide)
              [Leave parents (key_after_loop dict k) (Mod cls dict) (count_modules dict)])
      with 0%nat.
    change (count_events is_enter
              [Leave parents (key_after_loop dict k) (Mod cls dict) (count_modules dict)])
      with 0%nat.
    split; [lia|]. split; [lia|]. intros H. rewrite Hc by assumption. lia.
Qed.

(** In every traversal the leave callback is called exactly as many times
    as the enter callback answered without stopping; the enter callback is
    called on at most as many nodes as the tree has, and, when it never
    stops, on exactly that many. *)
Theorem dfs_trace_balanced (decide : visit) (m : Module) (parents : list Module)
  (k : option string) :
  count_events is_leave (dfs_trace decide m parents k)
  = count_events (is_open decide) (dfs_trace decide m parents k) /\
  (count_events is_enter (dfs_trace decide m parents k) <= count_nodes m)%nat /\
  ((forall p k v n, eq_False (decide p k v n) = false) ->
   count_events is_enter (dfs_trace decide m parents k) = count_nodes m /\
   count_events is_leave (dfs_trace decide m parents k) = count_nodes m).
Proof.
  destruct (dfs_trace_balanced_aux decide m parents k) as (Ha & Hb & Hc).
  split; [exact Ha|]. split; [exact Hb|].
  intros H. split; [apply Hc; assumption|].
  rewrite Ha, <- (Hc H). unfold count_events. f_equal.
  apply List.filter_ext. intros [p k0 v n|p k0 v n]; simpl; [|reflexivity].
  rewrite H. reflexivity.
Qed.

(** *** [__str__] *)

Lemma render_eq extra_repr depth k cls dict :
  render extra_repr depth k (Mod cls dict)
  = let key := match k with
               | Some key => String.append key ": "
               | None => EmptyString
               end in
    let head := String.append (spaces (depth * 4))
                  (String.append key (cls_name cls)) in
    match count_modules dict with
    | O => [String.append head
              (String.append "(" (String.append (extra_repr (Mod cls dict)) ")"))]
    | S _ => String.append head "(" :: render_items extra_repr depth dict
             ++ [String.append (spaces (depth * 4)) ")"]
    end.
Proof.
  simpl. destruct (count_modules dict); [reflexivity|].
  f_equal. f_equal.
  induction dict as [|[k' v] rest IH]; [reflexivity|].
  destruct v; simpl; rewrite ?IH; reflexivity.
Qed.

Lemma render_items_nil extra_repr depth items :
  count_modules items = 0%nat -> render_items extra_repr depth items = [].
Proof.
  induction items as [|[k v] rest IH]; [reflexivity|].
  destruct v; simpl; try exact IH. discriminate.
Qed.

Lemma str_dfs_items extra_repr self items :
  (forall k c, In (k, VModule c) items ->
     forall parents k' ss,
       dfs (str_callback extra_repr) (Some str_leave) c parents k' ss
       = ss ++ render extra_repr (length parents) k' c) ->
  forall parents k ss,
    dfs_items (dfs (str_callback extra_repr) (Some str_leave)) self parents items k ss
    = (ss ++ render_items extra_repr (length parents) items, key_after_loop items k).
Proof.
  induction items as [|[k' v] rest IH]; intros Hch parents k ss.
  - simpl. rewrite app_nil_r. reflexivity.
  - assert (Hrest : forall k c, In (k, VModule c) rest ->
       forall parents k' ss,
         dfs (str_callback extra_repr) (Some str_leave) c parents k' ss
         = ss ++ render extra_repr (length parents) k' c)
      by (intros; apply (Hch k0); right; assumption).
    destruct v; simpl; try (apply IH; assumption).
    rewrite IH by assumption.
    rewrite (Hch k' m) by (left; reflexivity).
    rewrite length_app. simpl. rewrite Nat.add_1_r, <- app_assoc. reflexivity.
Qed.

Lemma str_dfs extra_repr m : forall parents k ss,
  dfs (str_callback extra_repr) (Some str_leave) m parents k ss
  = ss ++ render extra_repr (length parents) k m.
Proof.
  induction m as [cls dict IH] using Module_tree_ind. intros parents k ss.
  rewrite dfs_unfold, render_eq. cbv zeta.
  unfold str_callback at 1. cbv beta iota. simpl eq_False. cbv iota.
  rewrite (str_dfs_items extra_repr (Mod cls dict) dict IH).
  unfold str_leave, str_enter. simpl class_of.
  destruct (count_modules dict) eqn:Hn.
  - rewrite render_items_nil by assumption. rewrite app_nil_r. reflexivity.
  - rewrite <- !app_assoc. reflexivity.
Qed.

(** [__str__] prints a node without [Module]-valued attributes on one
    line, [Class(extra_repr)]; it prints any other node as a head line
    [Class(], then each [Module]-valued attribute, in order, as
    [name: ...] four spaces deeper, then a closing line [)]. *)
Theorem str_render (extra_repr : Module -> string) (m : Module) :
  str extra_repr m = String.concat newline (render extra_repr 0 None m) /\
  (count_modules (dict_of m) = 0%nat ->
   str extra_repr m
   = String.append (cls_name (class_of m))
       (String.append "(" (String.append (extra_repr m) ")"))).
Proof.
  unfold str, str_lines. rewrite str_dfs. simpl app. split; [reflexivity|].
  destruct m as [cls dict]. simpl dict_of. intros Hn.
  rewrite render_eq. cbv zeta. rewrite Hn. reflexivity.
Qed.

Lemma str_render_witness :
  str (fun _ => "4, 2") Examples.linear = "Linear(4, 2)".
Proof.
  apply (proj2 (str_render (fun _ => "4, 2") Examples.linear)). reflexivity.
Defined.

End TraversalFacts.

(** ** [parameters], continued *)

Section ParametersFacts.
Import Vars Tree Training Checkpoint Traversal.

Lemma own_vars_ids pre items : map snd (own_vars pre items) = own_var_ids items.
Proof.
  induction items as [|[k v] rest IH]; [reflexivity|].
  destruct v; simpl; rewrite ?IH; reflexivity.
Qed.

Lemma named_params_ids m : forall pre pre',
  map snd (named_params pre m) = map snd (named_params pre' m).
Proof.
  induction m as [cls dict IH] using Module_tree_ind. intros pre pre'.
  rewrite !named_params_eq, !map_app, !own_vars_ids. f_equal.
  induction dict as [|[k v] rest IHd]; [reflexivity|].
  assert (Hrest : forall k c, In (k, VModule c) rest -> forall pre pre',
            map snd (named_params pre c) = map snd (named_params pre' c))
    by (intros; apply (IH k0); right; assumption).
  destruct v; simpl; try (apply IHd; assumption).
  rewrite !map_app, (IHd Hrest).
  rewrite (IH k m (or_introl eq_refl) (pre ++ [k]) (pre' ++ [k])). reflexivity.
Qed.

Lemma name_all_last l : forall sigma p,
  name_all l sigma p
  = match last_name l p with
    | Some name => mkVar name (var_stop_grad (sigma p)) (var_data (sigma p))
    | None => sigma p
    end.
Proof.
  induction l as [|[path q] l IH]; intros sigma p; [reflexivity|].
  change (name_all ((path, q) :: l) sigma)
    with (name_all l (set_name sigma q (String.concat "." path))).
  rewrite IH. simpl last_name.
  destruct (last_name l p) as [name|].
  - unfold set_name, Vars.update.
    destruct (Nat.eqb_spec p q) as [->|]; simpl; reflexivity.
  - unfold set_name, Vars.update.
    destruct (Nat.eqb_spec p q) as [->|]; simpl; reflexivity.
Qed.

Lemma last_name_none l p : ~ In p (map snd l) -> last_name l p = None.
Proof.
  induction l as [|[path q] l IH]; intros H; [reflexivity|].
  simpl in *. rewrite IH by tauto.
  destruct (Nat.eqb_spec p q); [subst; tauto|reflexivity].
Qed.

(** [parameters()] lists the [Var]-valued attributes of the node, in
    [__dict__] order, and then the parameters of its [Module]-valued
    attributes, in order; the list does not depend on the heap.  The call
    renames parameters only: data and gradient flag of every [Var] are
    kept, and a [Var] that is not listed is untouched. *)
Theorem parameters_preorder (cls : pyclass) (dict : list (string * value))
  (sigma : store) :
  fst (parameters (Mod cls dict) sigma)
  = own_var_ids dict
    ++ flat_map (fun kv => match snd kv with
                           | VModule c => fst (parameters c sigma)
                           | _ => []
                           end) dict /\
  (forall sigma', fst (parameters (Mod cls dict) sigma')
                  = fst (parameters (Mod cls dict) sigma)) /\
  (forall p, var_data (snd (parameters (Mod cls dict) sigma) p) = var_data (sigma p) /\
             var_stop_grad (snd (parameters (Mod cls dict) sigma) p)
             = var_stop_grad (sigma p)) /\
  (forall p, ~ In p (fst (parameters (Mod cls dict) sigma)) ->
             snd (parameters (Mod cls dict) sigma) p = sigma p).
Proof.
  rewrite !parameters_spec. cbn [fst snd]. split; [|split; [|split]].
  - rewrite named_params_eq, map_app, own_vars_ids. f_equal.
    induction dict as [|[k v] rest IH]; [reflexivity|].
    destruct v; simpl; rewrite ?IH; try reflexivity.
    rewrite map_app, IH, parameters_spec. cbn [fst].
    rewrite (named_params_ids m [k] []). reflexivity.
  - intros sigma'. rewrite parameters_spec. reflexivity.
  - intros p. rewrite name_all_last.
    destruct (last_name _ p); split; reflexivity.
  - intros p Hp. rewrite name_all_last, last_name_none by assumption. reflexivity.
Qed.

(** Names are stable: a second call of [parameters()] returns the same
    list and changes no [Var]. *)
Theorem parameters_idempotent (m : Module) (sigma : store) :
  let first := parameters m sigma in
  let second := parameters m (snd first) in
  fst second = fst first /\ forall p, snd second p = snd first p.
Proof.
  cbv zeta. rewrite !parameters_spec. cbn [fst snd].
  split; [reflexivity|]. intros p.
  rewrite (name_all_last _ (name_all _ sigma)).
  rewrite (name_all_last _ sigma).
  destruct (last_name (named_params [] m) p); reflexivity.
Qed.

Lemma rename_vars_id m : rename_vars (fun p => p) m = m.
Proof.
  induction m as [cls dict IH] using Module_tree_ind.
  rewrite rename_vars_eq. f_equal.
  induction dict as [|[k v] rest IHd]; [reflexivity|].
  assert (Hrest : forall k c, In (k, VModule c) rest -> rename_vars (fun p => p) c = c)
    by (intros; apply (IH k0); right; assumption).
  rewrite rename_vars_items_cons, (IHd Hrest).
  destruct v; simpl; try reflexivity.
  rewrite (IH k m (or_introl eq_refl)). reflexivity.
Qed.

(** In a tree whose attribute names are identifiers and that holds no
    [Sequential], the name that [parameters()] gives to a parameter is
    resolved by [load_parameters] to that very parameter; hence distinct
    parameters get distinct names. *)
Theorem parameter_names_resolve (extra_attr : value -> string -> option value)
  (np_int : string -> outcome Z) (m : Module) (sigma : store) :
  plain_tree m = true ->
  let named := snd (parameters m sigma) in
  (forall p x, In p (fst (parameters m sigma)) ->
     target_var extra_attr np_int m (var_name (named p), x) = Some p) /\
  (forall p q, In p (fst (parameters m sigma)) -> In q (fst (parameters m sigma)) ->
     var_name (named p) = var_name (named q) -> p = q).
Proof.
  intros Hplain. cbv zeta. rewrite parameters_spec. cbn [fst snd].
  assert (H : forall p x, In p (map snd (named_params [] m)) ->
            target_var extra_attr np_int m
              (var_name (name_all (named_params [] m) sigma p), x) = Some p).
  { intros p x Hp.
    pose proof (target_of_saved_name extra_attr np_int (fun p => p) m sigma p x
                  Hplain Hp) as Ht.
    rewrite rename_vars_id in Ht. exact Ht. }
  split; [exact H|].
  intros p q Hp Hq Heq.
  pose proof (H p POther Hp) as H1. pose proof (H q POther Hq) as H2.
  rewrite Heq in H1. congruence.
Qed.

Lemma parameter_names_resolve_witness :
  target_var Examples.no_extra Examples.int_of_segment Examples.net ("fc.bias", POther)
  = Some 1%nat.
Proof.
  apply (proj1 (parameter_names_resolve Examples.no_extra Examples.int_of_segment
                  Examples.net Examples.zeros eq_refl) 1%nat POther).
  right. left. reflexivity.
Defined.

End ParametersFacts.

(** ** [eval] and [train], continued *)

Section TrainingMoreFacts.
Import Vars Tree Training Checkpoint Traversal.

Lemma var_data_stop_grad sigma q p :
  var_data (stop_grad sigma q p) = var_data (sigma p).
Proof.
  unfold stop_grad, Vars.update. destruct (Nat.eqb_spec p q) as [->|]; reflexivity.
Qed.

Lemma var_data_start_grad sigma q p :
  var_data (start_grad sigma q p) = var_data (sigma p).
Proof.
  unfold start_grad, detach_inplace, swap_with_temp, clone, stop_grad, Vars.update.
  destruct (Nat.eqb_spec p q) as [->|]; simpl; [|reflexivity].
  rewrite Nat.eqb_refl. reflexivity.
Qed.

Lemma var_data_eval_loop ps : forall bk sigma p,
  var_data (snd (fold_left eval_step ps (bk, sigma)) p) = var_data (sigma p).
Proof.
  induction ps as [|q ps IH]; intros bk sigma p; [reflexivity|].
  cbn [fold_left]. unfold eval_step at 2. rewrite IH. apply var_data_stop_grad.
Qed.

Lemma var_data_train_loop bk ps : forall sigma p,
  var_data (fold_left (train_step bk) ps sigma p) = var_data (sigma p).
Proof.
  induction ps as [|q ps IH]; intros sigma p; [reflexivity|].
  cbn [fold_left]. rewrite IH. unfold train_step.
  destruct (bk !! q) as [[|]|]; try reflexivity. apply var_data_start_grad.
Qed.

(** Whenever they return, [eval] never enables gradient tracking and
    [train] never disables it, on any [Var]; neither changes the data of a
    [Var]. *)
Theorem eval_train_monotone (m m' : Module) (sigma sigma' : store) :
  (eval m sigma = Return (m', sigma') ->
   forall p, (is_stop_grad sigma p = true -> is_stop_grad sigma' p = true) /\
             var_data (sigma' p) = var_data (sigma p)) /\
  (train m sigma = Return (m', sigma') ->
   forall p, (is_stop_grad sigma' p = true -> is_stop_grad sigma p = true) /\
             var_data (sigma' p) = var_data (sigma p)).
Proof.
  split.
  - unfold eval.
    set (self := match dict_get (dict_of (set_is_train false m)) "backup_grad_state" with
                 | Some _ => set_is_train false m
                 | None => setattr (set_is_train false m) "backup_grad_state" (VBackup ∅)
                 end).
    rewrite parameters_spec.
    set (l := named_params [] self).
    destruct (map snd l) as [|q ps] eqn:Hps.
    + intros [= _ <-] p. rewrite is_stop_grad_name_all, var_data_name_all. auto.
    + destruct (backup_grad_state self) as [bk|e]; [|discriminate]. cbn [bind].
      pose proof (eval_loop_spec (q :: ps) bk (name_all l sigma)) as Hloop.
      pose proof (var_data_eval_loop (q :: ps) bk (name_all l sigma)) as Hdata.
      destruct (fold_left eval_step (q :: ps) (bk, name_all l sigma)) as [bk' sg] eqn:Hf.
      intros [= _ <-] p. destruct (Hloop p) as [_ Hsg].
      specialize (Hdata p). simpl snd in Hdata.
      rewrite Hdata, var_data_name_all. split; [|reflexivity].
      rewrite Hsg, is_stop_grad_name_all.
      destruct (in_dec Nat.eq_dec p (q :: ps)); auto.
  - unfold train.
    destruct (dict_get (dict_of (set_is_train true m)) "backup_grad_state") as [v|].
    2:{ intros [= _ <-] p. auto. }
    rewrite parameters_spec.
    set (l := named_params [] (set_is_train true m)).
    destruct (map snd l) as [|q ps] eqn:Hps.
    + intros [= _ <-] p. rewrite is_stop_grad_name_all, var_data_name_all. auto.
    + destruct (backup_grad_state (set_is_train true m)) as [bk|e]; [|discriminate].
      cbn [bind]. intros [= _ <-] p.
      change (fold_left (train_step bk) ps (train_step bk (name_all l sigma) q))
        with (fold_left (train_step bk) (q :: ps) (name_all l sigma)).
      rewrite (var_data_train_loop bk (q :: ps)), var_data_name_all.
      split; [|reflexivity].
      rewrite train_loop_spec, is_stop_grad_name_all.
      destruct (in_dec Nat.eq_dec p (q :: ps)); [|auto].
      destruct (bk !! p) as [[|]|]; auto. discriminate.
Qed.

Lemma eval_train_monotone_witness :
  exists m1 sigma1,
    eval Examples.net Examples.frozen_bias = Return (m1, sigma1) /\
    is_stop_grad sigma1 1%nat = true.
Proof.
  eexists _, _. split; [reflexivity|].
  apply (proj1 (eval_train_monotone Examples.net _ Examples.frozen_bias _) eq_refl 1%nat).
  reflexivity.
Defined.

(** [train()] on a root that has no backup map (a model that was never put
    in evaluation mode) touches no [Var]: no flag, no data, no name. *)
Theorem train_without_backup (m : Module) (sigma : store) :
  dict_get (dict_of m) "backup_grad_state" = None ->
  train m sigma = Return (set_is_train true m, sigma).
Proof.
  intros H. unfold train.
  destruct m as [cls dict]. rewrite set_is_train_eq. simpl dict_of in *.
  rewrite dict_get_set_is_train_items, H. reflexivity.
Qed.

Lemma train_without_backup_witness :
  train Examples.net Examples.frozen_bias
  = Return (set_is_train true Examples.net, Examples.frozen_bias).
Proof. apply train_without_backup. reflexivity. Defined.

Lemma var_name_eval_loop ps : forall bk sigma p,
  var_name (snd (fold_left eval_step ps (bk, sigma)) p) = var_name (sigma p).
Proof.
  induction ps as [|q ps IH]; intros bk sigma p; [reflexivity|].
  cbn [fold_left]. unfold eval_step at 2. rewrite IH.
  unfold stop_grad, Vars.update. destruct (Nat.eqb_spec p q) as [->|]; reflexivity.
Qed.

Lemma eval_loop_fixed ps : forall bk sigma,
  (forall p, In p ps -> bk !! p <> None /\ is_stop_grad sigma p = true) ->
  fst (fold_left eval_step ps (bk, sigma)) = bk /\
  forall p, snd (fold_left eval_step ps (bk, sigma)) p = sigma p.
Proof.
  induction ps as [|q ps IH]; intros bk sigma H; [split; reflexivity|].
  cbn [fold_left]. unfold eval_step at 2 4.
  destruct (H q (or_introl eq_refl)) as [Hbk Hq].
  destruct (bk !! q) as [b|] eqn:Hb; [clear Hbk|congruence].
  assert (Hsame : forall p, stop_grad sigma q p = sigma p).
  { intros p. unfold stop_grad, Vars.update.
    destruct (Nat.eqb_spec p q) as [->|]; [|reflexivity].
    unfold is_stop_grad in Hq. destruct (sigma q) as [n g d]. simpl in *.
    subst g. reflexivity. }
  destruct (IH bk (stop_grad sigma q)) as [H1 H2].
  { intros p Hp. destruct (H p (or_intror Hp)) as [Hp1 Hp2]. split; [assumption|].
    unfold is_stop_grad in *. rewrite Hsame. assumption. }
  split; [assumption|]. intros p. rewrite H2. apply Hsame.
Qed.

Lemma eval_twice_aux (self : Module) (sigma : store) (m1 : Module) (sigma1 : store) :
  set_is_train false self = self ->
  dict_get (dict_of self) "backup_grad_state" <> None ->
  eval self sigma = Return (m1, sigma1) ->
  exists sigma2,
    eval m1 sigma1 = Return (m1, sigma2) /\ forall p, sigma2 p = sigma1 p.
Proof.
  intros Hfix Hsome. unfold eval at 1. rewrite Hfix.
  destruct (dict_get (dict_of self) "backup_grad_state") as [v|] eqn:Hget;
    [clear Hsome|congruence].
  rewrite parameters_spec.
  set (l := named_params [] self).
  destruct (map snd l) as [|q ps] eqn:Hps.
  - intros [= <- <-]. exists (name_all l (name_all l sigma)).
    split.
    + unfold eval. rewrite Hfix, Hget, parameters_spec. fold l. rewrite Hps.
      reflexivity.
    + intros p. destruct l; [reflexivity|discriminate].
  - unfold backup_grad_state. rewrite Hget.
    destruct v as [| |b|bk| |]; try discriminate. cbn [bind].
    pose proof (eval_loop_spec (q :: ps) bk (name_all l sigma)) as Hloop.
    pose proof (var_name_eval_loop (q :: ps) bk (name_all l sigma)) as Hname.
    destruct (fold_left eval_step (q :: ps) (bk, name_all l sigma)) as [bk' sg] eqn:Hf.
    cbn [snd] in Hname. intros [= <- <-].
    set (m1 := setattr self "backup_grad_state" (VBackup bk')).
    assert (Hfix1 : set_is_train false m1 = m1).
    { subst m1. destruct self as [cls dict]. unfold setattr.
      rewrite set_is_train_eq in *. rewrite set_is_train_items_dict_set.
      injection Hfix as ->. reflexivity. }
    assert (Hget1 : dict_get (dict_of m1) "backup_grad_state" = Some (VBackup bk')).
    { subst m1. destruct self as [cls dict]. apply dict_get_dict_set. }
    assert (Hl1 : named_params [] m1 = l).
    { subst m1 l. apply named_params_setattr; [reflexivity|]. rewrite Hget. reflexivity. }
    assert (Hsg : forall p, name_all l sg p = sg p).
    { intros p. rewrite name_all_last. specialize (Hname p).
      rewrite name_all_last in Hname.
      destruct (last_name l p) as [name|]; [|reflexivity].
      simpl in Hname. destruct (sg p) as [n g d]. simpl in *. subst n. reflexivity. }
    destruct (eval_loop_fixed (q :: ps) bk' (name_all l sg)) as [Hbk Hst].
    { intros p Hp. destruct (Hloop p) as [Hb Hs]. split.
      - rewrite Hb. destruct (bk !! p); [discriminate|].
        destruct (in_dec Nat.eq_dec p (q :: ps)); [discriminate|contradiction].
      - rewrite is_stop_grad_name_all, Hs.
        destruct (in_dec Nat.eq_dec p (q :: ps)); [reflexivity|contradiction]. }
    exists (snd (fold_left eval_step (q :: ps) (bk', name_all l sg))). split.
    + unfold eval. rewrite Hfix1, Hget1, parameters_spec, Hl1, Hps.
      unfold backup_grad_state. rewrite Hget1. cbn [bind].
      destruct (fold_left eval_step (q :: ps) (bk', name_all l sg)) as [bk2 sg2].
      cbn [fst snd] in *. subst bk2. f_equal. f_equal.
      subst m1. destruct self as [cls dict]. unfold setattr.
      rewrite dict_set_dict_set. reflexivity.
    + intros p. rewrite Hst. apply Hsg.
Qed.

(** Calling [eval()] a second time changes nothing: the modes, the backup
    map and every [Var] are as the first call left them. *)
Theorem eval_idempotent (m : Module) (sigma : store) (m1 : Module) (sigma1 : store) :
  eval m sigma = Return (m1, sigma1) ->
  exists sigma2,
    eval m1 sigma1 = Return (m1, sigma2) /\ forall p, sigma2 p = sigma1 p.
Proof.
  intros H.
  set (self := match dict_get (dict_of (set_is_train false m)) "backup_grad_state" with
               | None => setattr (set_is_train false m) "backup_grad_state" (VBackup ∅)
               | Some _ => set_is_train false m
               end).
  assert (Hfix : set_is_train false self = self).
  { subst self.
    destruct (dict_get (dict_of (set_is_train false m)) "backup_grad_state");
      [apply set_is_train_twice|].
    destruct m as [cls dict]. rewrite set_is_train_eq. unfold setattr.
    rewrite set_is_train_eq, set_is_train_items_dict_set. do 2 f_equal.
    pose proof (set_is_train_twice false false (Mod cls dict)) as Ht.
    rewrite !set_is_train_eq in Ht. injection Ht as ->. reflexivity. }
  assert (Hsome : dict_get (dict_of self) "backup_grad_state" <> None).
  { subst self.
    destruct (dict_get (dict_of (set_is_train false m)) "backup_grad_state") eqn:Hg;
      [congruence|].
    destruct (set_is_train false m) as [cls dict]. simpl.
    rewrite dict_get_dict_set. discriminate. }
  assert (Heq : eval self sigma = eval m sigma).
  { unfold eval. rewrite Hfix.
    destruct (dict_get (dict_of self) "backup_grad_state"); [reflexivity|congruence]. }
  rewrite <- Heq in H. exact (eval_twice_aux self sigma m1 sigma1 Hfix Hsome H).
Qed.

Lemma eval_idempotent_witness :
  exists m1 sigma1 sigma2,
    eval Examples.net Examples.frozen_bias = Return (m1, sigma1) /\
    eval m1 sigma1 = Return (m1, sigma2) /\
    forall p, sigma2 p = sigma1 p.
Proof.
  eexists _, _.
  destruct (eval_idempotent Examples.net Examples.frozen_bias _ _ eq_refl)
    as [sigma2 [H1 H2]].
  exists sigma2. split; [reflexivity|]. split; assumption.
Defined.

End TrainingMoreFacts.

(** ** More on checkpoints *)

Section CheckpointMoreFacts.
Import Vars Tree Training Checkpoint.
Variable extra_attr : value -> string -> option value.
Variable np_int : string -> outcome Z.
Variable assign : store -> var_id -> ndarray -> store.

(** The native [assign] changes no [Var] but its own. *)
Hypothesis assign_other : forall sigma p a q, q <> p -> assign sigma p a q = sigma q.

Lemma load_one_return self n log sigma entry u st :
  load_one extra_attr np_int assign self (n, log, sigma) entry = (Return u, st) ->
  snd st = apply_entry extra_attr np_int assign self sigma entry /\
  exists l, snd (fst st) = log ++ l.
Proof.
  destruct entry as [key x]. unfold load_one, apply_entry, target_var. cbn [fst snd].
  destruct (resolve extra_attr np_int (VModule self) (split_dot key)) as [[v|]|e].
  - unfold assign_value.
    destruct v; try discriminate.
    destruct x; try discriminate; intros [= _ <-]; cbn [fst snd payload]; eauto.
  - intros [= _ <-]. cbn [fst snd]. eauto.
  - discriminate.
Qed.

Lemma load_one_raise self n log sigma entry e st :
  load_one extra_attr np_int assign self (n, log, sigma) entry = (Raise e, st) ->
  snd st = sigma /\ exists l, snd (fst st) = log ++ l.
Proof.
  destruct entry as [key x]. unfold load_one.
  destruct (resolve extra_attr np_int (VModule self) (split_dot key)) as [[v|]|e'].
  - destruct (assign_value assign sigma v x); [discriminate|].
    intros [= _ <-]. cbn [fst snd]. eauto.
  - discriminate.
  - intros [= _ <-]. cbn [fst snd]. split; [reflexivity|].
    exists []. rewrite app_nil_r. reflexivity.
Qed.

Lemma load_loop_prefix self params : forall n log sigma,
  let r := for_each_st (load_one extra_attr np_int assign self) params (n, log, sigma) in
  exists loaded rest l,
    params = loaded ++ rest /\
    snd (snd r) = apply_all extra_attr np_int assign self loaded sigma /\
    snd (fst (snd r)) = log ++ l /\
    (forall u, fst r = Return u -> rest = []).
Proof.
  induction params as [|e ps IH]; intros n log sigma.
  - exists [], [], []. cbn. rewrite app_nil_r. auto.
  - cbn [for_each_st].
    destruct (load_one extra_attr np_int assign self (n, log, sigma) e)
      as [[u|err] [[n1 log1] sigma1]] eqn:Hone.
    + destruct (load_one_return _ _ _ _ _ _ _ Hone) as [Hs [l1 Hl1]].
      cbn [fst snd] in Hs, Hl1. subst sigma1 log1.
      destruct (IH n1 (log ++ l1) (apply_entry extra_attr np_int assign self sigma e))
        as (loaded & rest & l2 & -> & Hst & Hlog & Hret).
      exists (e :: loaded), rest, (l1 ++ l2).
      split; [reflexivity|]. split; [exact Hst|].
      split; [rewrite Hlog, app_assoc; reflexivity|exact Hret].
    + destruct (load_one_raise _ _ _ _ _ _ _ Hone) as [Hs [l1 Hl1]].
      cbn [fst snd] in *. subst sigma1 log1.
      exists [], (e :: ps), l1. split; [reflexivity|]. split; [reflexivity|].
      split; [reflexivity|]. discriminate.
Qed.

Lemma load_parameters_prefix_aux self params log sigma :
  let r := load_parameters extra_attr np_int assign self params (log, sigma) in
  exists loaded rest l,
    params = loaded ++ rest /\
    snd (snd r) = apply_all extra_attr np_int assign self loaded sigma /\
    fst (snd r) = log ++ l /\
    (fst r = Return tt -> rest = []).
Proof.
  cbv zeta. unfold load_parameters.
  destruct (load_loop_prefix self params 0%nat log sigma)
    as (loaded & rest & l & Hsplit & Hst & Hlog & Hret).
  destruct (for_each_st (load_one extra_attr np_int assign self) params (0%nat, log, sigma))
    as [[u|err] [[n1 log1] sigma1]]; cbn [fst snd] in *.
  - exists loaded, rest. destruct n1; cbn [fst snd].
    + exists l. repeat split; try assumption. intros _. apply (Hret u). reflexivity.
    + eexists. split; [assumption|]. split; [assumption|].
      split; [rewrite Hlog, <- app_assoc; reflexivity|].
      intros _. apply (Hret u). reflexivity.
  - exists loaded, rest, l. repeat split; try assumption. discriminate.
Qed.

(** Whatever the mapping holds and whether the call returns or raises,
    [load_parameters] leaves the [Var]s as by assigning, in key order, the
    entries of an initial part of the mapping, which is the entire mapping
    when the call returns, and what was logged before stays at the head of
    the log.  Given that the native [assign] changes no [Var] but its own,
    a [Var] that no key of the mapping resolves to is untouched. *)
Theorem load_parameters_prefix (self : Module) (params : list (string * pvalue))
  (log : list log_entry) (sigma : store) :
  let r := load_parameters extra_attr np_int assign self params (log, sigma) in
  (exists loaded rest l,
     params = loaded ++ rest /\
     snd (snd r) = apply_all extra_attr np_int assign self loaded sigma /\
     fst (snd r) = log ++ l /\
     (fst r = Return tt -> rest = [])) /\
  (forall p, (forall e, In e params -> target_var extra_attr np_int self e <> Some p) ->
             snd (snd r) p = sigma p).
Proof.
  cbv zeta.
  destruct (load_parameters_prefix_aux self params log sigma)
    as (loaded & rest & l & Hsplit & Hst & Hlog & Hret).
  split; [exists loaded, rest, l; auto|].
  intros p Hp. rewrite Hst. apply apply_all_other; [exact assign_other|].
  intros e He. apply Hp. rewrite Hsplit. apply in_or_app. left. assumption.
Qed.

Lemma load_loop_app self xs ys st :
  for_each_st (load_one extra_attr np_int assign self) (xs ++ ys) st
  = match for_each_st (load_one extra_attr np_int assign self) xs st with
    | (Return _, st') => for_each_st (load_one extra_attr np_int assign self) ys st'
    | (Raise e, st') => (Raise e, st')
    end.
Proof.
  revert st. induction xs as [|x xs IH]; intros st; [reflexivity|].
  cbn [for_each_st app].
  destruct (load_one extra_attr np_int assign self st x) as [[u|e] st']; [apply IH|reflexivity].
Qed.

(** The call is not atomic.  On the first entry that it cannot handle (its
    key raises while it is resolved, or resolves to something that cannot
    be assigned the value), [load_parameters] raises: the entries before
    it stay loaded, those after it are never read, the entry has been
    reported as a success when its key resolved, and the tally of the
    failures so far is not logged. *)
Theorem load_parameters_stops (self : Module)
  (before after : list (string * pvalue)) (key : string) (x : pvalue)
  (log : list log_entry) (sigma : store) :
  Forall (fun e => loadable extra_attr np_int self e = true) before ->
  loadable extra_attr np_int self (key, x) = false ->
  load_parameters extra_attr np_int assign self (before ++ (key, x) :: after) (log, sigma)
  = match resolve extra_attr np_int (VModule self) (split_dot key) with
    | Raise e =>
      (Raise e,
       (log ++ map (entry_msg extra_attr np_int self) before,
        apply_all extra_attr np_int assign self before sigma))
    | Return _ =>
      (Raise AttributeError,
       (log ++ map (entry_msg extra_attr np_int self) before ++ [LogV (msg_success key)],
        apply_all extra_attr np_int assign self before sigma))
    end.
Proof.
  intros Hbefore Hbad. unfold load_parameters.
  rewrite load_loop_app, load_loop_loadable by assumption.
  cbn [for_each_st]. unfold loadable in Hbad. cbn [fst snd] in Hbad.
  unfold load_one.
  destruct (resolve extra_attr np_int (VModule self) (split_dot key)) as [[v|]|e];
    [|discriminate|reflexivity].
  assert (Ha : assign_value assign (apply_all extra_attr np_int assign self before sigma) v x
               = Raise AttributeError).
  { unfold assign_value. destruct v; try reflexivity.
    destruct x; try discriminate. reflexivity. }
  rewrite Ha. rewrite <- app_assoc. reflexivity.
Qed.

(** At a [Sequential], a key segment is an index into [layers], as Python
    indexes a sequence: a segment on which [np.int] raises makes the
    resolution raise that error (the key is not skipped), an index from
    [len(layers)] on is a resolution failure, an index in range selects a
    layer, also when it is negative (counting from the end), and an index
    below [-len(layers)] raises [IndexError]. *)
Theorem resolve_sequential (v : value) (items : list value) (k : string)
  (rest : list string) :
  isinstance_Sequential v = true ->
  py_getattr extra_attr v "layers" = Some (VTuple items) ->
  let n := Z.of_nat (length items) in
  match np_int k with
  | Raise e => resolve extra_attr np_int v (k :: rest) = Raise e
  | Return i =>
    (n <= i -> resolve extra_attr np_int v (k :: rest) = Return None) /\
    (0 <= i < n ->
     exists v', nth_error items (Z.to_nat i) = Some v' /\
                resolve extra_attr np_int v (k :: rest) = resolve extra_attr np_int v' rest) /\
    (- n <= i < 0 ->
     exists v', nth_error items (Z.to_nat (i + n)) = Some v' /\
                resolve extra_attr np_int v (k :: rest) = resolve extra_attr np_int v' rest) /\
    (i < - n -> resolve extra_attr np_int v (k :: rest) = Raise IndexError)
  end.
Proof.
  intros Hseq Hlayers n. cbn [resolve]. rewrite Hseq.
  destruct (np_int k) as [i|e]; [|reflexivity]. cbn [bind].
  unfold seq_getitem, layers. rewrite Hlayers. cbn [bind]. fold n.
  assert (Hnth : forall j, 0 <= j < n -> exists v', nth_error items (Z.to_nat j) = Some v').
  { intros j Hj. destruct (nth_error items (Z.to_nat j)) as [v'|] eqn:E; [eauto|].
    apply nth_error_None in E. lia. }
  split; [|split; [|split]].
  - intros H. destruct (Z.geb_spec i n); [reflexivity|lia].
  - intros H. destruct (Z.geb_spec i n); [lia|].
    destruct (Z.ltb_spec i 0); [lia|].
    destruct (Z.leb_spec 0 i); [|lia]. destruct (Z.ltb_spec i n); [|lia].
    destruct (Hnth i H) as [v' Hv']. exists v'. rewrite Hv'. split; reflexivity.
  - intros H. destruct (Z.geb_spec i n); [lia|].
    destruct (Z.ltb_spec i 0); [|lia].
    destruct (Z.leb_spec 0 (i + n)); [|lia]. destruct (Z.ltb_spec (i + n) n); [|lia].
    destruct (Hnth (i + n)) as [v' Hv']; [lia|].
    exists v'. rewrite Hv'. split; reflexivity.
  - intros H. destruct (Z.geb_spec i n); [lia|].
    destruct (Z.ltb_spec i 0); [|lia].
    destruct (Z.leb_spec 0 (i + n)); [lia|]. reflexivity.
Qed.

Lemma dict_set_keys_nodup {A} (d : list (string * A)) k v :
  List.NoDup (map fst d) -> List.NoDup (map fst (dict_set d k v)).
Proof.
  induction d as [|[k' v'] rest IH]; intros H.
  - simpl. constructor; [intros []|constructor].
  - simpl in *. inversion H as [|? ? Hk Hrest]; subst.
    destruct (String.eqb_spec k' k) as [->|Hne]; simpl; [constructor; assumption|].
    constructor; [|apply IH; assumption].
    intros Hin. apply Hk. apply in_map_iff in Hin. destruct Hin as [[k1 x] [Hk1 Hin]].
    simpl in Hk1. subst k1.
    destruct (in_dict_set _ _ _ _ _ Hin) as [H'|[-> _]]; [|contradiction].
    apply in_map_iff. exists (k', x). split; [reflexivity|assumption].
Qed.

Lemma build_params_dict_nodup sigma ps : forall d,
  List.NoDup (map fst d) -> List.NoDup (map fst (build_params_dict sigma ps d)).
Proof.
  induction ps as [|q ps IH]; intros d H; [assumption|].
  unfold build_params_dict in *. simpl. apply IH. apply dict_set_keys_nodup. assumption.
Qed.

(** [save] writes one entry per parameter name: the keys of the mapping
    are distinct, every entry holds the array data of a parameter under
    the name that [parameters()] gave it, and, when the attribute names are
    identifiers and no node is a [Sequential], every parameter is saved
    under its own name.  No other file is touched; the [Var]s are renamed
    by [parameters()] and otherwise unchanged, also when the file cannot
    be opened, in which case [OSError] is raised and nothing is written. *)
Theorem save_mapping (writable : string -> bool) (m : Module) (path : string)
  (fs : gmap string file) (sigma : store) :
  let params := fst (parameters m sigma) in
  let sigma' := snd (parameters m sigma) in
  exists d,
    save writable m path (fs, sigma)
    = (if writable path
       then (Return tt, (<[path := PickleFile d]> fs, sigma'))
       else (Raise OSError, (fs, sigma'))) /\
    List.NoDup (map fst d) /\
    (forall k x, In (k, x) d ->
       exists p, In p params /\ k = var_name (sigma' p) /\
                 x = PArray (var_data (sigma p))) /\
    (plain_tree m = true ->
     forall p, In p params -> In (var_name (sigma' p), PArray (var_data (sigma p))) d).
Proof.
  cbv zeta. rewrite parameters_spec. cbn [fst snd].
  set (l := named_params [] m). set (sigma' := name_all l sigma).
  exists (build_params_dict sigma' (map snd l) []).
  split; [|split; [|split]].
  - unfold save. rewrite parameters_spec. fold l sigma'.
    destruct (writable path); reflexivity.
  - apply build_params_dict_nodup. constructor.
  - intros k x Hin.
    destruct (build_params_dict_in _ _ _ _ _ Hin) as [[]|(p & Hp & -> & ->)].
    exists p. split; [assumption|]. split; [reflexivity|].
    unfold sigma'. rewrite var_data_name_all. reflexivity.
  - intros Hplain p Hp.
    destruct (build_params_dict_has_key sigma' (map snd l) [] p Hp) as [x Hx].
    destruct (build_params_dict_in _ _ _ _ _ Hx) as [[]|(q & Hq & Hname & ->)].
    assert (Hpq : p = q).
    { pose proof (target_of_saved_name extra_attr np_int (fun p => p) m sigma p POther
                    Hplain Hp) as H1.
      pose proof (target_of_saved_name extra_attr np_int (fun p => p) m sigma q POther
                    Hplain Hq) as H2.
      fold l sigma' in H1, H2. rewrite Hname in H1. cbv beta in H2. congruence. }
    subst q. unfold sigma' in Hx at 2. rewrite var_data_name_all in Hx. exact Hx.
Qed.

End CheckpointMoreFacts.

(** ** More on the scopes *)

Section ScopeMoreFacts.
Import FlagScope ScopeObject.
Context {V : Type}.
Variable is_flag : string -> bool.
Variable accepts : string -> V -> bool.

Lemma valid_overridden kw : forall fl : @flags V,
  valid is_flag accepts fl ->
  first_failure is_flag accepts kw = None ->
  valid is_flag accepts (overridden kw fl).
Proof.
  induction kw as [|[k v] rest IH]; intros fl Hvalid Hok; [assumption|].
  simpl in Hok.
  destruct (is_flag k) eqn:Hflag; [|discriminate].
  destruct (accepts k v) eqn:Hacc; [|discriminate]. simpl in Hok.
  change (overridden ((k, v) :: rest) fl) with (overridden rest (update fl k v)).
  apply IH; [|assumption].
  intros k' Hk'. unfold update. destruct (String.eqb_spec k' k) as [->|]; auto.
Qed.

Lemma enter_ok (self : @flag_scope V) (fl0 : @flags V) :
  List.NoDup (map fst (jt_flags self)) ->
  valid is_flag accepts fl0 ->
  first_failure is_flag accepts (jt_flags self) = None ->
  exists bk,
    enter is_flag accepts self fl0
    = (Return tt, (mk_flag_scope (jt_flags self) (Some bk),
                   overridden (jt_flags self) fl0)) /\
    backup_of is_flag accepts fl0 bk /\
    (forall k, In k (map fst bk) <-> In k (map fst (jt_flags self))).
Proof.
  intros Hnd Hvalid Hok.
  destruct (apply_flags_spec is_flag accepts fl0 (jt_flags self) Hvalid [] fl0)
    as (bk & fl1 & Hrun & Hbk & Hout & Hdone); auto.
  { intros k v []. }
  rewrite Hok in Hrun. destruct (Hdone Hok) as [-> Hdom].
  exists bk. split; [|split; [assumption|]].
  - unfold enter. rewrite Hrun. reflexivity.
  - intros k. rewrite Hdom. simpl. tauto.
Qed.

Lemma with_flag_scope_any {A : Type} (kw : list (string * V))
  (body : @flags V -> outcome A * @flags V) (fl0 : @flags V) :
  List.NoDup (map fst kw) ->
  valid is_flag accepts fl0 ->
  exists r fl_end,
    with_flag_scope is_flag accepts kw body fl0 = (r, fl_end) /\
    (forall k, In k (map fst kw) -> fl_end k = fl0 k) /\
    match first_failure is_flag accepts kw with
    | None => r = fst (body (overridden kw fl0)) /\
              forall k, ~ In k (map fst kw) ->
                        fl_end k = snd (body (overridden kw fl0)) k
    | Some e => r = Raise e /\ forall k, fl_end k = fl0 k
    end.
Proof.
  intros Hnd Hvalid.
  destruct (apply_flags_spec is_flag accepts fl0 kw Hvalid [] fl0)
    as (bk & fl1 & Hrun & Hbk & Hout & Hok); auto.
  { intros k v []. }
  unfold with_flag_scope, enter. cbn [FlagScope.jt_flags init]. rewrite Hrun.
  destruct (first_failure is_flag accepts kw) as [e|].
  - unfold exit. cbn [flags_bk].
    destruct (restore_spec is_flag accepts fl0 bk fl1 Hbk) as (fl2 & Hres & Hin & Hnin).
    rewrite Hres.
    assert (Hall : forall k, fl2 k = fl0 k).
    { intros k. destruct (in_dec string_dec k (map fst bk)) as [Hk|Hk]; [auto|].
      rewrite Hnin by assumption. auto. }
    exists (Raise e), fl2. split; [reflexivity|]. split; [intros; apply Hall|].
    split; [reflexivity|exact Hall].
  - destruct (Hok eq_refl) as [-> Hdom].
    destruct (body (overridden kw fl0)) as [r fl2]. unfold exit. cbn [flags_bk].
    destruct (restore_spec is_flag accepts fl0 bk fl2 Hbk) as (fl3 & Hres & Hin & Hnin).
    rewrite Hres. exists r, fl3. split; [reflexivity|]. split.
    + intros k Hk. apply Hin. apply Hdom. right. assumption.
    + split; [reflexivity|]. intros k Hk. apply Hnin. rewrite Hdom. simpl. tauto.
Qed.

(** Scopes nest when each [with] has its own [flag_scope] instance: the
    body runs with the overrides of the outer and then of the inner scope
    applied, and when both scopes have exited every flag that either of
    them overrides has the value it had before the outer scope was
    entered, also when the inner scope fails to apply its overrides. *)
Theorem flag_scope_nested {A : Type} (kw1 kw2 : list (string * V))
  (body : @flags V -> outcome A * @flags V) (fl0 : @flags V) :
  List.NoDup (map fst kw1) ->
  List.NoDup (map fst kw2) ->
  valid is_flag accepts fl0 ->
  first_failure is_flag accepts kw1 = None ->
  exists r fl_end,
    with_flag_scope is_flag accepts kw1 (with_flag_scope is_flag accepts kw2 body) fl0
    = (r, fl_end) /\
    (forall k, In k (map fst kw1) \/ In k (map fst kw2) -> fl_end k = fl0 k) /\
    match first_failure is_flag accepts kw2 with
    | None =>
      let inside := overridden kw2 (overridden kw1 fl0) in
      r = fst (body inside) /\
      forall k, ~ In k (map fst kw1) -> ~ In k (map fst kw2) ->
                fl_end k = snd (body inside) k
    | Some e => r = Raise e /\ forall k, fl_end k = fl0 k
    end.
Proof.
  intros Hnd1 Hnd2 Hvalid Hok1.
  destruct (with_flag_scope_any kw1 (with_flag_scope is_flag accepts kw2 body) fl0
              Hnd1 Hvalid) as (r & fl_end & Hrun & Hkeys1 & Hrest).
  rewrite Hok1 in Hrest. destruct Hrest as [Hr Hout].
  destruct (with_flag_scope_any kw2 body (overridden kw1 fl0) Hnd2
              (valid_overridden kw1 fl0 Hvalid Hok1))
    as (r2 & fl_mid & Hrun2 & Hkeys2 & Hrest2).
  rewrite Hrun2 in Hr, Hout. cbn [fst snd] in Hr, Hout. subst r.
  exists r2, fl_end. split; [exact Hrun|]. split.
  - intros k Hk.
    destruct (in_dec string_dec k (map fst kw1)) as [H1|H1]; [auto|].
    destruct Hk as [Hk|Hk]; [contradiction|].
    rewrite Hout by assumption. rewrite Hkeys2 by assumption.
    apply (overridden_other is_flag accepts). assumption.
  - destruct (first_failure is_flag accepts kw2) as [e|].
    + destruct Hrest2 as [-> Hall]. split; [reflexivity|].
      intros k. destruct (in_dec string_dec k (map fst kw1)) as [H1|H1]; [auto|].
      rewrite Hout by assumption. rewrite Hall. apply (overridden_other is_flag accepts). assumption.
    + destruct Hrest2 as [-> Hout2]. cbv zeta. split; [reflexivity|].
      intros k H1 H2. rewrite Hout by assumption. apply Hout2. assumption.
Qed.

(** One [flag_scope] instance keeps one backup: entering the same object
    again while it is active replaces the backup by the overridden values.
    After [with self: with self: body] both exits have restored those, so
    that every override is still in force when the outer scope has exited:
    the values from before the outer scope are lost. *)
Theorem flag_scope_reentered {A : Type} (kw : list (string * V))
  (body : @flags V -> outcome A * @flags V) (fl0 : @flags V) :
  List.NoDup (map fst kw) ->
  valid is_flag accepts fl0 ->
  first_failure is_flag accepts kw = None ->
  let inside := overridden kw (overridden kw fl0) in
  exists self_end fl_end,
    reentered is_flag accepts (init kw) body fl0
    = (fst (body inside), (self_end, fl_end)) /\
    (forall k v, In (k, v) kw -> fl_end k = v) /\
    (forall k, ~ In k (map fst kw) -> fl_end k = snd (body inside) k).
Proof.
  intros Hnd Hvalid Hok inside.
  destruct (enter_ok (init kw) fl0 Hnd Hvalid Hok) as (bk1 & Hrun1 & Hbk1 & Hdom1).
  cbn [FlagScope.jt_flags init] in Hrun1, Hdom1.
  set (fl1 := overridden kw fl0) in *.
  assert (Hvalid1 : valid is_flag accepts fl1) by (apply valid_overridden; assumption).
  destruct (enter_ok (mk_flag_scope kw (Some bk1)) fl1 Hnd Hvalid1 Hok)
    as (bk2 & Hrun2 & Hbk2 & Hdom2).
  cbn [FlagScope.jt_flags] in Hrun2, Hdom2.
  unfold reentered, with_object at 1. rewrite Hrun1.
  unfold with_object. rewrite Hrun2. unfold plain_body. fold inside.
  destruct (body inside) as [r fl3]. unfold exit. cbn [flags_bk fst snd].
  destruct (restore_spec is_flag accepts fl1 bk2 fl3 Hbk2) as (fl4 & Hres4 & Hin4 & Hout4).
  rewrite Hres4. cbn [flags_bk].
  destruct (restore_spec is_flag accepts fl1 bk2 fl4 Hbk2) as (fl5 & Hres5 & Hin5 & Hout5).
  rewrite Hres5.
  exists (mk_flag_scope kw (Some bk2)), fl5. split; [reflexivity|]. split.
  - intros k v Hkv. rewrite Hin5.
    + unfold fl1. apply (overridden_spec is_flag accepts); assumption.
    + apply Hdom2. apply in_map_iff. exists (k, v). split; [reflexivity|assumption].
  - intros k Hk. rewrite Hout5, Hout4; [reflexivity| |]; rewrite Hdom2; assumption.
Qed.

Lemma enter_fail (kw : list (string * V)) (fl0 : @flags V) (e : exn) :
  List.NoDup (map fst kw) ->
  valid is_flag accepts fl0 ->
  first_failure is_flag accepts kw = Some e ->
  exists self' fl1,
    enter is_flag accepts (init kw) fl0 = (Raise e, (self', fl1)) /\
    forall k, fl1 k = fl0 k.
Proof.
  intros Hnd Hvalid Hfail.
  destruct (apply_flags_spec is_flag accepts fl0 kw Hvalid [] fl0)
    as (bk & fl1 & Hrun & Hbk & Hout & _); auto.
  { intros k v []. }
  rewrite Hfail in Hrun.
  unfold enter. cbn [FlagScope.jt_flags init]. rewrite Hrun.
  unfold exit. cbn [flags_bk].
  destruct (restore_spec is_flag accepts fl0 bk fl1 Hbk) as (fl2 & Hres & Hin & Hnin).
  rewrite Hres. exists (mk_flag_scope kw (Some bk)), fl2. split; [reflexivity|].
  intros k. destruct (in_dec string_dec k (map fst bk)) as [Hk|Hk]; [auto|].
  rewrite Hnin by assumption. auto.
Qed.

(** A [log_capture_scope] always gives the capture back.  When its flags
    cannot be applied, [__enter__] stops the capture that it started,
    clears [single_log_capture], leaves every flag at its prior value and
    lets the error through.  Otherwise [__exit__], whatever the body did to
    the flags and the logger, restores the overridden flags, stops the
    capture, moves the buffered lines to [self.logs] (the list that
    [__enter__] returned) and clears [single_log_capture], so that another
    scope can be entered. *)
Theorem log_capture_releases (kw : list (string * V)) (w : @LogCapture.world V) :
  List.NoDup (map fst kw) ->
  valid is_flag accepts (LogCapture.w_flags w) ->
  LogCapture.single_log_capture w = false ->
  match first_failure is_flag accepts kw with
  | Some e =>
    exists self' w',
      LogCapture.enter is_flag accepts (LogCapture.init kw) w = (Raise e, (self', w')) /\
      LogCapture.single_log_capture w' = false /\
      LogCapture.log_calls w'
      = LogCapture.log_calls w
        ++ [LogCapture.LogCaptureStart; LogCapture.LogCaptureStop] /\
      forall k, LogCapture.w_flags w' k = LogCapture.w_flags w k
  | None =>
    exists self1 w1,
      LogCapture.enter is_flag accepts (LogCapture.init kw) w = (Return [], (self1, w1)) /\
      LogCapture.w_flags w1 = overridden kw (LogCapture.w_flags w) /\
      forall w2 : @LogCapture.world V,
      exists self2 w3,
        LogCapture.exit is_flag accepts self1 w2 = (Return tt, (self2, w3)) /\
        LogCapture.logs self2 = Some (LogCapture.log_buffer w2) /\
        LogCapture.single_log_capture w3 = false /\
        LogCapture.log_calls w3
        = LogCapture.log_calls w2
          ++ [LogCapture.LogCaptureStop; LogCapture.LogCaptureRead] /\
        (forall k, In k (map fst kw) ->
                   LogCapture.w_flags w3 k = LogCapture.w_flags w k) /\
        (forall k, ~ In k (map fst kw) ->
                   LogCapture.w_flags w3 k = LogCapture.w_flags w2 k)
  end.
Proof.
  intros Hnd Hvalid Hfree.
  destruct (first_failure is_flag accepts kw) as [e|] eqn:Hff.
  - destruct (enter_fail kw (LogCapture.w_flags w) e Hnd Hvalid Hff)
      as (fs' & fl1 & Hrun & Hall).
    unfold LogCapture.enter. rewrite Hfree.
    cbn [LogCapture.fs LogCapture.init]. rewrite Hrun.
    eexists _, _. split; [reflexivity|]. cbn.
    split; [reflexivity|]. split; [rewrite <- app_assoc; reflexivity|exact Hall].
  - destruct (enter_ok (init kw) (LogCapture.w_flags w) Hnd Hvalid Hff)
      as (bk & Hrun & Hbk & Hdom).
    cbn [FlagScope.jt_flags init] in Hrun, Hdom.
    unfold LogCapture.enter. rewrite Hfree.
    cbn [LogCapture.fs LogCapture.init]. rewrite Hrun.
    eexists _, _. split; [reflexivity|]. split; [reflexivity|].
    intros w2. unfold LogCapture.exit, exit. cbn [LogCapture.fs flags_bk LogCapture.logs].
    destruct (restore_spec is_flag accepts (LogCapture.w_flags w) bk
                (LogCapture.w_flags w2) Hbk) as (fl3 & Hres & Hin & Hout).
    rewrite Hres. eexists _, _. split; [reflexivity|]. cbn.
    split; [reflexivity|]. split; [reflexivity|]. split; [reflexivity|].
    split.
    + intros k Hk. apply Hin, Hdom, Hk.
    + intros k Hk. apply Hout. rewrite Hdom. exact Hk.
Qed.

End ScopeMoreFacts.

Section FurtherExamples.
Import Vars Tree Training Checkpoint FlagScope ScopeObject Examples.

(** The key ["fc"] resolves to a sub-module: the call raises after the
    entry before it has been loaded. *)
Lemma load_parameters_stops_witness :
  let r := load_parameters no_extra int_of_segment assign_data_only net
             [("fc.weight", PArray ones); ("fc", PArray ones); ("fc.bias", PArray ones)]
             ([], zeros) in
  fst r = Raise AttributeError /\
  fst (snd r) = [LogV "load parameter fc.weight success ...";
                 LogV "load parameter fc success ..."] /\
  var_data (snd (snd r) 0%nat) = ones /\
  var_data (snd (snd r) 1%nat) = NdArray "float32" [2] [0; 0].
Proof.
  cbv zeta.
  assert (Hbefore : Forall (fun e => loadable no_extra int_of_segment net e = true)
                      [("fc.weight", PArray ones)]) by (repeat constructor).
  pose proof (load_parameters_stops no_extra int_of_segment assign_data_only net
                [("fc.weight", PArray ones)]
                [("fc.bias", PArray ones)] "fc" (PArray ones) [] zeros
                Hbefore eq_refl) as H.
  cbn [app] in H. rewrite H. repeat split.
Defined.

(** The key ["fc"] resolves to a sub-module and ends the call; no key
    resolves to the bias, which is untouched. *)
Lemma load_parameters_prefix_witness :
  let r := load_parameters no_extra int_of_segment assign_data_only net
             [("fc.weight", PArray ones); ("fc", PArray ones)] ([], zeros) in
  snd (snd r) 1%nat = zeros 1%nat.
Proof.
  apply (proj2 (load_parameters_prefix no_extra int_of_segment assign_data_only
                  assign_data_only_other net
                  [("fc.weight", PArray ones); ("fc", PArray ones)] [] zeros)).
  intros e [<-|[<-|[]]]; discriminate.
Defined.

(** In a [Sequential] of one layer, the key ["-1.weight"] reaches the
    weight of that layer. *)
Lemma resolve_sequential_witness :
  let seq := Mod (mkClass "Sequential" true) [("layers", VTuple [VModule linear])] in
  resolve no_extra int_of_segment (VModule seq) ["-1"; "weight"] = Return (Some (VVar 0%nat)).
Proof.
  intros seq.
  pose proof (resolve_sequential no_extra int_of_segment (VModule seq)
                [VModule linear] "-1" ["weight"] eq_refl eq_refl) as H.
  change (int_of_segment "-1") with (Return (-1) : outcome Z) in H.
  cbv beta iota zeta in H. destruct H as (_ & _ & H & _).
  destruct H as (v' & Hv & Hres); [simpl; lia|].
  rewrite Hres. simpl in Hv. injection Hv as <-. reflexivity.
Defined.

Lemma flag_scope_nested_witness :
  let is_flag : string -> bool := fun _ => true in
  let accepts : string -> Z -> bool := fun _ v => 0 <=? v in
  let fl0 : string -> Z := fun _ => 5 in
  let body : (string -> Z) -> outcome Z * (string -> Z) :=
    fun fl => (Return (fl "log_v"), fl) in
  exists fl_end,
    with_flag_scope is_flag accepts [("log_v", 1)]
      (with_flag_scope is_flag accepts [("log_v", 2); ("lazy_execution", 0)] body) fl0
    = (Return 2, fl_end) /\
    fl_end "log_v" = 5 /\ fl_end "lazy_execution" = 5.
Proof.
  intros is_flag accepts fl0 body.
  assert (Hvalid : valid is_flag accepts fl0) by (intros k _; reflexivity).
  assert (Hnd1 : List.NoDup (map fst [("log_v", 1)]))
    by (repeat constructor; simpl; tauto).
  assert (Hnd2 : List.NoDup (map fst [("log_v", 2); ("lazy_execution", 0)])).
  { repeat constructor; simpl; intuition discriminate. }
  destruct (flag_scope_nested is_flag accepts [("log_v", 1)]
              [("log_v", 2); ("lazy_execution", 0)] body fl0 Hnd1 Hnd2 Hvalid eq_refl)
    as (r & fl_end & Hrun & Hkeys & Hr).
  cbn in Hr. destruct Hr as [-> _].
  exists fl_end. split; [exact Hrun|]. split; apply Hkeys; simpl; auto.
Defined.

Lemma flag_scope_reentered_witness :
  let is_flag : string -> bool := fun _ => true in
  let accepts : string -> Z -> bool := fun _ v => 0 <=? v in
  let fl0 : string -> Z := fun _ => 0 in
  let body : (string -> Z) -> outcome unit * (string -> Z) :=
    fun fl => (Return tt, fl) in
  exists self_end fl_end,
    reentered is_flag accepts (init [("log_v", 1)]) body fl0
    = (Return tt, (self_end, fl_end)) /\
    fl0 "log_v" = 0 /\ fl_end "log_v" = 1.
Proof.
  intros is_flag accepts fl0 body.
  assert (Hvalid : valid is_flag accepts fl0) by (intros k _; reflexivity).
  assert (Hnd : List.NoDup (map fst [("log_v", 1)]))
    by (repeat constructor; simpl; tauto).
  destruct (flag_scope_reentered is_flag accepts [("log_v", 1)] body fl0 Hnd Hvalid
              eq_refl) as (self_end & fl_end & Hrun & Hin & _).
  exists self_end, fl_end. split; [exact Hrun|]. split; [reflexivity|].
  apply Hin. left. reflexivity.
Defined.

Lemma log_capture_releases_witness :
  let is_flag : string -> bool := fun _ => true in
  let accepts : string -> Z -> bool := fun _ _ => true in
  let w0 := LogCapture.mk_world (fun _ => 0) false [] [] in
  exists self1 w1 self2 w3,
    LogCapture.enter is_flag accepts (LogCapture.init [("log_v", 1)]) w0
    = (Return [], (self1, w1)) /\
    LogCapture.exit is_flag accepts self1
      (LogCapture.mk_world (LogCapture.w_flags w1) true (LogCapture.log_calls w1)
         ["compiled"])
    = (Return tt, (self2, w3)) /\
    LogCapture.logs self2 = Some ["compiled"] /\
    LogCapture.single_log_capture w3 = false /\
    LogCapture.w_flags w3 "log_v" = 0.
Proof.
  intros is_flag accepts w0.
  assert (Hvalid : valid is_flag accepts (LogCapture.w_flags w0))
    by (intros k _; reflexivity).
  assert (Hnd : List.NoDup (map fst [("log_v", 1)]))
    by (repeat constructor; simpl; tauto).
  pose proof (log_capture_releases is_flag accepts [("log_v", 1)] w0 Hnd Hvalid eq_refl)
    as H.
  change (first_failure is_flag accepts [("log_v", 1)]) with (@None exn) in H.
  destruct H as (self1 & w1 & Henter & _ & Hexit).
  destruct (Hexit (LogCapture.mk_world (LogCapture.w_flags w1) true
                     (LogCapture.log_calls w1) ["compiled"]))
    as (self2 & w3 & Hrun & Hlogs & Hfree & _ & Hin & _).
  exists self1, w1, self2, w3. split; [exact Henter|]. split; [exact Hrun|].
  split; [exact Hlogs|]. split; [exact Hfree|].
  apply Hin. left. reflexivity.
Defined.

End FurtherExamples.
